(** * Skill Tree Planner: the dependency and allocation engine

    A shallow embedding of [state.js], [validation_engine.js] and the
    project actions of [actions.js] (trees, nodes, points, connections) as
    [main.js] dispatches them, followed by the properties of the engine.

    Conventions of the embedding.
    - JavaScript arrays are lists; an object used by identity lookup
      ([find], [findIndex]) keeps its array order, so duplicates behave as
      in the source (the first match wins).
    - Ranks, costs and thresholds are integers ([Z]).  The only number the
      engine itself can turn into [NaN] is [point_pool.spent] (by adding an
      [undefined] cost read past the ends of [cost_per_rank]), so that field
      is a [jsnum].
    - [clone_state] (a JSON round trip) is the identity on values.
      [touch_modified] overwrites the timestamp; the clock reading is passed
      in as [now].  [generate_id] is impure: the generated identifier is
      passed in.
    - Fields the engine never reads (names, positions, icons, ...) are
      omitted.
    - Loops and recursions of the source that are not structural ([while
      (changed)], the breadth-first queue, [dfs], the mutual recursion of
      the evaluator) take a fuel argument and distinguish running out of
      it from every result of the source; each comes with a lemma that
      the fuel the model supplies is never exhausted. *)

From Stdlib Require Import ZArith.
From stdpp Require Import gmap strings list.

Open Scope string_scope.
Open Scope list_scope.
Open Scope Z_scope.

#[local] Set Warnings "-clear-no-such-hyp".

(** ** JavaScript numbers that may be [NaN] *)

Inductive jsnum : Type :=
  | Num (z : Z)
  | NaN.

#[global] Instance jsnum_eq_dec : EqDecision jsnum.
Proof. solve_decision. Defined.

Definition js_add (a b : jsnum) : jsnum :=
  match a, b with
  | Num x, Num y => Num (x + y)
  | _, _ => NaN
  end.

Definition js_sub (a b : jsnum) : jsnum :=
  match a, b with
  | Num x, Num y => Num (x - y)
  | _, _ => NaN
  end.

(** [a < b]: false as soon as one side is [NaN]. *)
Definition js_lt (a b : jsnum) : bool :=
  match a, b with
  | Num x, Num y => x <? y
  | _, _ => false
  end.

(** [a !== b] on numbers: [NaN] differs from everything, itself included. *)
Definition js_strict_ne (a b : jsnum) : bool :=
  match a, b with
  | Num x, Num y => negb (x =? y)
  | _, _ => true
  end.

(** [arr[i]] read as a number: [undefined] (hence [NaN] in arithmetic and
    [false] in comparisons) outside [0 .. length-1]. *)
Definition js_index (arr : list Z) (i : Z) : jsnum :=
  if i <? 0 then NaN
  else match arr !! Z.to_nat i with
       | Some c => Num c
       | None => NaN
       end.

(** ** Data model ([state.js]) *)

Record node : Type := mk_node {
  n_id : string;
  max_rank : Z;
  current_rank : Z;
  cost_per_rank : list Z;
  prerequisite_logic : string;   (* the empty string stands for any falsy value *)
  prerequisite_threshold : Z
}.

Record connection : Type := mk_connection {
  c_id : string;
  from_node_id : string;
  to_node_id : string;
  required_rank : Z;
  logic : option string          (* only set by [add_connection] on request *)
}.

Record point_pool_t : Type := mk_point_pool {
  total : Z;
  spent : jsnum
}.

Record tree : Type := mk_tree {
  t_id : string;
  point_pool : point_pool_t;
  nodes : list node;
  connections : list connection
}.

Record settings_t : Type := mk_settings {
  allow_refunds : bool;
  cascade_refunds : bool
}.

Record state : Type := mk_state {
  modified_at : string;
  settings : settings_t;
  trees : list tree;
  mode : string                  (* ui_state.mode: "edit" or "play" *)
}.

#[global] Instance node_eq_dec : EqDecision node.
Proof. solve_decision. Defined.
#[global] Instance connection_eq_dec : EqDecision connection.
Proof. solve_decision. Defined.
#[global] Instance point_pool_eq_dec : EqDecision point_pool_t.
Proof. solve_decision. Defined.
#[global] Instance tree_eq_dec : EqDecision tree.
Proof. solve_decision. Defined.
#[global] Instance settings_eq_dec : EqDecision settings_t.
Proof. solve_decision. Defined.
#[global] Instance state_eq_dec : EqDecision state.
Proof. solve_decision. Defined.

(** Field updates, as the assignments of the source. *)

Definition set_current_rank (n : node) (r : Z) : node :=
  mk_node (n_id n) (max_rank n) r (cost_per_rank n)
          (prerequisite_logic n) (prerequisite_threshold n).

Definition set_spent (t : tree) (s : jsnum) : tree :=
  mk_tree (t_id t) (mk_point_pool (total (point_pool t)) s)
          (nodes t) (connections t).

Definition set_nodes (t : tree) (ns : list node) : tree :=
  mk_tree (t_id t) (point_pool t) ns (connections t).

Definition set_connections (t : tree) (cs : list connection) : tree :=
  mk_tree (t_id t) (point_pool t) (nodes t) cs.

Definition set_trees (st : state) (ts : list tree) : state :=
  mk_state (modified_at st) (settings st) ts (mode st).

Definition clone_state (st : state) : state := st.

Definition touch_modified (now : string) (st : state) : state :=
  let new_state := clone_state st in
  mk_state now (settings new_state) (trees new_state) (mode new_state).

(** ** Identity lookup ([state.js]) *)

Definition get_tree_index (st : state) (tree_id : string) : option nat :=
  fst <$> list_find (λ t, t_id t = tree_id) (trees st).

Definition find_tree (st : state) (tree_id : string) : option tree :=
  snd <$> list_find (λ t, t_id t = tree_id) (trees st).

Definition get_node_index (t : tree) (node_id : string) : option nat :=
  fst <$> list_find (λ n, n_id n = node_id) (nodes t).

Definition find_node (st : state) (tree_id node_id : string) : option node :=
  match find_tree st tree_id with
  | None => None
  | Some t => snd <$> list_find (λ n, n_id n = node_id) (nodes t)
  end.

(** ** Prerequisite evaluator ([validation_engine.js]) *)

(** [Array.prototype.every] and [some] over a callback that may itself run
    out of fuel; both stop at the first deciding element. *)
Fixpoint every_opt {A} (f : A → option bool) (l : list A) : option bool :=
  match l with
  | [] => Some true
  | x :: l' =>
      match f x with
      | None => None
      | Some false => Some false
      | Some true => every_opt f l'
      end
  end.

Fixpoint some_opt {A} (f : A → option bool) (l : list A) : option bool :=
  match l with
  | [] => Some false
  | x :: l' =>
      match f x with
      | None => None
      | Some true => Some true
      | Some false => some_opt f l'
      end
  end.

(** [node.prerequisite_logic || "AND"] *)
Definition logic_or_default (n : node) : string :=
  if decide (prerequisite_logic n = "") then "AND" else prerequisite_logic n.

(** [node.prerequisite_threshold || 1] *)
Definition threshold_or_default (n : node) : Z :=
  if decide (prerequisite_threshold n = 0) then 1 else prerequisite_threshold n.

(** The [for] loop of the SUM branch: ranks of the sources that exist. *)
Definition sum_source_ranks (st : state) (tree_id : string)
    (incoming : list connection) : Z :=
  foldl (λ total_rank conn,
           match find_node st tree_id (from_node_id conn) with
           | Some from_node => total_rank + current_rank from_node
           | None => total_rank
           end) 0 incoming.

(** [check_prerequisites] and [is_connection_satisfied] call each other.
    The recursion is cut by a fuel argument; [None] means the fuel ran out
    (shown below never to happen from 3 units on). *)
Fixpoint check_prerequisites_fuel (fuel : nat) (st : state)
    (tree_id node_id : string) {struct fuel} : option bool :=
  match fuel with
  | O => None
  | S fuel' =>
      match find_tree st tree_id with
      | None => Some false
      | Some t =>
          let incoming := filter (λ c, to_node_id c = node_id) (connections t) in
          if decide (length incoming = 0%nat) then Some true
          else
            match find_node st tree_id node_id with
            | None => Some false
            | Some n =>
                let logic := logic_or_default n in
                if decide (logic = "AND") then
                  every_opt (is_connection_satisfied_fuel fuel' st tree_id) incoming
                else if decide (logic = "OR") then
                  some_opt (is_connection_satisfied_fuel fuel' st tree_id) incoming
                else if decide (logic = "SUM") then
                  let threshold := threshold_or_default n in
                  let total_rank := sum_source_ranks st tree_id incoming in
                  Some (threshold <=? total_rank)
                else Some true
            end
      end
  end
with is_connection_satisfied_fuel (fuel : nat) (st : state)
    (tree_id : string) (conn : connection) {struct fuel} : option bool :=
  match fuel with
  | O => None
  | S fuel' =>
      match find_node st tree_id (to_node_id conn) with
      | None => Some false
      | Some to_node =>
          match find_node st tree_id (from_node_id conn) with
          | None => Some false
          | Some from_node =>
              if decide (prerequisite_logic to_node = "SUM") then
                check_prerequisites_fuel fuel' st tree_id (to_node_id conn)
              else Some (required_rank conn <=? current_rank from_node)
          end
      end
  end.

Definition check_prerequisites (st : state) (tree_id node_id : string) : bool :=
  default false (check_prerequisites_fuel 3 st tree_id node_id).

Definition is_connection_satisfied (st : state) (tree_id : string)
    (conn : connection) : bool :=
  default false (is_connection_satisfied_fuel 3 st tree_id conn).

(** ** Status deriver *)

Inductive node_status : Type :=
  | LOCKED | UNLOCKABLE | ACTIVE | MAXED | INVALID.

#[global] Instance node_status_eq_dec : EqDecision node_status.
Proof. solve_decision. Defined.

Definition get_node_status (st : state) (tree_id node_id : string) : node_status :=
  match find_tree st tree_id with
  | None => INVALID
  | Some _ =>
      match find_node st tree_id node_id with
      | None => INVALID
      | Some n =>
          let prereqs_met := check_prerequisites st tree_id node_id in
          if negb prereqs_met then LOCKED
          else if decide (current_rank n = 0) then UNLOCKABLE
          else if max_rank n <=? current_rank n then MAXED
          else ACTIVE
      end
  end.

(** ** Allocation ledger: queries ([validation_engine.js]) *)

Definition get_allocation_cost (n : node) : jsnum :=
  let cost_index := Z.min (current_rank n) (Z.of_nat (length (cost_per_rank n)) - 1) in
  js_index (cost_per_rank n) cost_index.

Definition get_refund_amount (n : node) : jsnum :=
  if current_rank n <=? 0 then Num 0
  else
    let cost_index :=
      Z.min (current_rank n - 1) (Z.of_nat (length (cost_per_rank n)) - 1) in
    js_index (cost_per_rank n) cost_index.

Record allocate_answer : Type := mk_allocate_answer {
  can_allocate : bool;
  reason : option string
}.

Definition can_allocate_point (st : state) (tree_id node_id : string)
    : allocate_answer :=
  match find_tree st tree_id with
  | None => mk_allocate_answer false (Some "Tree not found")
  | Some t =>
      match find_node st tree_id node_id with
      | None => mk_allocate_answer false (Some "Node not found")
      | Some n =>
          if decide (mode st = "edit") then
            if max_rank n <=? current_rank n then
              mk_allocate_answer false (Some "Maximum rank reached")
            else
              let cost := get_allocation_cost n in
              let available := js_sub (Num (total (point_pool t))) (spent (point_pool t)) in
              if js_lt available cost then
                mk_allocate_answer false (Some "Not enough points")
              else mk_allocate_answer true None
          else
            let status := get_node_status st tree_id node_id in
            if decide (status = LOCKED) then
              mk_allocate_answer false (Some "Prerequisites not met")
            else if decide (status = MAXED) then
              mk_allocate_answer false (Some "Maximum rank reached")
            else if decide (status = INVALID) then
              mk_allocate_answer false (Some "Invalid node state")
            else
              let cost := get_allocation_cost n in
              let available := js_sub (Num (total (point_pool t))) (spent (point_pool t)) in
              if js_lt available cost then
                mk_allocate_answer false (Some "Not enough points")
              else mk_allocate_answer true None
      end
  end.

(** ** Allocation ledger: actions ([actions.js])

    [get_tree_index] followed by [trees[tree_index]] (and likewise for
    nodes) is one [list_find], which yields the index and the element. *)

Definition allocate_point (now : string) (st : state) (tree_id node_id : string)
    : state :=
  let new_state := touch_modified now (clone_state st) in
  match list_find (λ t, t_id t = tree_id) (trees new_state) with
  | None => st
  | Some (tree_index, t) =>
      match list_find (λ n, n_id n = node_id) (nodes t) with
      | None => st
      | Some (node_index, n) =>
          if max_rank n <=? current_rank n then st
          else
            let cost_index :=
              Z.min (current_rank n) (Z.of_nat (length (cost_per_rank n)) - 1) in
            let cost := js_index (cost_per_rank n) cost_index in
            let available := js_sub (Num (total (point_pool t))) (spent (point_pool t)) in
            if js_lt available cost then st
            else
              let n' := set_current_rank n (current_rank n + 1) in
              let t' := set_spent (set_nodes t (<[node_index := n']> (nodes t)))
                                  (js_add (spent (point_pool t)) cost) in
              set_trees new_state (<[tree_index := t']> (trees new_state))
      end
  end.

(** The accumulated cost of a node's ranks, subtracted one rank at a time
    ([for (let i = 0; i < node.current_rank; i++) spent -= cost[...]]). *)
Definition refund_all_ranks (n : node) (spent0 : jsnum) : jsnum :=
  foldl (λ s i,
           let cost_index :=
             Z.min (Z.of_nat i) (Z.of_nat (length (cost_per_rank n)) - 1) in
           js_sub s (js_index (cost_per_rank n) cost_index))
        spent0 (seq 0 (Z.to_nat (current_rank n))).

(** The body of [if (!prereqs_met)]: every rank of node [n], held at
    position [i] of tree [t] (itself at [tree_index]), is refunded and the
    rank is reset. *)
Definition cascade_reset (st : state) (tree_index : nat) (t : tree)
    (i : nat) (n : node) : state :=
  let s' := refund_all_ranks n (spent (point_pool t)) in
  let t' := set_spent (set_nodes t (<[i := set_current_rank n 0]> (nodes t))) s' in
  set_trees st (<[tree_index := t']> (trees st)).

(** One [for (const node of tree.nodes)] pass of the cascade, from array
    position [i] on, over the tree held at [tree_index] of the state.  The
    state is threaded so that each prerequisite check reads the ranks
    already reset earlier in the same pass.  [todo] counts the elements
    still to visit. *)
Fixpoint cascade_pass (todo : nat) (i : nat) (tree_id : string)
    (tree_index : nat) (st : state) (changed : bool) : state * bool :=
  match todo with
  | O => (st, changed)
  | S todo' =>
      match trees st !! tree_index with
      | None => (st, changed)
      | Some t =>
          match nodes t !! i with
          | None => (st, changed)
          | Some n =>
              if (0 <? current_rank n) && negb (check_prerequisites st tree_id (n_id n))
              then cascade_pass todo' (S i) tree_id tree_index
                                (cascade_reset st tree_index t i n) true
              else cascade_pass todo' (S i) tree_id tree_index st changed
          end
      end
  end.

(** [while (changed) { changed = false; pass }], cut by [fuel] passes. *)
Fixpoint cascade_loop (fuel : nat) (tree_id : string) (tree_index : nat)
    (st : state) : option state :=
  match fuel with
  | O => None
  | S fuel' =>
      let n := match trees st !! tree_index with
               | Some t => length (nodes t)
               | None => O
               end in
      let '(st', changed) := cascade_pass n 0 tree_id tree_index st false in
      if changed then cascade_loop fuel' tree_id tree_index st' else Some st'
  end.

Definition apply_cascade_refunds (st : state) (tree_id : string) : option state :=
  match list_find (λ t, t_id t = tree_id) (trees st) with
  | None => Some st
  | Some (tree_index, t) =>
      cascade_loop (S (length (nodes t))) tree_id tree_index st
  end.

Definition refund_point (now : string) (st : state) (tree_id node_id : string)
    : option state :=
  let new_state := touch_modified now (clone_state st) in
  if negb (allow_refunds (settings new_state)) then Some st
  else
    match list_find (λ t, t_id t = tree_id) (trees new_state) with
    | None => Some st
    | Some (tree_index, t) =>
        match list_find (λ n, n_id n = node_id) (nodes t) with
        | None => Some st
        | Some (node_index, n) =>
            if current_rank n <=? 0 then Some st
            else
              let cost_index :=
                Z.min (current_rank n - 1) (Z.of_nat (length (cost_per_rank n)) - 1) in
              let refund := js_index (cost_per_rank n) cost_index in
              let n' := set_current_rank n (current_rank n - 1) in
              let t' := set_spent (set_nodes t (<[node_index := n']> (nodes t)))
                                  (js_sub (spent (point_pool t)) refund) in
              let new_state := set_trees new_state (<[tree_index := t']> (trees new_state)) in
              if negb (bool_decide (mode new_state = "edit"))
                 || cascade_refunds (settings new_state)
              then apply_cascade_refunds new_state tree_id
              else Some new_state
        end
    end.

(** [set_mode] of [actions.js]. *)
Definition set_mode (st : state) (new_mode : string) : state :=
  if negb (bool_decide (new_mode = "edit")) && negb (bool_decide (new_mode = "play"))
  then st
  else
    let new_state := clone_state st in
    mk_state (modified_at new_state) (settings new_state) (trees new_state) new_mode.

(** ** Connection actions ([actions.js]) *)

Record connection_options : Type := mk_connection_options {
  opt_from_node_id : string;       (* the empty string stands for a missing id *)
  opt_to_node_id : string;
  opt_logic : option string;
  opt_required_rank : option Z     (* [Some] when [typeof ... === "number"] *)
}.

Definition create_connection (new_id from_id to_id : string) : connection :=
  mk_connection new_id from_id to_id 1 None.

(** [new_id] is the identifier [generate_id("conn")] returns. *)
Definition add_connection (now new_id : string) (st : state) (tree_id : string)
    (options : connection_options) : state :=
  if bool_decide (opt_from_node_id options = "")
     || bool_decide (opt_to_node_id options = "")
  then st
  else
    let new_state := touch_modified now (clone_state st) in
    match list_find (λ t, t_id t = tree_id) (trees new_state) with
    | None => st
    | Some (tree_index, t) =>
        let from_exists :=
          existsb (λ n, bool_decide (n_id n = opt_from_node_id options)) (nodes t) in
        let to_exists :=
          existsb (λ n, bool_decide (n_id n = opt_to_node_id options)) (nodes t) in
        if negb from_exists || negb to_exists then st
        else
          let duplicate :=
            existsb (λ c, bool_decide (from_node_id c = opt_from_node_id options)
                          && bool_decide (to_node_id c = opt_to_node_id options))
                    (connections t) in
          if duplicate then st
          else
            let c0 := create_connection new_id (opt_from_node_id options)
                                        (opt_to_node_id options) in
            let c1 :=
              if bool_decide (opt_logic options = Some "AND")
                 || bool_decide (opt_logic options = Some "OR")
              then mk_connection (c_id c0) (from_node_id c0) (to_node_id c0)
                                 (required_rank c0) (opt_logic options)
              else c0 in
            let c2 :=
              match opt_required_rank options with
              | Some r => mk_connection (c_id c1) (from_node_id c1) (to_node_id c1)
                                        r (logic c1)
              | None => c1
              end in
            let t' := set_connections t (connections t ++ [c2]) in
            set_trees new_state (<[tree_index := t']> (trees new_state))
    end.

(** ** Sequences of ledger operations, as [dispatch] applies them *)

Inductive engine_op : Type :=
  | OpAllocate (now tree_id node_id : string)
  | OpRefund (now tree_id node_id : string).

Definition apply_op (op : engine_op) (st : state) : option state :=
  match op with
  | OpAllocate now tree_id node_id => Some (allocate_point now st tree_id node_id)
  | OpRefund now tree_id node_id => refund_point now st tree_id node_id
  end.

Fixpoint run_ops (ops : list engine_op) (st : state) : option state :=
  match ops with
  | [] => Some st
  | op :: ops' =>
      match apply_op op st with
      | Some st' => run_ops ops' st'
      | None => None
      end
  end.

(** ** Structural validator ([validation_engine.js]) *)

(** The inner loop of [calculate_spent_points] for one node. *)
Definition add_node_costs (n : node) (total0 : jsnum) : jsnum :=
  foldl (λ tot i,
           let cost_index :=
             Z.min (Z.of_nat i) (Z.of_nat (length (cost_per_rank n)) - 1) in
           js_add tot (js_index (cost_per_rank n) cost_index))
        total0 (seq 0 (Z.to_nat (current_rank n))).

Definition calculate_spent_points (t : tree) : jsnum :=
  foldl (λ tot n, add_node_costs n tot) (Num 0) (nodes t).

(** *** Cycle detection

    [adjacency] is a plain object keyed by node id, embedded as a finite
    map; ids are assumed not to collide with members of
    [Object.prototype].  [visited] and [rec_stack] are [Set]s, [path] an
    array. *)

Record dfs_state : Type := mk_dfs_state {
  visited : gset string;
  rec_stack : gset string;
  path : list string
}.

Inductive dfs_result : Type :=
  | DfsCycle (cycle : list string)   (* a cycle array was returned *)
  | DfsNull (s : dfs_state)          (* [null] was returned; the sets as left *)
  | DfsOutOfFuel.

Definition build_adjacency (t : tree) : gmap string (list string) :=
  let adjacency0 : gmap string (list string) :=
    foldl (λ adj n, <[n_id n := []]> adj) ∅ (nodes t) in
  foldl (λ (adj : gmap string (list string)) conn,
           match adj !! from_node_id conn with
           | Some targets => <[from_node_id conn := targets ++ [to_node_id conn]]> adj
           | None => adj
           end) adjacency0 (connections t).

(** [path.slice(path.indexOf(neighbor))]; [slice(-1)] keeps the last
    element. *)
Definition slice_from (neighbor : string) (p : list string) : list string :=
  match list_find (λ x, x = neighbor) p with
  | Some (cycle_start, _) => drop cycle_start p
  | None => drop (length p - 1) p
  end.

(** The [for (const neighbor of ...)] loop of [dfs]; [visit] is the
    recursive call. *)
Fixpoint dfs_neighbors (visit : string → dfs_state → dfs_result)
    (neighbors : list string) (s : dfs_state) : dfs_result :=
  match neighbors with
  | [] => DfsNull s
  | neighbor :: rest =>
      if decide (neighbor ∉ visited s) then
        match visit neighbor s with
        | DfsCycle cycle => DfsCycle cycle
        | DfsNull s' => dfs_neighbors visit rest s'
        | DfsOutOfFuel => DfsOutOfFuel
        end
      else if decide (neighbor ∈ rec_stack s) then
        DfsCycle (slice_from neighbor (path s))
      else dfs_neighbors visit rest s
  end.

Fixpoint dfs (fuel : nat) (adjacency : gmap string (list string))
    (node_id : string) (s : dfs_state) : dfs_result :=
  match fuel with
  | O => DfsOutOfFuel
  | S fuel' =>
      let s1 := mk_dfs_state ({[node_id]} ∪ visited s)
                             ({[node_id]} ∪ rec_stack s)
                             (path s ++ [node_id]) in
      match dfs_neighbors (dfs fuel' adjacency)
                          (default [] (adjacency !! node_id)) s1 with
      | DfsNull s2 =>
          DfsNull (mk_dfs_state (visited s2)
                                (rec_stack s2 ∖ {[node_id]})
                                (removelast (path s2)))
      | r => r
      end
  end.

(** The final [for (const node of tree.nodes)] loop. *)
Fixpoint dfs_roots (visit : string → dfs_state → dfs_result)
    (ns : list node) (s : dfs_state) : dfs_result :=
  match ns with
  | [] => DfsNull s
  | n :: rest =>
      if decide (n_id n ∉ visited s) then
        match visit (n_id n) s with
        | DfsCycle cycle => DfsCycle cycle
        | DfsNull s' => dfs_roots visit rest s'
        | DfsOutOfFuel => DfsOutOfFuel
        end
      else dfs_roots visit rest s
  end.

Definition detect_cycle_fuel (fuel : nat) (t : tree) : dfs_result :=
  dfs_roots (dfs fuel (build_adjacency t)) (nodes t) (mk_dfs_state ∅ ∅ []).

(** The ids [dfs] can ever be called on: those of the nodes and the
    targets of the connections.  The recursion is never deeper than their
    number. *)
Definition cycle_universe (t : tree) : gset string :=
  list_to_set (n_id <$> nodes t) ∪ list_to_set (to_node_id <$> connections t).

Definition detect_cycle_depth (t : tree) : nat := S (size (cycle_universe t)).

Definition detect_cycle (t : tree) : option (list string) :=
  match detect_cycle_fuel (detect_cycle_depth t) t with
  | DfsCycle cycle => Some cycle
  | _ => None
  end.

(** *** Validation results *)

Inductive issue : Type :=
  | ERR_TREE_NOT_FOUND
  | ERR_DUPLICATE_NODE_ID (node_id : string)
  | ERR_INVALID_CONNECTION_SOURCE (connection_id from_id : string)
  | ERR_INVALID_CONNECTION_TARGET (connection_id to_id : string)
  | ERR_CYCLIC_DEPENDENCY (cycle : list string)
  | WARN_POINT_POOL_MISMATCH (stored calculated : jsnum)
  | WARN_ORPHANED_NODE (node_id : string).

Record validation_result : Type := mk_validation_result {
  is_valid : bool;
  errors : list issue;
  warnings : list issue
}.

(** [ids.filter((id, index) => ids.indexOf(id) !== index)] *)
Definition duplicate_ids (ids : list string) : list string :=
  omap (λ '(index, id),
          if decide (fst <$> list_find (λ x, x = id) ids = Some index)
          then None else Some id)
       (imap (λ index id, (index, id)) ids).

Definition validate_tree (st : state) (tree_id : string) : validation_result :=
  match find_tree st tree_id with
  | None => mk_validation_result false [ERR_TREE_NOT_FOUND] []
  | Some t =>
      let node_ids := n_id <$> nodes t in
      let errors_dup := ERR_DUPLICATE_NODE_ID <$> duplicate_ids node_ids in
      let errors_conn :=
        mjoin ((λ conn,
                 (if decide (from_node_id conn ∈ node_ids) then []
                  else [ERR_INVALID_CONNECTION_SOURCE (c_id conn) (from_node_id conn)])
                 ++
                 (if decide (to_node_id conn ∈ node_ids) then []
                  else [ERR_INVALID_CONNECTION_TARGET (c_id conn) (to_node_id conn)]))
               <$> connections t) in
      let errors_cycle :=
        match detect_cycle t with
        | Some cycle => [ERR_CYCLIC_DEPENDENCY cycle]
        | None => []
        end in
      let calculated_spent := calculate_spent_points t in
      let warnings_pool :=
        if js_strict_ne calculated_spent (spent (point_pool t))
        then [WARN_POINT_POOL_MISMATCH (spent (point_pool t)) calculated_spent]
        else [] in
      let warnings_orphan :=
        if bool_decide (1 < length (nodes t))%nat
           && bool_decide (0 < length (connections t))%nat
        then
          omap (λ n,
                  let has_incoming :=
                    existsb (λ c, bool_decide (to_node_id c = n_id n)) (connections t) in
                  let has_outgoing :=
                    existsb (λ c, bool_decide (from_node_id c = n_id n)) (connections t) in
                  if negb has_incoming && negb has_outgoing
                  then Some (WARN_ORPHANED_NODE (n_id n)) else None)
               (nodes t)
        else [] in
      let errors := errors_dup ++ errors_conn ++ errors_cycle in
      mk_validation_result (bool_decide (errors = []))
                           errors (warnings_pool ++ warnings_orphan)
  end.

(** *** Reachability analysis *)

Inductive reach_result : Type :=
  | ReachDone (unreachable : list string)
  | ReachTypeError                  (* a property of [null] was read *)
  | ReachOutOfFuel.

(** The [for (const conn of outgoing)] loop of one breadth-first step.
    [None] is the [TypeError] raised by [target_node.prerequisite_logic]
    when [find_node] has answered [null]. *)
Fixpoint reach_outgoing (st : state) (tree_id : string) (t : tree)
    (outgoing : list connection) (reachable : gset string) (queue : list string)
    : option (gset string * list string) :=
  match outgoing with
  | [] => Some (reachable, queue)
  | conn :: rest =>
      let target_id := to_node_id conn in
      if decide (target_id ∈ reachable) then
        reach_outgoing st tree_id t rest reachable queue
      else
        match find_node st tree_id target_id with
        | None => None
        | Some target_node =>
            let incoming :=
              filter (λ c, to_node_id c = target_id) (connections t) in
            let logic := logic_or_default target_node in
            let can_reach :=
              if decide (logic = "AND") then
                forallb (λ c, bool_decide (from_node_id c ∈ reachable)) incoming
              else if decide (logic = "OR") then
                existsb (λ c, bool_decide (from_node_id c ∈ reachable)) incoming
              else if decide (logic = "SUM") then
                existsb (λ c, bool_decide (from_node_id c ∈ reachable)) incoming
              else false in
            if can_reach then
              reach_outgoing st tree_id t rest ({[target_id]} ∪ reachable)
                             (queue ++ [target_id])
            else reach_outgoing st tree_id t rest reachable queue
        end
  end.

(** [while (head < queue.length)], cut by [fuel] iterations. *)
Fixpoint reach_bfs (fuel : nat) (st : state) (tree_id : string) (t : tree)
    (head : nat) (reachable : gset string) (queue : list string)
    : option (option (gset string)) :=
  match queue !! head with
  | None => Some (Some reachable)
  | Some current_id =>
      match fuel with
      | O => None
      | S fuel' =>
          let outgoing :=
            filter (λ c, from_node_id c = current_id) (connections t) in
          match reach_outgoing st tree_id t outgoing reachable queue with
          | None => Some None
          | Some (reachable', queue') =>
              reach_bfs fuel' st tree_id t (S head) reachable' queue'
          end
      end
  end.

Definition check_tree_reachability (st : state) (tree_id : string) : reach_result :=
  match find_tree st tree_id with
  | None => ReachDone []
  | Some t =>
      let '(reachable, queue) :=
        foldl (λ '(reachable, queue) n,
                 let incoming :=
                   filter (λ c, to_node_id c = n_id n) (connections t) in
                 if decide (length incoming = 0%nat)
                 then ({[n_id n]} ∪ reachable, queue ++ [n_id n])
                 else (reachable, queue))
              ((∅ : gset string), ([] : list string)) (nodes t) in
      match reach_bfs (length (nodes t) + length (connections t))
                      st tree_id t 0 reachable queue with
      | None => ReachOutOfFuel
      | Some None => ReachTypeError
      | Some (Some reachable') =>
          ReachDone (n_id <$> filter (λ n, n_id n ∉ reachable') (nodes t))
      end
  end.

(** ** Example trees used by the concrete checks below *)

Definition example_node (id : string) (rank : Z) : node :=
  mk_node id 1 rank [1] "AND" 1.

Definition example_edge (from_id to_id : string) : connection :=
  mk_connection (from_id +:+ "->" +:+ to_id) from_id to_id 1 None.

Definition example_state (m : string) (t : tree) : state :=
  mk_state "2024-01-01" (mk_settings true false) [t] m.

(** A -> B (AND, required rank 1), nothing allocated: B is locked. *)
Definition locked_tree : tree :=
  mk_tree "t" (mk_point_pool 20 (Num 0))
          [example_node "A" 0; example_node "B" 0]
          [example_edge "A" "B"].

(** ** Vocabulary of the statements *)

Definition Zsum (l : list Z) : Z := foldr Z.add 0 l.

(** The ranks of the source nodes of [incoming] that exist in the tree. *)
Definition existing_source_ranks (st : state) (tree_id : string)
    (incoming : list connection) : list Z :=
  current_rank <$> omap (λ c, find_node st tree_id (from_node_id c)) incoming.

(** The same state with every connection's [required_rank] replaced. *)
Definition with_required_rank (f : connection → Z) (c : connection) : connection :=
  mk_connection (c_id c) (from_node_id c) (to_node_id c) (f c) (logic c).

Definition with_required_ranks (f : connection → Z) (st : state) : state :=
  set_trees st
    ((λ t, set_connections t (with_required_rank f <$> connections t)) <$> trees st).

(** D and E feed C, a SUM node with threshold 0 (so the default 1 applies). *)
Definition sum_zero_tree : tree :=
  mk_tree "t" (mk_point_pool 20 (Num 0))
          [mk_node "C" 1 0 [1] "SUM" 0; example_node "D" 0; example_node "E" 0]
          [example_edge "D" "C"; example_edge "E" "C"].

(** The SUM example of the specification: threshold 3, D at rank [d], E at
    rank 1. *)
Definition sum_three_tree (d : Z) : tree :=
  mk_tree "t" (mk_point_pool 20 (Num 3))
          [mk_node "C" 1 0 [1] "SUM" 3; mk_node "D" 2 d [1] "AND" 1;
           mk_node "E" 1 1 [1] "AND" 1]
          [example_edge "D" "C"; example_edge "E" "C"].

(** A -> B where B carries a logic string outside AND, OR and SUM. *)
Definition malformed_logic_tree : tree :=
  mk_tree "t" (mk_point_pool 20 (Num 0))
          [example_node "A" 0; mk_node "B" 1 0 [1] "XOR" 1]
          [example_edge "A" "B"].

(** The accumulated cost of a node's ranks: the sum of
    [cost_per_rank[min(i, length-1)]] for [i] from 0 to [current_rank - 1]. *)
Definition accumulated_cost (n : node) : jsnum := add_node_costs n (Num 0).

Definition jsum (l : list jsnum) : jsnum := foldr js_add (Num 0) l.

(** A node is forced to rank 0 when it held a rank before and holds none
    after. *)
Definition forced_to_zero (before after : node) : bool :=
  (0 <? current_rank before) && (current_rank after =? 0).

(** What the nodes forced to rank 0 between two node arrays had cost. *)
Definition cascade_refund_total (before after : list node) : jsnum :=
  jsum (zip_with (λ b a, if forced_to_zero b a then accumulated_cost b else Num 0)
                 before after).

Definition total_allocated_rank (t : tree) : Z :=
  Zsum (current_rank <$> nodes t).

Definition allocated_nodes (t : tree) : nat :=
  length (filter (λ n, 0 < current_rank n) (nodes t)).








Definition has_pool_mismatch (r : validation_result) : bool :=
  existsb (λ w, match w with WARN_POINT_POOL_MISMATCH _ _ => true | _ => false end)
          (warnings r).

(** A quantity of the tree held at [tree_index] (0 when there is none). *)
Definition tree_measure (tree_index : nat) (f : tree → Z) (st : state) : Z :=
  match trees st !! tree_index with
  | Some t => f t
  | None => 0
  end.

(** One whole pass of the cascade, as [cascade_loop] runs it. *)
Definition pass_length (tree_index : nat) (st : state) : nat :=
  match trees st !! tree_index with
  | Some t => length (nodes t)
  | None => O
  end.

Definition full_pass (tree_id : string) (tree_index : nat) (st : state)
    : state * bool :=
  cascade_pass (pass_length tree_index st) 0 tree_id tree_index st false.

(** The cascade example of the specification: A -> B (AND, required rank
    1) with A at rank [a] and B at rank 1. *)
Definition cascade_tree (a : Z) : tree :=
  mk_tree "t" (mk_point_pool 20 (Num (a + 1)))
          [example_node "A" a; example_node "B" 1]
          [example_edge "A" "B"].

(** [cascade_outcome tree_index st0 st]: [st] is [st0] except that, in the
    tree at [tree_index], some nodes that held a rank hold none any more,
    and [spent] was lowered by the accumulated cost of exactly those
    nodes. *)
Definition cascade_outcome (tree_index : nat) (st0 st : state) : Prop :=
  modified_at st = modified_at st0
  ∧ settings st = settings st0
  ∧ mode st = mode st0
  ∧ ∃ t0 t,
      trees st0 !! tree_index = Some t0
      ∧ trees st = <[tree_index := t]> (trees st0)
      ∧ t_id t = t_id t0
      ∧ connections t = connections t0
      ∧ total (point_pool t) = total (point_pool t0)
      ∧ length (nodes t) = length (nodes t0)
      ∧ (∀ j m0, nodes t0 !! j = Some m0 →
           nodes t !! j = Some m0
           ∨ (0 < current_rank m0 ∧ nodes t !! j = Some (set_current_rank m0 0)))
      ∧ spent (point_pool t)
        = js_sub (spent (point_pool t0))
                 (cascade_refund_total (nodes t0) (nodes t)).

(** The tree [refund_point] holds after taking one rank from the node at
    [node_index], before any cascade. *)
Definition refund_one_rank (t : tree) (node_index : nat) (n : node) : tree :=
  let cost_index :=
    Z.min (current_rank n - 1) (Z.of_nat (length (cost_per_rank n)) - 1) in
  set_spent (set_nodes t (<[node_index := set_current_rank n (current_rank n - 1)]>
                            (nodes t)))
            (js_sub (spent (point_pool t)) (js_index (cost_per_rank n) cost_index)).


(** Invariants of the connection list. *)
Definition connection_pair (c : connection) : string * string :=
  (from_node_id c, to_node_id c).

Definition unique_pairs (t : tree) : Prop :=
  NoDup (connection_pair <$> connections t).

Definition no_dangling (t : tree) : Prop :=
  ∀ c, c ∈ connections t →
       from_node_id c ∈ (n_id <$> nodes t) ∧ to_node_id c ∈ (n_id <$> nodes t).

(** A tree with nodes A and B and the connection A -> B already there. *)
Definition connected_tree : tree :=
  mk_tree "t" (mk_point_pool 20 (Num 0))
          [example_node "A" 0; example_node "B" 0]
          [example_edge "A" "B"].

(** The connection graph: [from -> to] edges. *)
Definition edge (t : tree) (x y : string) : Prop :=
  ∃ c, c ∈ connections t ∧ from_node_id c = x ∧ to_node_id c = y.

(** A list of ids is a cycle of a graph when each id has an edge to the
    next one and the last has an edge back to the first. *)
Definition is_cycle (E : string → string → Prop) (cycle : list string) : Prop :=
  (∀ i x y, cycle !! i = Some x → cycle !! S i = Some y → E x y)
  ∧ ∃ x y, last cycle = Some x ∧ head cycle = Some y ∧ E x y.

(** A tree with a node whose only connection leads to an id that names no
    node. *)
Definition dangling_tree : tree :=
  mk_tree "t" (mk_point_pool 20 (Num 0))
          [example_node "A" 0]
          [example_edge "A" "ghost"].

(** The cycle example of the specification: A -> B, B -> C, C -> A. *)
Definition triangle_tree : tree :=
  mk_tree "t" (mk_point_pool 20 (Num 0))
          [example_node "A" 0; example_node "B" 0; example_node "C" 0]
          [example_edge "A" "B"; example_edge "B" "C"; example_edge "C" "A"].

(** Edges as [dfs] sees them, through the adjacency object. *)
Definition adj_edge (adjacency : gmap string (list string)) (x y : string) : Prop :=
  ∃ targets, adjacency !! x = Some targets ∧ y ∈ targets.

(** What holds of the three pieces of state whenever [dfs] is entered or a
    neighbor is examined: the recursion stack holds exactly the ids of
    [path], everything on it was visited, and [path] is a simple path of
    the graph. *)
Definition dfs_inv (E : string → string → Prop) (s : dfs_state) : Prop :=
  (∀ x, x ∈ rec_stack s ↔ x ∈ path s)
  ∧ rec_stack s ⊆ visited s
  ∧ NoDup (path s)
  ∧ ∀ i x y, path s !! i = Some x → path s !! S i = Some y → E x y.

(** What a call of [dfs] (or a run of one of its loops) started in state
    [s] delivers: a simple cycle of the graph, or [null] with [path] and
    [rec_stack] restored and [visited] grown. *)
Definition dfs_post (E : string → string → Prop) (s : dfs_state)
    (r : dfs_result) : Prop :=
  match r with
  | DfsCycle cycle => is_cycle E cycle ∧ NoDup cycle
  | DfsNull s' =>
      path s' = path s ∧ rec_stack s' = rec_stack s ∧ visited s ⊆ visited s'
  | DfsOutOfFuel => True
  end.

(** The call returned (it did not exhaust its fuel), and [visited] only
    grew. *)
Definition dfs_returns (s : dfs_state) (r : dfs_result) : Prop :=
  match r with
  | DfsCycle _ => True
  | DfsNull s' => visited s ⊆ visited s'
  | DfsOutOfFuel => False
  end.

(** A node outside the data model of §3: its cost array is empty. *)
Definition costless_tree : tree :=
  mk_tree "t" (mk_point_pool 20 (Num 0)) [mk_node "A" 1 0 [] "AND" 1] [].

(** ** Vocabulary of the further properties *)

(** The per-edge test of [is_connection_satisfied]: the source exists and
    [from_node.current_rank >= connection.required_rank]. *)
Definition edge_satisfied (st : state) (tree_id : string) (conn : connection) : bool :=
  match find_node st tree_id (from_node_id conn) with
  | Some from_node => required_rank conn <=? current_rank from_node
  | None => false
  end.

(** A -> C and B -> C, C being an OR node; A holds rank [a], B none. *)
Definition or_tree (a : Z) : tree :=
  mk_tree "t" (mk_point_pool 20 (Num a))
          [example_node "A" a; example_node "B" 0; mk_node "C" 1 0 [1] "OR" 1]
          [example_edge "A" "C"; example_edge "B" "C"].

(** ** Refund validation ([validation_engine.js]) *)

Definition has_alternative_path (st : state) (tree_id node_id excluded_node_id : string)
    : bool :=
  match find_tree st tree_id with
  | None => false
  | Some t =>
      let or_connections :=
        filter (λ c, to_node_id c = node_id
                     ∧ from_node_id c ≠ excluded_node_id
                     ∧ logic c = Some "OR") (connections t) in
      existsb (is_connection_satisfied st tree_id) or_connections
  end.

Definition find_blocking_dependents (st : state) (tree_id node_id : string)
    (new_rank : Z) : list string :=
  match find_tree st tree_id with
  | None => []
  | Some t =>
      let outgoing := filter (λ c, from_node_id c = node_id) (connections t) in
      omap (λ conn,
              if new_rank <? required_rank conn then
                match find_node st tree_id (to_node_id conn) with
                | Some dependent_node =>
                    if (0 <? current_rank dependent_node)
                       && negb (has_alternative_path st tree_id (to_node_id conn) node_id)
                    then Some (to_node_id conn)
                    else None
                | None => None
                end
              else None)
           outgoing
  end.

Record refund_answer : Type := mk_refund_answer {
  can_refund : bool;
  refund_reason : option string;
  affected_nodes : list string
}.

Definition can_refund_point (st : state) (tree_id node_id : string) : refund_answer :=
  if negb (allow_refunds (settings st)) then
    mk_refund_answer false (Some "Refunds are disabled") []
  else
    match find_tree st tree_id with
    | None => mk_refund_answer false (Some "Tree not found") []
    | Some t =>
        match find_node st tree_id node_id with
        | None => mk_refund_answer false (Some "Node not found") []
        | Some n =>
            if current_rank n <=? 0 then
              mk_refund_answer false (Some "No points allocated") []
            else if decide (mode st = "edit") then
              mk_refund_answer true None []
            else
              let new_rank := current_rank n - 1 in
              let blocking_dependents :=
                find_blocking_dependents st tree_id node_id new_rank in
              if bool_decide (0 < length blocking_dependents)%nat then
                mk_refund_answer true (Some "Will cascade to dependent nodes")
                                 blocking_dependents
              else mk_refund_answer true None []
        end
    end.

(** ** Remaining point and structure actions ([actions.js]) *)

Definition reset_tree (now : string) (st : state) (tree_id : string) : state :=
  let new_state := touch_modified now (clone_state st) in
  match list_find (λ t, t_id t = tree_id) (trees new_state) with
  | None => st
  | Some (tree_index, t) =>
      let t' := set_spent (set_nodes t ((λ n, set_current_rank n 0) <$> nodes t))
                          (Num 0) in
      set_trees new_state (<[tree_index := t']> (trees new_state))
  end.

(** [get_connection_index] followed by [connections.splice(index, 1)]. *)
Definition remove_connection (now : string) (st : state) (tree_id connection_id : string)
    : state :=
  let new_state := touch_modified now (clone_state st) in
  match list_find (λ t, t_id t = tree_id) (trees new_state) with
  | None => st
  | Some (tree_index, t) =>
      match list_find (λ c, c_id c = connection_id) (connections t) with
      | None => st
      | Some (conn_index, _) =>
          let t' := set_connections t (delete conn_index (connections t)) in
          set_trees new_state (<[tree_index := t']> (trees new_state))
      end
  end.

(** The part of [ui_state] that [remove_node] and the tree actions touch,
    next to the engine state. *)
Record session : Type := mk_session {
  engine_state : state;
  active_tree_id : option string;
  selected_node_id : option string
}.

Definition remove_node (now : string) (s : session) (tree_id node_id : string)
    : session :=
  let new_state := touch_modified now (clone_state (engine_state s)) in
  match list_find (λ t, t_id t = tree_id) (trees new_state) with
  | None => s
  | Some (tree_index, t) =>
      match list_find (λ n, n_id n = node_id) (nodes t) with
      | None => s
      | Some (node_index, _) =>
          let t' :=
            set_connections
              (set_nodes t (delete node_index (nodes t)))
              (filter (λ conn, from_node_id conn ≠ node_id ∧ to_node_id conn ≠ node_id)
                      (connections t)) in
          mk_session (set_trees new_state (<[tree_index := t']> (trees new_state)))
                     (active_tree_id s)
                     (if decide (selected_node_id s = Some node_id) then None
                      else selected_node_id s)
      end
  end.

(** Invariants of a tree under the ledger operations. *)
Definition rank_bounds (t : tree) : Prop :=
  Forall (λ n, 0 ≤ current_rank n ≤ max_rank n) (nodes t).



(** The tree the engine addresses as [tree_id] sits at [tree_index] and
    satisfies [Q]. *)
Definition tree_inv (Q : tree → Prop) (tree_index : nat) (tree_id : string)
    (st : state) : Prop :=
  ∃ t, list_find (λ t, t_id t = tree_id) (trees st) = Some (tree_index, t) ∧ Q t.

(** What the traversal has settled: an id that lies on a cycle of the
    graph and was visited is still on the recursion stack, so no finished
    id lies on a cycle. *)
Definition dfs_settled (E : string → string → Prop) (s : dfs_state) : Prop :=
  rec_stack s ⊆ visited s
  ∧ ∀ cycle x, is_cycle E cycle → x ∈ cycle → x ∈ visited s → x ∈ rec_stack s.

(** What a [null] from a call of [dfs] on [node_id] in state [s] means. *)
Definition dfs_finished (E : string → string → Prop) (s : dfs_state)
    (node_id : string) (r : dfs_result) : Prop :=
  match r with
  | DfsNull s' =>
      rec_stack s' = rec_stack s
      ∧ visited s ⊆ visited s'
      ∧ node_id ∈ visited s'
      ∧ dfs_settled E s'
  | _ => True
  end.

(** *** Validation of the whole state

    [validate_state] collects the issues of every tree (looked up again
    by [tree.id]) and adds one error per repeated tree id.  Its error list
    mixes the trees' issues with its own; [blocked_actions] stays empty
    throughout the engine and is left out, as in [validation_result]. *)
Inductive state_issue : Type :=
  | TREE_ISSUE (i : issue)
  | ERR_DUPLICATE_TREE_ID (tree_id : string).

Record state_validation_result : Type := mk_state_validation_result {
  state_is_valid : bool;
  state_errors : list state_issue;
  state_warnings : list issue
}.

Definition validate_state (st : state) : state_validation_result :=
  let tree_results := (λ t, validate_tree st (t_id t)) <$> trees st in
  let tree_ids := t_id <$> trees st in
  let errors :=
    (TREE_ISSUE <$> mjoin (errors <$> tree_results))
    ++ (ERR_DUPLICATE_TREE_ID <$> duplicate_ids tree_ids) in
  mk_state_validation_result (bool_decide (errors = []))
                             errors (mjoin (warnings <$> tree_results)).

(** A structurally sound tree: node ids are distinct, every connection
    joins two existing nodes, and the connections form no cycle. *)
Definition tree_sound (t : tree) : Prop :=
  NoDup (n_id <$> nodes t)
  ∧ no_dangling t
  ∧ ∀ cycle, ¬ is_cycle (edge t) cycle.

(** The editor with [connected_tree] open and its node A selected. *)
Definition selected_session : session :=
  mk_session (example_state "edit" connected_tree) (Some "t") (Some "A").

(** ** Vocabulary of the reachability analysis *)

(** The [can_reach] flag computed for a target inside the breadth-first
    loop of [check_tree_reachability]. *)
Definition can_reach (t : tree) (target_node : node) (target_id : string)
    (reachable : gset string) : bool :=
  let incoming := filter (λ c, to_node_id c = target_id) (connections t) in
  let logic := logic_or_default target_node in
  if decide (logic = "AND") then
    forallb (λ c, bool_decide (from_node_id c ∈ reachable)) incoming
  else if decide (logic = "OR") then
    existsb (λ c, bool_decide (from_node_id c ∈ reachable)) incoming
  else if decide (logic = "SUM") then
    existsb (λ c, bool_decide (from_node_id c ∈ reachable)) incoming
  else false.

(** Static reachability, as a least fixed point: a node without incoming
    connections can be unlocked; an AND node when every source of its
    incoming connections can; an OR or SUM node when one of them can. *)
Inductive unlockable (st : state) (tree_id : string) (t : tree) : string → Prop :=
  | unlockable_root (n : node) :
      n ∈ nodes t →
      (∀ c, c ∈ connections t → to_node_id c ≠ n_id n) →
      unlockable st tree_id t (n_id n)
  | unlockable_all (x : string) (target : node) :
      find_node st tree_id x = Some target →
      logic_or_default target = "AND" →
      (∀ c, c ∈ connections t → to_node_id c = x →
            unlockable st tree_id t (from_node_id c)) →
      unlockable st tree_id t x
  | unlockable_any (x : string) (target : node) (c : connection) :
      find_node st tree_id x = Some target →
      logic_or_default target = "OR" ∨ logic_or_default target = "SUM" →
      c ∈ connections t →
      to_node_id c = x →
      unlockable st tree_id t (from_node_id c) →
      unlockable st tree_id t x.

(** Why [x] has not been added so far, given the ids whose outgoing
    connections have been [processed]: an AND node still has a source
    outside them, an OR or SUM node has all its sources outside them. *)
Definition blocked (t : tree) (processed : string → Prop) (x : string)
    (target : node) : Prop :=
  (logic_or_default target = "AND" →
   ∃ c, c ∈ connections t ∧ to_node_id c = x ∧ ¬ processed (from_node_id c))
  ∧ (logic_or_default target = "OR" ∨ logic_or_default target = "SUM" →
     ∀ c, c ∈ connections t → to_node_id c = x → ¬ processed (from_node_id c)).

(** The state of the breadth-first loop: [reachable] holds the ids of
    [queue], each of them can be unlocked, and every known id outside is
    blocked with respect to the first [head] entries of the queue. *)
Definition bfs_inv (st : state) (tree_id : string) (t : tree) (head : nat)
    (reachable : gset string) (queue : list string) : Prop :=
  (∀ x, x ∈ reachable ↔ x ∈ queue)
  ∧ (∀ y, y ∈ reachable → unlockable st tree_id t y)
  ∧ ∀ x target, find_node st tree_id x = Some target → x ∉ reachable →
                blocked t (λ y, y ∈ take head queue) x target.

(** ** Vocabulary of the play-mode invariant *)

(** Every node of the tree that holds a rank has its prerequisites
    satisfied. *)
Definition play_consistent (st : state) (tree_id : string) : Prop :=
  ∀ t n, find_tree st tree_id = Some t → n ∈ nodes t → 0 < current_rank n →
         check_prerequisites st tree_id (n_id n) = true.

(** [st'] differs from [st], as far as the tree [tree_id] and the
    prerequisite evaluator are concerned, only in that ranks may be
    higher. *)
Definition ranks_grow (st st' : state) (tree_id : string) : Prop :=
  (∃ t t', find_tree st tree_id = Some t
           ∧ find_tree st' tree_id = Some t'
           ∧ connections t' = connections t)
  ∧ ∀ x, match find_node st tree_id x, find_node st' tree_id x with
         | Some n, Some n' =>
             prerequisite_logic n' = prerequisite_logic n
             ∧ prerequisite_threshold n' = prerequisite_threshold n
             ∧ current_rank n ≤ current_rank n'
         | None, None => True
         | _, _ => False
         end.

(** ** Tree and node editing actions ([actions.js], [state.js])

    As in the records above, only the fields the engine reads are kept:
    names, descriptions, positions, icons, tags and types are left out,
    and the values an action is handed are taken to have the type of the
    field they are stored in. *)

Definition create_tree (id : string) : tree :=
  mk_tree id (mk_point_pool 20 (Num 0)) [] [].

Definition create_node (id : string) : node := mk_node id 1 0 [1] "AND" 1.

Record tree_options : Type := mk_tree_options {
  opt_total_points : option Z      (* [Some] when [typeof ... === "number"] *)
}.

(** [new_id] is the identifier [generate_id("tree")] returns. *)
Definition add_tree (now new_id : string) (s : session) (options : tree_options)
    : session :=
  let new_state := touch_modified now (clone_state (engine_state s)) in
  let tree0 := create_tree new_id in
  let tree1 :=
    match opt_total_points options with
    | Some p => mk_tree (t_id tree0) (mk_point_pool p (spent (point_pool tree0)))
                        (nodes tree0) (connections tree0)
    | None => tree0
    end in
  let trees' := trees new_state ++ [tree1] in
  mk_session (set_trees new_state trees')
             (if decide (length trees' = 1%nat) then Some new_id else active_tree_id s)
             (selected_node_id s).

(** [trees[0]?.id || null]: an empty id counts as none. *)
Definition first_tree_id (ts : list tree) : option string :=
  match ts with
  | t0 :: _ => if decide (t_id t0 = "") then None else Some (t_id t0)
  | [] => None
  end.

Definition remove_tree (now : string) (s : session) (tree_id : string) : session :=
  let new_state := touch_modified now (clone_state (engine_state s)) in
  match list_find (λ t, t_id t = tree_id) (trees new_state) with
  | None => s
  | Some (index, _) =>
      let trees' := delete index (trees new_state) in
      if decide (active_tree_id s = Some tree_id)
      then mk_session (set_trees new_state trees') (first_tree_id trees') None
      else mk_session (set_trees new_state trees') (active_tree_id s)
                      (selected_node_id s)
  end.

Record tree_changes : Type := mk_tree_changes {
  chg_total_points : option Z      (* [None] when [undefined] *)
}.

Definition update_tree (now : string) (st : state) (tree_id : string)
    (changes : tree_changes) : state :=
  let new_state := touch_modified now (clone_state st) in
  match list_find (λ t, t_id t = tree_id) (trees new_state) with
  | None => st
  | Some (index, t) =>
      let t' :=
        match chg_total_points changes with
        | Some p => mk_tree (t_id t) (mk_point_pool p (spent (point_pool t)))
                            (nodes t) (connections t)
        | None => t
        end in
      set_trees new_state (<[index := t']> (trees new_state))
  end.

Record node_options : Type := mk_node_options {
  opt_max_rank : option Z;               (* [Some] when [typeof ... === "number"] *)
  opt_cost_per_rank : option (list Z)    (* [Some] when [Array.isArray(...)] *)
}.

(** [new_id] is the identifier [generate_id("node")] returns. *)
Definition add_node (now new_id : string) (st : state) (tree_id : string)
    (options : node_options) : state :=
  let new_state := touch_modified now (clone_state st) in
  match list_find (λ t, t_id t = tree_id) (trees new_state) with
  | None => st
  | Some (tree_index, t) =>
      let node0 := create_node new_id in
      let node1 :=
        match opt_max_rank options with
        | Some m => mk_node (n_id node0) m (current_rank node0) (cost_per_rank node0)
                            (prerequisite_logic node0) (prerequisite_threshold node0)
        | None => node0
        end in
      let node2 :=
        match opt_cost_per_rank options with
        | Some costs => mk_node (n_id node1) (max_rank node1) (current_rank node1) costs
                                (prerequisite_logic node1) (prerequisite_threshold node1)
        | None => node1
        end in
      set_trees new_state (<[tree_index := set_nodes t (nodes t ++ [node2])]>
                             (trees new_state))
  end.

(** The [allowed_keys] of [update_node] that the engine reads; [None]
    stands for [undefined]. *)
Record node_changes : Type := mk_node_changes {
  chg_max_rank : option Z;
  chg_cost_per_rank : option (list Z);
  chg_prerequisite_logic : option string;
  chg_prerequisite_threshold : option Z
}.

Definition update_node (now : string) (st : state) (tree_id node_id : string)
    (changes : node_changes) : state :=
  let new_state := touch_modified now (clone_state st) in
  match list_find (λ t, t_id t = tree_id) (trees new_state) with
  | None => st
  | Some (tree_index, t) =>
      match list_find (λ n, n_id n = node_id) (nodes t) with
      | None => st
      | Some (node_index, n) =>
          let n' :=
            mk_node (n_id n)
                    (default (max_rank n) (chg_max_rank changes))
                    (current_rank n)
                    (default (cost_per_rank n) (chg_cost_per_rank changes))
                    (default (prerequisite_logic n) (chg_prerequisite_logic changes))
                    (default (prerequisite_threshold n)
                             (chg_prerequisite_threshold changes)) in
          set_trees new_state
            (<[tree_index := set_nodes t (<[node_index := n']> (nodes t))]>
               (trees new_state))
      end
  end.

Record connection_changes : Type := mk_connection_changes {
  chg_logic : option string;
  chg_required_rank : option Z     (* [Some] when [typeof ... === "number"] *)
}.

Definition update_connection (now : string) (st : state)
    (tree_id connection_id : string) (changes : connection_changes) : state :=
  let new_state := touch_modified now (clone_state st) in
  match list_find (λ t, t_id t = tree_id) (trees new_state) with
  | None => st
  | Some (tree_index, t) =>
      match list_find (λ c, c_id c = connection_id) (connections t) with
      | None => st
      | Some (conn_index, c) =>
          let c1 :=
            if bool_decide (chg_logic changes = Some "AND")
               || bool_decide (chg_logic changes = Some "OR")
            then mk_connection (c_id c) (from_node_id c) (to_node_id c)
                               (required_rank c) (chg_logic changes)
            else c in
          let c2 :=
            match chg_required_rank changes with
            | Some r => mk_connection (c_id c1) (from_node_id c1) (to_node_id c1)
                                      r (logic c1)
            | None => c1
            end in
          set_trees new_state
            (<[tree_index := set_connections t (<[conn_index := c2]> (connections t))]>
               (trees new_state))
      end
  end.

(** ** Dispatching actions ([main.js])

    [dispatch(action_fn, ...args)] replaces the application state by
    [action_fn(app_state, ...args)].  The actions that change the project
    are collected in one type; [perform] is one dispatch, [dispatch_all] a
    sequence of them. *)
Inductive action : Type :=
  | AddTree (now new_id : string) (options : tree_options)
  | RemoveTree (now tree_id : string)
  | UpdateTree (now tree_id : string) (changes : tree_changes)
  | AddNode (now new_id tree_id : string) (options : node_options)
  | RemoveNode (now tree_id node_id : string)
  | UpdateNode (now tree_id node_id : string) (changes : node_changes)
  | AllocatePoint (now tree_id node_id : string)
  | RefundPoint (now tree_id node_id : string)
  | ResetTree (now tree_id : string)
  | AddConnection (now new_id tree_id : string) (options : connection_options)
  | RemoveConnection (now tree_id connection_id : string)
  | UpdateConnection (now tree_id connection_id : string) (changes : connection_changes).

Definition on_engine (f : state → state) (s : session) : session :=
  mk_session (f (engine_state s)) (active_tree_id s) (selected_node_id s).

Definition perform (a : action) (s : session) : option session :=
  match a with
  | AddTree now new_id options => Some (add_tree now new_id s options)
  | RemoveTree now tree_id => Some (remove_tree now s tree_id)
  | UpdateTree now tree_id changes =>
      Some (on_engine (λ st, update_tree now st tree_id changes) s)
  | AddNode now new_id tree_id options =>
      Some (on_engine (λ st, add_node now new_id st tree_id options) s)
  | RemoveNode now tree_id node_id => Some (remove_node now s tree_id node_id)
  | UpdateNode now tree_id node_id changes =>
      Some (on_engine (λ st, update_node now st tree_id node_id changes) s)
  | AllocatePoint now tree_id node_id =>
      Some (on_engine (λ st, allocate_point now st tree_id node_id) s)
  | RefundPoint now tree_id node_id =>
      match refund_point now (engine_state s) tree_id node_id with
      | Some st' => Some (on_engine (λ _, st') s)
      | None => None
      end
  | ResetTree now tree_id => Some (on_engine (λ st, reset_tree now st tree_id) s)
  | AddConnection now new_id tree_id options =>
      Some (on_engine (λ st, add_connection now new_id st tree_id options) s)
  | RemoveConnection now tree_id connection_id =>
      Some (on_engine (λ st, remove_connection now st tree_id connection_id) s)
  | UpdateConnection now tree_id connection_id changes =>
      Some (on_engine (λ st, update_connection now st tree_id connection_id changes) s)
  end.

Fixpoint dispatch_all (acts : list action) (s : session) : option session :=
  match acts with
  | [] => Some s
  | a :: rest =>
      match perform a s with
      | Some s' => dispatch_all rest s'
      | None => None
      end
  end.

(** ** Vocabulary of the project invariants *)

(** There is a chain of connections from [x] to [y] (of length 0 when
    they coincide). *)
Definition connected (t : tree) (x y : string) : Prop :=
  ∃ chain, head chain = Some x ∧ last chain = Some y
           ∧ ∀ i a b, chain !! i = Some a → chain !! S i = Some b → edge t a b.

(** What [validate_state] accepts. *)
Definition project_sound (st : state) : Prop :=
  NoDup (t_id <$> trees st) ∧ ∀ t, t ∈ trees st → tree_sound t.

(** What the caller of an action has to see to: a generated id is new,
    and a new connection does not close a ring. *)
Definition action_safe (a : action) (s : session) : Prop :=
  match a with
  | AddTree _ new_id _ => new_id ∉ (t_id <$> trees (engine_state s))
  | AddNode _ new_id tree_id _ =>
      ∀ t, find_tree (engine_state s) tree_id = Some t → new_id ∉ (n_id <$> nodes t)
  | AddConnection _ _ tree_id options =>
      ∀ t, find_tree (engine_state s) tree_id = Some t →
           ¬ connected t (opt_to_node_id options) (opt_from_node_id options)
  | _ => True
  end.

Fixpoint actions_safe (acts : list action) (s : session) : Prop :=
  match acts with
  | [] => True
  | a :: rest =>
      action_safe a s ∧ ∀ s', perform a s = Some s' → actions_safe rest s'
  end.


(** A short editing run on [connected_tree]: a node is added and linked
    behind B, a point goes to A, the selected node is removed. *)
Definition example_actions : list action :=
  [AddNode "d1" "N" "t" (mk_node_options (Some 3) None);
   AddConnection "d2" "c9" "t" (mk_connection_options "B" "N" None None);
   AllocatePoint "d3" "t" "A";
   RemoveNode "d4" "t" "A"].

(** * Properties *)

(** ** The prerequisite evaluator is total *)

Section evaluator_totality.
Context (st : state) (tree_id : string).

Lemma every_opt_ext {A} (f g : A → option bool) (l : list A) :
  (∀ x, x ∈ l → f x = g x) → every_opt f l = every_opt g l.
Proof.
  induction l as [|x l IH]; intros Hfg; [done|].
  simpl. rewrite <- (Hfg x) by left.
  destruct (f x) as [[]|]; try done.
  apply IH. intros y Hy. apply Hfg. by right.
Qed.

Lemma some_opt_ext {A} (f g : A → option bool) (l : list A) :
  (∀ x, x ∈ l → f x = g x) → some_opt f l = some_opt g l.
Proof.
  induction l as [|x l IH]; intros Hfg; [done|].
  simpl. rewrite <- (Hfg x) by left.
  destruct (f x) as [[]|]; try done.
  apply IH. intros y Hy. apply Hfg. by right.
Qed.

Lemma every_opt_is_Some {A} (f : A → option bool) (l : list A) :
  (∀ x, x ∈ l → is_Some (f x)) → is_Some (every_opt f l).
Proof.
  induction l as [|x l IH]; intros Hf; [by eexists|].
  simpl. destruct (Hf x) as [[] ->]; [left| |by eexists].
  apply IH. intros y Hy. apply Hf. by right.
Qed.

Lemma some_opt_is_Some {A} (f : A → option bool) (l : list A) :
  (∀ x, x ∈ l → is_Some (f x)) → is_Some (some_opt f l).
Proof.
  induction l as [|x l IH]; intros Hf; [by eexists|].
  simpl. destruct (Hf x) as [[] ->]; [left|by eexists|].
  apply IH. intros y Hy. apply Hf. by right.
Qed.

(** A SUM node is decided without asking any connection. *)
Lemma check_prerequisites_fuel_SUM (k : nat) (node_id : string) (n : node) :
  find_node st tree_id node_id = Some n →
  prerequisite_logic n = "SUM" →
  check_prerequisites_fuel (S k) st tree_id node_id
    = check_prerequisites_fuel 1 st tree_id node_id
  ∧ is_Some (check_prerequisites_fuel 1 st tree_id node_id).
Proof.
  intros Hn Hsum. simpl. unfold find_node in Hn.
  destruct (find_tree st tree_id) as [t|] eqn:Ht; [|done].
  case_decide; [by eauto|].
  unfold find_node. rewrite Ht, Hn.
  unfold logic_or_default. rewrite Hsum. simpl. by eauto.
Qed.

Lemma is_connection_satisfied_fuel_enough (k : nat) (conn : connection) :
  is_connection_satisfied_fuel (S (S k)) st tree_id conn
    = is_connection_satisfied_fuel 2 st tree_id conn
  ∧ is_Some (is_connection_satisfied_fuel 2 st tree_id conn).
Proof.
  cbn [is_connection_satisfied_fuel].
  destruct (find_node st tree_id (to_node_id conn)) as [to_node|] eqn:Hto;
    [|by eauto].
  destruct (find_node st tree_id (from_node_id conn)); [|by eauto].
  case_decide as Hsum; [|by eauto].
  destruct (check_prerequisites_fuel_SUM k _ _ Hto Hsum) as [-> ?]. done.
Qed.

Lemma check_prerequisites_fuel_enough (k : nat) (node_id : string) :
  check_prerequisites_fuel (S (S (S k))) st tree_id node_id
    = Some (check_prerequisites st tree_id node_id).
Proof.
  assert (is_Some (check_prerequisites_fuel 3 st tree_id node_id)
          ∧ check_prerequisites_fuel (S (S (S k))) st tree_id node_id
            = check_prerequisites_fuel 3 st tree_id node_id) as [[b Hb] Heq].
  { cbn [check_prerequisites_fuel].
    destruct (find_tree st tree_id); [|by eauto].
    case_decide; [by eauto|].
    destruct (find_node st tree_id node_id); [|by eauto].
    repeat case_decide; try by eauto.
    - split.
      + apply every_opt_is_Some. intros c _.
        apply is_connection_satisfied_fuel_enough; exact O.
      + apply every_opt_ext. intros c _.
        apply is_connection_satisfied_fuel_enough.
    - split.
      + apply some_opt_is_Some. intros c _.
        apply is_connection_satisfied_fuel_enough; exact O.
      + apply some_opt_ext. intros c _.
        apply is_connection_satisfied_fuel_enough. }
  rewrite Heq. unfold check_prerequisites. by rewrite Hb.
Qed.

Lemma is_connection_satisfied_fuel_total (k : nat) (conn : connection) :
  is_connection_satisfied_fuel (S (S k)) st tree_id conn
    = Some (is_connection_satisfied st tree_id conn).
Proof.
  destruct (is_connection_satisfied_fuel_enough k conn) as [-> [b Hb]].
  unfold is_connection_satisfied.
  destruct (is_connection_satisfied_fuel_enough 1 conn) as [-> _].
  by rewrite Hb.
Qed.
End evaluator_totality.

(** ** Allocation: what [allocate_point] rejects *)

(** C1, as the code has it.  Whenever [can_allocate_point] answers
    [can_allocate = false], [allocate_point] returns its input state
    itself, provided the state is in edit mode or the node's status is not
    LOCKED.  [allocate_point] never evaluates prerequisites: it rejects a
    missing tree or node, a rank at [max_rank] and a budget below the next
    rank's cost, and nothing else. *)
Theorem allocate_point_rejected (now : string) (st : state) (tree_id node_id : string) :
  can_allocate (can_allocate_point st tree_id node_id) = false →
  mode st = "edit" ∨ get_node_status st tree_id node_id ≠ LOCKED →
  allocate_point now st tree_id node_id = st.
Proof.
  intros Hcan Hmode.
  unfold allocate_point, can_allocate_point, get_node_status in *.
  unfold find_node, find_tree, get_allocation_cost in *.
  unfold touch_modified, clone_state in *. cbn [trees] in *.
  destruct (list_find (λ t, t_id t = tree_id) (trees st)) as [[tree_index t]|];
    [|done].
  cbn [fmap option_fmap option_map snd] in *.
  destruct (list_find (λ n, n_id n = node_id) (nodes t)) as [[node_index n]|];
    [|done].
  cbn [fmap option_fmap option_map snd] in *.
  destruct (max_rank n <=? current_rank n) eqn:Hmax; [done|].
  destruct (js_lt _ (js_index _ _)) eqn:Hlt; [done|].
  exfalso.
  destruct (decide (mode st = "edit")) as [Hedit|Hplay].
  - done.
  - destruct Hmode as [?|Hstatus]; [done|].
    destruct (check_prerequisites st tree_id node_id); cbn [negb] in *; [|done].
    repeat case_decide; done.
Qed.

Lemma allocate_point_rejected_witness :
  can_allocate (can_allocate_point (example_state "edit"
     (mk_tree "t" (mk_point_pool 0 (Num 0)) [example_node "A" 0] [])) "t" "A") = false
  ∧ allocate_point "2024-01-02" (example_state "edit"
     (mk_tree "t" (mk_point_pool 0 (Num 0)) [example_node "A" 0] [])) "t" "A"
    = example_state "edit"
     (mk_tree "t" (mk_point_pool 0 (Num 0)) [example_node "A" 0] []).
Proof.
  split; [reflexivity|].
  apply allocate_point_rejected; [reflexivity|left; reflexivity].
Defined.

(** C1 as stated fails: in play mode the locked node B of [locked_tree] is
    refused by [can_allocate_point], yet [allocate_point] raises its rank
    and charges the pool. *)
Lemma allocate_point_locked_not_rejected :
  let st := example_state "play" locked_tree in
  can_allocate (can_allocate_point st "t" "B") = false
  ∧ get_node_status st "t" "B" = LOCKED
  ∧ allocate_point "2024-01-02" st "t" "B" ≠ st
  ∧ (current_rank <$> find_node (allocate_point "2024-01-02" st "t" "B") "t" "B")
      = Some 1
  ∧ (spent ∘ point_pool <$> find_tree (allocate_point "2024-01-02" st "t" "B") "t")
      = Some (Num 1).
Proof. vm_compute. repeat split; congruence. Qed.

(** ** SUM prerequisites *)

Lemma sum_source_ranks_Zsum (st : state) (tree_id : string)
    (incoming : list connection) :
  sum_source_ranks st tree_id incoming
    = Zsum (existing_source_ranks st tree_id incoming).
Proof.
  unfold sum_source_ranks, existing_source_ranks.
  assert (∀ acc,
    foldl (λ total_rank conn,
             match find_node st tree_id (from_node_id conn) with
             | Some from_node => total_rank + current_rank from_node
             | None => total_rank
             end) acc incoming
    = acc + Zsum (current_rank <$>
                    omap (λ c, find_node st tree_id (from_node_id c)) incoming))
    as Hgen.
  { induction incoming as [|c l IH]; intros acc; [simpl; lia|].
    cbn [foldl]. rewrite IH. csimpl.
    destruct (find_node st tree_id (from_node_id c)); csimpl; lia. }
  rewrite Hgen. lia.
Qed.

Section required_rank_irrelevant.
Context (f : connection → Z).

Lemma find_tree_with_required_ranks (st : state) (tree_id : string) :
  find_tree (with_required_ranks f st) tree_id
    = (λ t, set_connections t (with_required_rank f <$> connections t))
        <$> find_tree st tree_id.
Proof.
  unfold find_tree, with_required_ranks. cbn [set_trees trees].
  rewrite list_find_fmap.
  rewrite (list_find_ext _ (λ t, t_id t = tree_id)) by done.
  by destruct (list_find _ (trees st)) as [[i t]|].
Qed.

Lemma find_node_with_required_ranks (st : state) (tree_id node_id : string) :
  find_node (with_required_ranks f st) tree_id node_id
    = find_node st tree_id node_id.
Proof.
  unfold find_node. rewrite find_tree_with_required_ranks.
  by destruct (find_tree st tree_id).
Qed.

Lemma filter_with_required_rank (node_id : string) (cs : list connection) :
  filter (λ c, to_node_id c = node_id) (with_required_rank f <$> cs)
    = with_required_rank f <$> filter (λ c, to_node_id c = node_id) cs.
Proof.
  induction cs as [|c cs IH]; [done|].
  rewrite fmap_cons, !filter_cons. cbn [with_required_rank to_node_id].
  case_decide; by rewrite IH.
Qed.

Lemma sum_source_ranks_with_required_ranks (st : state) (tree_id : string)
    (cs : list connection) :
  sum_source_ranks (with_required_ranks f st) tree_id (with_required_rank f <$> cs)
    = sum_source_ranks st tree_id cs.
Proof.
  rewrite !sum_source_ranks_Zsum. unfold existing_source_ranks. f_equal. f_equal.
  induction cs as [|c cs IH]; [done|].
  rewrite fmap_cons. cbn [omap list_omap with_required_rank from_node_id].
  rewrite find_node_with_required_ranks.
  destruct (find_node st tree_id (from_node_id c)); by rewrite <- IH.
Qed.
End required_rank_irrelevant.

(** C4, as the code has it.  In a tree that exists, a node without incoming
    connections is satisfied.  For a SUM node with incoming connections,
    [check_prerequisites] holds exactly when the ranks of the existing
    source nodes add up to at least the effective threshold, which is
    [prerequisite_threshold] except that 0 counts as 1
    ([node.prerequisite_threshold || 1]); and the answer for a SUM node is
    the same whatever the connections' [required_rank]s are. *)
Theorem check_prerequisites_SUM (st : state) (tree_id node_id : string) (t : tree) :
  find_tree st tree_id = Some t →
  let incoming := filter (λ c, to_node_id c = node_id) (connections t) in
  (incoming = [] → check_prerequisites st tree_id node_id = true)
  ∧ (∀ n, find_node st tree_id node_id = Some n →
          prerequisite_logic n = "SUM" →
          (incoming ≠ [] →
           (check_prerequisites st tree_id node_id = true
            ↔ threshold_or_default n
                ≤ Zsum (existing_source_ranks st tree_id incoming)))
          ∧ (∀ f, check_prerequisites (with_required_ranks f st) tree_id node_id
                  = check_prerequisites st tree_id node_id)).
Proof.
  intros Ht incoming. split.
  - intros Hnil. unfold check_prerequisites. cbn [check_prerequisites_fuel].
    rewrite Ht. fold incoming. rewrite Hnil. done.
  - intros n Hn Hsum.
    assert (∀ st' t' inc',
      find_tree st' tree_id = Some t' →
      filter (λ c, to_node_id c = node_id) (connections t') = inc' →
      find_node st' tree_id node_id = Some n →
      check_prerequisites st' tree_id node_id
        = if decide (length inc' = 0%nat) then true
          else threshold_or_default n <=? sum_source_ranks st' tree_id inc')
      as Hshape.
    { intros st' t' inc' Ht' Hinc' Hn'.
      unfold check_prerequisites. cbn [check_prerequisites_fuel].
      rewrite Ht', Hinc', Hn'. case_decide; [done|].
      unfold logic_or_default. rewrite Hsum. done. }
    split.
    + intros Hne. rewrite (Hshape st t incoming Ht eq_refl Hn).
      case_decide as Hlen; [by destruct incoming|].
      rewrite sum_source_ranks_Zsum. apply Z.leb_le.
    + intros f.
      rewrite (Hshape st t incoming Ht eq_refl Hn).
      erewrite (Hshape (with_required_ranks f st)); cycle 1.
      * rewrite find_tree_with_required_ranks, Ht. done.
      * cbn [set_connections connections].
        apply filter_with_required_rank.
      * by rewrite find_node_with_required_ranks.
      * fold incoming. rewrite length_fmap.
        by rewrite sum_source_ranks_with_required_ranks.
Qed.

Lemma check_prerequisites_SUM_witness :
  check_prerequisites (example_state "play" (sum_three_tree 2)) "t" "C" = true
  ↔ 3 ≤ 2 + 1.
Proof.
  pose proof (check_prerequisites_SUM (example_state "play" (sum_three_tree 2))
                "t" "C" (sum_three_tree 2) eq_refl) as [_ H].
  destruct (H (mk_node "C" 1 0 [1] "SUM" 3) eq_refl eq_refl) as [Hiff _].
  apply Hiff. discriminate.
Defined.

(** C4 as stated fails for a threshold of 0: the source ranks add up to
    0 >= 0, yet the node is not satisfied. *)
Lemma check_prerequisites_SUM_zero_threshold :
  let st := example_state "play" sum_zero_tree in
  find_node st "t" "C" = Some (mk_node "C" 1 0 [1] "SUM" 0)
  ∧ existing_source_ranks st "t"
      (filter (λ c, to_node_id c = "C") (connections sum_zero_tree)) = [0; 0]
  ∧ prerequisite_threshold (mk_node "C" 1 0 [1] "SUM" 0) ≤ Zsum [0; 0]
  ∧ check_prerequisites st "t" "C" = false.
Proof. vm_compute. repeat split; congruence. Qed.

(** The SUM example of the specification: 2 + 1 >= 3 is satisfied, and
    refunding D to rank 1 makes it unsatisfied. *)
Example check_prerequisites_SUM_spec_example :
  let st := example_state "play" (sum_three_tree 2) in
  check_prerequisites st "t" "C" = true
  ∧ ∃ st', refund_point "2024-01-02" st "t" "D" = Some st'
           ∧ (current_rank <$> find_node st' "t" "D") = Some 1
           ∧ check_prerequisites st' "t" "C" = false.
Proof. split; [reflexivity|]. eexists. split; [vm_compute; reflexivity|]. by vm_compute. Qed.

(** ** Logic strings outside AND, OR and SUM *)

(** A node that exists and whose non-empty logic string is none of AND,
    OR and SUM makes [check_prerequisites] fall through to its final
    [return true], whatever the incoming connections are;
    [get_node_status] is then never LOCKED for such a node. *)
Theorem check_prerequisites_unknown_logic (st : state) (tree_id node_id : string)
    (n : node) :
  find_node st tree_id node_id = Some n →
  prerequisite_logic n ≠ "" →
  prerequisite_logic n ≠ "AND" →
  prerequisite_logic n ≠ "OR" →
  prerequisite_logic n ≠ "SUM" →
  check_prerequisites st tree_id node_id = true
  ∧ get_node_status st tree_id node_id ≠ LOCKED.
Proof.
  intros Hn H0 Hand Hor Hsum.
  assert (check_prerequisites st tree_id node_id = true) as Hcheck.
  { unfold check_prerequisites. cbn [check_prerequisites_fuel].
    pose proof Hn as Hn'. unfold find_node in Hn'.
    destruct (find_tree st tree_id); [|done].
    case_decide; [done|]. rewrite Hn.
    assert (logic_or_default n = prerequisite_logic n) as ->.
    { unfold logic_or_default. by rewrite decide_False. }
    by rewrite !decide_False by done. }
  split; [done|].
  unfold get_node_status. rewrite Hn, Hcheck.
  destruct (find_tree st tree_id); [|done].
  cbn [negb]. repeat case_decide; try done. by destruct (_ <=? _).
Qed.

Lemma check_prerequisites_unknown_logic_witness :
  check_prerequisites (example_state "play" malformed_logic_tree) "t" "B" = true
  ∧ get_node_status (example_state "play" malformed_logic_tree) "t" "B" ≠ LOCKED.
Proof.
  apply (check_prerequisites_unknown_logic _ _ _ (mk_node "B" 1 0 [1] "XOR" 1));
    [reflexivity|discriminate..].
Defined.

(** C5 at a concrete tree: B has the logic string XOR and one incoming
    connection from A, which holds no rank.  [check_prerequisites] does
    not answer false: B is reported satisfied and UNLOCKABLE, and a point
    may be allocated to it.  The same dispatch on the logic string in
    [check_tree_reachability] is conservative: there B is unreachable. *)
Lemma malformed_logic_is_satisfied :
  let st := example_state "play" malformed_logic_tree in
  filter (λ c, to_node_id c = "B") (connections malformed_logic_tree)
    = [example_edge "A" "B"]
  ∧ (current_rank <$> find_node st "t" "A") = Some 0
  ∧ check_prerequisites st "t" "B" = true
  ∧ get_node_status st "t" "B" = UNLOCKABLE
  ∧ can_allocate (can_allocate_point st "t" "B") = true
  ∧ check_tree_reachability st "t" = ReachDone ["B"].
Proof. vm_compute. repeat split; congruence. Qed.

(** ** The cascade resolver *)


Lemma Zsum_insert (l : list Z) (i : nat) (x y : Z) :
  l !! i = Some x → Zsum (<[i := y]> l) = Zsum l - x + y.
Proof.
  revert i. induction l as [|z l IH]; intros [|i] Hi; simplify_eq/=.
  - unfold Zsum. simpl. lia.
  - specialize (IH _ Hi). unfold Zsum in *. simpl. lia.
Qed.

Section cascade.
Context (tree_id : string) (tree_index : nat).

(** Induction over the resets a pass performs. *)
Lemma cascade_pass_ind (P : state → bool → Prop) :
  (∀ st ch t i n,
      P st ch →
      trees st !! tree_index = Some t →
      nodes t !! i = Some n →
      0 < current_rank n →
      check_prerequisites st tree_id (n_id n) = false →
      P (cascade_reset st tree_index t i n) true) →
  ∀ todo i st ch,
    P st ch →
    P (cascade_pass todo i tree_id tree_index st ch).1
      (cascade_pass todo i tree_id tree_index st ch).2.
Proof.
  intros Hstep. induction todo as [|todo IH]; intros i st ch HP; [done|].
  cbn [cascade_pass].
  destruct (trees st !! tree_index) as [t|] eqn:Ht; [|done].
  destruct (nodes t !! i) as [n|] eqn:Hn; [|done].
  destruct (0 <? current_rank n) eqn:Hrank; cbn [andb]; [|by apply IH].
  destruct (check_prerequisites st tree_id (n_id n)) eqn:Hcheck;
    cbn [negb]; [by apply IH|].
  apply IH. eapply Hstep; eauto. by apply Z.ltb_lt.
Qed.

Lemma cascade_pass_flag (todo i : nat) (st : state) :
  (cascade_pass todo i tree_id tree_index st true).2 = true.
Proof.
  apply (cascade_pass_ind (λ _ ch, ch = true)); done.
Qed.

(** A pass that reports no change has changed nothing, and has found
    every ranked node it visited satisfied. *)
Lemma cascade_pass_unchanged (todo i : nat) (st : state) :
  (cascade_pass todo i tree_id tree_index st false).2 = false →
  (cascade_pass todo i tree_id tree_index st false).1 = st
  ∧ ∀ t j n,
      trees st !! tree_index = Some t →
      (i ≤ j < i + todo)%nat →
      nodes t !! j = Some n →
      0 < current_rank n →
      check_prerequisites st tree_id (n_id n) = true.
Proof.
  revert i. induction todo as [|todo IH]; intros i; cbn [cascade_pass].
  { intros _. split; [done|]. intros; lia. }
  destruct (trees st !! tree_index) as [t|] eqn:Ht; [|by intros _; split].
  destruct (nodes t !! i) as [n|] eqn:Hn.
  2:{ intros _. split; [done|]. intros t' j n' [= <-] Hj Hn' _.
      apply lookup_ge_None in Hn. apply lookup_lt_Some in Hn'. lia. }
  destruct ((0 <? current_rank n)
            && negb (check_prerequisites st tree_id (n_id n))) eqn:Hreset.
  { by rewrite cascade_pass_flag. }
  intros Hflag. destruct (IH _ Hflag) as [Hst Hrest]. split; [done|].
  intros t' j n' [= <-] Hj Hn' Hpos.
  destruct (decide (j = i)) as [->|Hne].
  - rewrite Hn in Hn'. injection Hn' as <-.
    apply andb_false_iff in Hreset as [Hr|Hc].
    + apply Z.ltb_ge in Hr. lia.
    + by apply negb_false_iff in Hc.
  - apply (Hrest t j n'); [done|lia|done..].
Qed.

(** What one reset does to the tree it touches. *)
Lemma cascade_reset_lookup (st : state) (t : tree) (i : nat) (n : node) :
  trees st !! tree_index = Some t →
  trees (cascade_reset st tree_index t i n) !! tree_index
    = Some (set_spent (set_nodes t (<[i := set_current_rank n 0]> (nodes t)))
                      (refund_all_ranks n (spent (point_pool t)))).
Proof.
  intros Ht. unfold cascade_reset. cbn [set_trees trees].
  apply list_lookup_insert_eq. by eapply lookup_lt_Some.
Qed.

Lemma allocated_nodes_reset (l : list node) (i : nat) (n : node) :
  l !! i = Some n →
  0 < current_rank n →
  S (length (filter (λ m, 0 < current_rank m) (<[i := set_current_rank n 0]> l)))
    = length (filter (λ m, 0 < current_rank m) l).
Proof.
  revert i. induction l as [|m l IH]; intros [|i] Hi Hpos; simplify_eq/=.
  - rewrite (filter_cons_True _ n) by done.
    rewrite (filter_cons_False _ (set_current_rank n 0)) by (cbn; lia). done.
  - rewrite !filter_cons. specialize (IH _ Hi Hpos).
    case_decide; simpl; lia.
Qed.

Lemma total_rank_reset (l : list node) (i : nat) (n : node) :
  l !! i = Some n →
  Zsum (current_rank <$> <[i := set_current_rank n 0]> l)
    = Zsum (current_rank <$> l) - current_rank n.
Proof.
  intros Hi. rewrite list_fmap_insert.
  erewrite Zsum_insert by (by rewrite list_lookup_fmap, Hi). cbn. lia.
Qed.

(** A pass never raises a measure that every reset lowers, and lowers
    it as soon as it reports a change. *)
Local Abbreviation tree_measure := (tree_measure tree_index).

Lemma cascade_pass_decreases (f : tree → Z) :
  (∀ t i n, nodes t !! i = Some n → 0 < current_rank n →
     ∀ s, f (set_spent (set_nodes t (<[i := set_current_rank n 0]> (nodes t))) s)
          < f t) →
  ∀ st,
    let r := full_pass tree_id tree_index st in
    tree_measure f r.1 ≤ tree_measure f st
    ∧ (r.2 = true → tree_measure f r.1 < tree_measure f st).
Proof.
  intros Hf st r. subst r. unfold full_pass.
  apply (cascade_pass_ind
           (λ st' ch, tree_measure f st' ≤ tree_measure f st
                      ∧ (ch = true → tree_measure f st' < tree_measure f st))).
  - intros st' ch t i n [Hle _] Ht Hn Hpos _.
    assert (tree_measure f (cascade_reset st' tree_index t i n)
            < tree_measure f st') as Hlt.
    { unfold tree_measure at 1. rewrite (cascade_reset_lookup _ _ _ _ Ht).
      unfold tree_measure. rewrite Ht. by apply Hf. }
    split; [lia|intros _; lia].
  - split; [lia|done].
Qed.
End cascade.

Section cascade_loop.
Context (tree_id : string) (tree_index : nat).

Local Abbreviation full_pass := (full_pass tree_id tree_index).
Local Abbreviation pass_length := (pass_length tree_index).

Lemma cascade_loop_unfold (fuel : nat) (st : state) :
  cascade_loop (S fuel) tree_id tree_index st
    = if (full_pass st).2
      then cascade_loop fuel tree_id tree_index (full_pass st).1
      else Some (full_pass st).1.
Proof.
  cbn [cascade_loop]. unfold full_pass, pass_length.
  by destruct (cascade_pass _ _ _ _ _ _).
Qed.

(** Induction over all the resets of all the passes of a run. *)
Lemma cascade_loop_ind (P : state → Prop) :
  (∀ st t i n,
      P st →
      trees st !! tree_index = Some t →
      nodes t !! i = Some n →
      0 < current_rank n →
      check_prerequisites st tree_id (n_id n) = false →
      P (cascade_reset st tree_index t i n)) →
  ∀ fuel st st',
    cascade_loop fuel tree_id tree_index st = Some st' → P st → P st'.
Proof.
  intros Hstep. induction fuel as [|fuel IH]; intros st st' Hloop HP; [done|].
  rewrite cascade_loop_unfold in Hloop.
  assert (P (full_pass st).1) as HP'.
  { apply (cascade_pass_ind tree_id tree_index (λ s _, P s)); eauto. }
  destruct (full_pass st).2; [by eapply IH|]. by injection Hloop as <-.
Qed.

Lemma full_pass_allocated (st : state) :
  (tree_measure tree_index (λ t, Z.of_nat (allocated_nodes t)) (full_pass st).1
   ≤ tree_measure tree_index (λ t, Z.of_nat (allocated_nodes t)) st)
  ∧ ((full_pass st).2 = true →
     tree_measure tree_index (λ t, Z.of_nat (allocated_nodes t)) (full_pass st).1
     < tree_measure tree_index (λ t, Z.of_nat (allocated_nodes t)) st).
Proof.
  apply (cascade_pass_decreases tree_id tree_index
           (λ t, Z.of_nat (allocated_nodes t))).
  intros t i n Hn Hpos s. unfold allocated_nodes. cbn [set_spent set_nodes nodes].
  pose proof (allocated_nodes_reset (nodes t) i n Hn Hpos). lia.
Qed.

(** The loop ends: a run of [fuel] passes returns as soon as [fuel]
    exceeds the number of nodes that hold a rank. *)
Lemma cascade_loop_total (fuel : nat) (st : state) :
  tree_measure tree_index (λ t, Z.of_nat (allocated_nodes t)) st < Z.of_nat fuel →
  is_Some (cascade_loop fuel tree_id tree_index st).
Proof.
  revert st. induction fuel as [|fuel IH]; intros st Hlt.
  { unfold tree_measure in Hlt. destruct (trees st !! tree_index); lia. }
  rewrite cascade_loop_unfold.
  destruct (full_pass_allocated st) as [_ Hdec].
  destruct (full_pass st).2; [|by eexists].
  apply IH. specialize (Hdec eq_refl). lia.
Qed.

Lemma cascade_loop_more_fuel (fuel k : nat) (st st' : state) :
  cascade_loop fuel tree_id tree_index st = Some st' →
  cascade_loop (fuel + k) tree_id tree_index st = Some st'.
Proof.
  revert st. induction fuel as [|fuel IH]; intros st Hloop; [done|].
  rewrite Nat.add_succ_l, cascade_loop_unfold.
  rewrite cascade_loop_unfold in Hloop.
  destruct (full_pass st).2; [by apply IH|done].
Qed.

(** The state a run returns is one on which a further pass changes
    nothing: the [while] condition was false there. *)
Lemma cascade_loop_stable (fuel : nat) (st st' : state) :
  cascade_loop fuel tree_id tree_index st = Some st' →
  full_pass st' = (st', false).
Proof.
  revert st. induction fuel as [|fuel IH]; intros st Hloop; [done|].
  rewrite cascade_loop_unfold in Hloop.
  destruct (full_pass st).2 eqn:Hflag; [by eapply IH|].
  injection Hloop as <-.
  destruct (cascade_pass_unchanged tree_id tree_index _ _ _ Hflag) as [Hst _].
  fold (full_pass st) in Hst. rewrite Hst.
  apply injective_projections; [done|]. cbn. by rewrite <- Hflag.
Qed.

(** At the returned state every node of the tree that holds a rank has
    its prerequisites satisfied. *)
Lemma cascade_loop_fixpoint (fuel : nat) (st st' : state) (t' : tree) (n : node) :
  cascade_loop fuel tree_id tree_index st = Some st' →
  trees st' !! tree_index = Some t' →
  n ∈ nodes t' →
  0 < current_rank n →
  check_prerequisites st' tree_id (n_id n) = true.
Proof.
  intros Hloop Ht' Hin Hpos.
  pose proof (cascade_loop_stable _ _ _ Hloop) as Hstable.
  assert ((full_pass st').2 = false) as Hflag by by rewrite Hstable.
  destruct (cascade_pass_unchanged tree_id tree_index _ _ _ Hflag) as [_ Hall].
  apply list_elem_of_lookup in Hin as [j Hj].
  apply (Hall t' j n); [done| |done..].
  unfold pass_length. rewrite Ht'. apply lookup_lt_Some in Hj. lia.
Qed.
End cascade_loop.

Lemma list_find_insert_same {A} (P : A → Prop) `{!∀ x, Decision (P x)}
    (l : list A) (i : nat) (x y : A) :
  list_find P l = Some (i, x) → P y → list_find P (<[i := y]> l) = Some (i, y).
Proof.
  intros (Hi & HP & Hleast)%list_find_Some Hy.
  apply list_find_insert_Some. right; left.
  split_and!; [done..|by eapply lookup_lt_Some|done|done].
Qed.

Lemma Zsum_nonneg (l : list Z) : Forall (λ x, 0 ≤ x) l → 0 ≤ Zsum l.
Proof. induction 1; unfold Zsum in *; simpl; lia. Qed.

Lemma allocated_nodes_le (t : tree) : (allocated_nodes t ≤ length (nodes t))%nat.
Proof. apply length_filter. Qed.

Lemma apply_cascade_refunds_total (st : state) (tree_id : string) :
  is_Some (apply_cascade_refunds st tree_id).
Proof.
  unfold apply_cascade_refunds.
  destruct (list_find _ (trees st)) as [[tree_index t]|] eqn:Hfind; [|by eexists].
  apply list_find_Some in Hfind as (Ht & _ & _).
  apply cascade_loop_total. unfold tree_measure. rewrite Ht.
  pose proof (allocated_nodes_le t). lia.
Qed.

Lemma refund_point_total (now : string) (st : state) (tree_id node_id : string) :
  is_Some (refund_point now st tree_id node_id).
Proof.
  unfold refund_point.
  destruct (negb _); [by eexists|].
  destruct (list_find _ _) as [[i t]|]; [|by eexists].
  destruct (list_find _ _) as [[j n]|]; [|by eexists].
  destruct (_ <=? _); [by eexists|].
  destruct (_ || _); [|by eexists].
  apply apply_cascade_refunds_total.
Qed.

(** The tree a cascade works on stays the first one with its id. *)
Lemma cascade_loop_list_find (tree_id : string) (tree_index fuel : nat)
    (st st' : state) (t : tree) :
  list_find (λ t, t_id t = tree_id) (trees st) = Some (tree_index, t) →
  cascade_loop fuel tree_id tree_index st = Some st' →
  ∃ t', list_find (λ t, t_id t = tree_id) (trees st') = Some (tree_index, t')
        ∧ length (nodes t') = length (nodes t)
        ∧ connections t' = connections t.
Proof.
  intros Hfind Hloop.
  apply (cascade_loop_ind tree_id tree_index
           (λ s, ∃ t', list_find (λ t, t_id t = tree_id) (trees s) = Some (tree_index, t')
                       ∧ length (nodes t') = length (nodes t)
                       ∧ connections t' = connections t)
           ) with (fuel := fuel) (st := st); [|done|by eauto].
  intros s t1 i n (t' & Hfind' & Hlen & Hconn) Ht1 Hn _ _.
  pose proof Hfind' as (Ht' & Hid & _)%list_find_Some.
  rewrite Ht1 in Ht'. injection Ht' as ->.
  eexists. split; [|split].
  - unfold cascade_reset. cbn [set_trees trees].
    eapply list_find_insert_same; [done|]. done.
  - cbn. by rewrite length_insert.
  - done.
Qed.

(** C7.  The cascade's fixpoint loop terminates.  [apply_cascade_refunds]
    always returns a state; it is reached within the passes the model
    allows, and allowing more passes changes nothing.  Each pass over the
    nodes of a tree either reports no change, leaves the state as it was
    and ends the loop, or strictly lowers the tree's total allocated rank;
    that total is a natural number (it is never negative) as long as no
    rank is negative, which a pass preserves. *)
Theorem apply_cascade_refunds_terminates (st : state) (tree_id : string) :
  (∃ st', apply_cascade_refunds st tree_id = Some st'
          ∧ ∀ tree_index t k,
              list_find (λ t, t_id t = tree_id) (trees st) = Some (tree_index, t) →
              cascade_loop (S (length (nodes t)) + k) tree_id tree_index st
                = Some st')
  ∧ ∀ tree_index t,
      trees st !! tree_index = Some t →
      let r := full_pass tree_id tree_index st in
      ((r.2 = false ∧ r.1 = st
        ∧ ∀ fuel, cascade_loop (S fuel) tree_id tree_index st = Some st)
       ∨ (r.2 = true
          ∧ tree_measure tree_index total_allocated_rank r.1
            < total_allocated_rank t))
      ∧ (Forall (λ n, 0 ≤ current_rank n) (nodes t) →
         ∃ t', trees r.1 !! tree_index = Some t'
               ∧ Forall (λ n, 0 ≤ current_rank n) (nodes t')
               ∧ 0 ≤ total_allocated_rank t').
Proof.
  split.
  - destruct (apply_cascade_refunds_total st tree_id) as [st' Hst'].
    exists st'. split; [done|]. intros tree_index t k Hfind.
    unfold apply_cascade_refunds in Hst'. rewrite Hfind in Hst'.
    by apply cascade_loop_more_fuel.
  - intros tree_index t Ht r. split.
    + destruct r.2 eqn:Hflag.
      * right. split; [done|].
        pose proof (cascade_pass_decreases tree_id tree_index total_allocated_rank)
          as Hdec.
        destruct (Hdec) with (st := st) as [_ Hlt].
        { intros t0 i n Hn Hpos s. unfold total_allocated_rank.
          cbn [set_spent set_nodes nodes].
          rewrite (total_rank_reset _ _ _ Hn). lia. }
        specialize (Hlt Hflag). unfold tree_measure at 2 in Hlt.
        rewrite Ht in Hlt. exact Hlt.
      * left. split; [done|].
        assert (r.1 = st) as Hsame
          by by apply (cascade_pass_unchanged tree_id tree_index).
        split; [done|]. intros fuel. rewrite cascade_loop_unfold.
        fold r. by rewrite Hflag, Hsame.
    + intros Hnonneg. subst r. unfold full_pass.
      apply (cascade_pass_ind tree_id tree_index
               (λ s _, ∃ t', trees s !! tree_index = Some t'
                             ∧ Forall (λ n, 0 ≤ current_rank n) (nodes t')
                             ∧ 0 ≤ total_allocated_rank t')).
      * intros s _ t0 i n (t' & Ht' & Hall & _) Ht0 Hn _ _.
        rewrite Ht0 in Ht'. injection Ht' as <-.
        rewrite (cascade_reset_lookup _ _ _ _ _ Ht0). eexists. split; [done|].
        assert (Forall (λ n0, 0 ≤ current_rank n0)
                       (<[i := set_current_rank n 0]> (nodes t0))) as Hall'.
        { apply Forall_insert; [done|]. cbn. lia. }
        split; [done|]. apply Zsum_nonneg. by apply Forall_fmap.
      * exists t. split; [done|]. split; [done|].
        apply Zsum_nonneg. by apply Forall_fmap.
Qed.

Lemma apply_cascade_refunds_terminates_witness :
  (∃ st', apply_cascade_refunds (example_state "play" (cascade_tree 0)) "t" = Some st')
  ∧ ∃ t', trees (full_pass "t" 0 (example_state "play" (cascade_tree 0))).1 !! 0%nat
            = Some t'
          ∧ 0 ≤ total_allocated_rank t'.
Proof.
  destruct (apply_cascade_refunds_terminates
              (example_state "play" (cascade_tree 0)) "t") as [[st' [Hst' _]] Hpass].
  split; [by exists st'|].
  destruct (Hpass 0%nat (cascade_tree 0) eq_refl) as [_ Hnat].
  destruct Hnat as (t' & Ht' & _ & Hge).
  - repeat constructor; vm_compute; congruence.
  - by exists t'.
Defined.

(** C8.  Running the cascade resolver a second time, right after a first
    run, returns the state the first run returned. *)
Theorem apply_cascade_refunds_idempotent (st : state) (tree_id : string) :
  ∃ st1, apply_cascade_refunds st tree_id = Some st1
         ∧ apply_cascade_refunds st1 tree_id = Some st1.
Proof.
  destruct (apply_cascade_refunds_total st tree_id) as [st1 Hst1].
  exists st1. split; [done|].
  unfold apply_cascade_refunds in *.
  destruct (list_find _ (trees st)) as [[tree_index t]|] eqn:Hfind.
  - destruct (cascade_loop_list_find _ _ _ _ _ _ Hfind Hst1) as (t1 & Hfind1 & _).
    rewrite Hfind1. rewrite cascade_loop_unfold.
    by rewrite (cascade_loop_stable _ _ _ _ _ Hst1).
  - injection Hst1 as <-. by rewrite Hfind.
Qed.

(** The resolver on the cascade example: B loses its rank and its cost
    returns to the pool; a second run changes nothing. *)
Example apply_cascade_refunds_example :
  apply_cascade_refunds (example_state "play" (cascade_tree 0)) "t"
    = Some (example_state "play"
              (mk_tree "t" (mk_point_pool 20 (Num 0))
                       [example_node "A" 0; example_node "B" 0]
                       [example_edge "A" "B"]))
  ∧ apply_cascade_refunds
      (example_state "play"
         (mk_tree "t" (mk_point_pool 20 (Num 0))
                  [example_node "A" 0; example_node "B" 0]
                  [example_edge "A" "B"])) "t"
    = Some (example_state "play"
              (mk_tree "t" (mk_point_pool 20 (Num 0))
                       [example_node "A" 0; example_node "B" 0]
                       [example_edge "A" "B"])).
Proof. split; reflexivity. Qed.

(** ** Accounting of a cascade *)

Lemma js_sub_sub (a b c : jsnum) : js_sub (js_sub a b) c = js_sub a (js_add b c).
Proof. destruct a, b, c; simpl; try done. f_equal. lia. Qed.

Lemma js_sub_0_r (a : jsnum) : js_sub a (Num 0) = a.
Proof. destruct a; simpl; [f_equal; lia|done]. Qed.

Lemma js_add_0_l (a : jsnum) : js_add (Num 0) a = a.
Proof. by destruct a. Qed.

Lemma js_add_0_r (a : jsnum) : js_add a (Num 0) = a.
Proof. destruct a; simpl; [f_equal; lia|done]. Qed.

Lemma js_add_comm (a b : jsnum) : js_add a b = js_add b a.
Proof. destruct a, b; simpl; try done. f_equal. lia. Qed.

Lemma js_add_assoc (a b c : jsnum) : js_add a (js_add b c) = js_add (js_add a b) c.
Proof. destruct a, b, c; simpl; try done. f_equal. lia. Qed.

(** Subtracting the ranks' costs one by one subtracts their sum. *)
Lemma foldl_js_sub {A} (c : A → jsnum) (l : list A) (s a : jsnum) :
  foldl (λ s i, js_sub s (c i)) (js_sub s a) l
    = js_sub s (foldl (λ a i, js_add a (c i)) a l).
Proof.
  revert a. induction l as [|i l IH]; intros a; [done|].
  cbn [foldl]. rewrite js_sub_sub. apply IH.
Qed.

Lemma refund_all_ranks_accumulated (n : node) (s : jsnum) :
  refund_all_ranks n s = js_sub s (accumulated_cost n).
Proof.
  unfold refund_all_ranks, accumulated_cost, add_node_costs.
  rewrite <- (js_sub_0_r s) at 1.
  apply (foldl_js_sub
           (λ i, js_index (cost_per_rank n)
                          (Z.min (Z.of_nat i)
                                 (Z.of_nat (length (cost_per_rank n)) - 1)))).
Qed.

Lemma jsum_insert_zero (l : list jsnum) (i : nat) (y : jsnum) :
  l !! i = Some (Num 0) → jsum (<[i := y]> l) = js_add (jsum l) y.
Proof.
  revert i. induction l as [|x l IH]; intros [|i] Hi; simplify_eq/=.
  - destruct (jsum l), y; simpl; try done. f_equal. lia.
  - rewrite (IH _ Hi). apply js_add_assoc.
Qed.

Lemma cascade_refund_total_same (l : list node) :
  cascade_refund_total l l = Num 0.
Proof.
  unfold cascade_refund_total.
  induction l as [|m l IH]; [done|].
  cbn [zip_with]. unfold jsum in *. cbn [foldr]. rewrite IH.
  unfold forced_to_zero.
  destruct (0 <? current_rank m) eqn:Hpos; [|done].
  apply Z.ltb_lt in Hpos.
  destruct (current_rank m =? 0) eqn:Hz; [apply Z.eqb_eq in Hz; lia|done].
Qed.

Lemma cascade_outcome_refl (tree_index : nat) (st : state) (t : tree) :
  trees st !! tree_index = Some t → cascade_outcome tree_index st st.
Proof.
  intros Ht. repeat split. exists t, t.
  split_and!; try done.
  - by rewrite list_insert_id.
  - intros j m0 Hj. by left.
  - by rewrite cascade_refund_total_same, js_sub_0_r.
Qed.

(** One more reset keeps the outcome relation. *)
Lemma cascade_outcome_reset (tree_index : nat) (st0 st : state) (t : tree)
    (i : nat) (n : node) :
  cascade_outcome tree_index st0 st →
  trees st !! tree_index = Some t →
  nodes t !! i = Some n →
  0 < current_rank n →
  cascade_outcome tree_index st0 (cascade_reset st tree_index t i n).
Proof.
  intros (Hmod & Hset & Hmode & t0 & t' & Ht0 & Htrees & Hid & Hconn & Htotal
          & Hlen & Hnodes & Hspent) Ht Hn Hpos.
  assert (t' = t) as ->.
  { rewrite Htrees in Ht.
    rewrite list_lookup_insert_eq in Ht by (by eapply lookup_lt_Some).
    by injection Ht. }
  assert (nodes t0 !! i = Some n) as Hn0.
  { destruct (lookup_lt_is_Some_2 (nodes t0) i) as [m0 Hm0].
    { rewrite <- Hlen. by eapply lookup_lt_Some. }
    destruct (Hnodes _ _ Hm0) as [Hsame|[_ Hzero]].
    - rewrite Hn in Hsame. by injection Hsame as ->.
    - rewrite Hn in Hzero. injection Hzero as ->. cbn in Hpos. lia. }
  repeat split; try done.
  exists t0, (set_spent (set_nodes t (<[i := set_current_rank n 0]> (nodes t)))
                        (refund_all_ranks n (spent (point_pool t)))).
  split_and!; try done.
  - unfold cascade_reset. cbn [set_trees trees].
    rewrite Htrees. by rewrite list_insert_insert_eq.
  - cbn. by rewrite length_insert.
  - intros j m0 Hj. cbn [set_spent set_nodes nodes].
    destruct (decide (j = i)) as [->|Hne].
    + right. rewrite Hn0 in Hj. injection Hj as <-. split; [done|].
      apply list_lookup_insert_eq. by eapply lookup_lt_Some.
    + rewrite list_lookup_insert_ne by done. by apply Hnodes.
  - cbn [set_spent set_nodes nodes point_pool spent].
    rewrite refund_all_ranks_accumulated, Hspent, js_sub_sub. f_equal.
    unfold cascade_refund_total.
    rewrite <- (list_insert_id (nodes t0) i n) at 2 by done.
    rewrite <- insert_zip_with.
    rewrite jsum_insert_zero.
    + f_equal. unfold forced_to_zero. cbn.
      by rewrite (proj2 (Z.ltb_lt _ _) Hpos).
    + rewrite lookup_zip_with, Hn0, Hn. cbn.
      unfold forced_to_zero. rewrite (proj2 (Z.ltb_lt _ _) Hpos).
      destruct (current_rank n =? 0) eqn:Hz; [apply Z.eqb_eq in Hz; lia|done].
Qed.

Lemma cascade_loop_outcome (tree_id : string) (tree_index fuel : nat)
    (st st' : state) (t : tree) :
  trees st !! tree_index = Some t →
  cascade_loop fuel tree_id tree_index st = Some st' →
  cascade_outcome tree_index st st'.
Proof.
  intros Ht Hloop.
  apply (cascade_loop_ind tree_id tree_index (cascade_outcome tree_index st))
    with (fuel := fuel) (st := st); [|done|by eapply cascade_outcome_refl].
  intros s t1 i n Hout Ht1 Hn Hpos _. by eapply cascade_outcome_reset.
Qed.



(** The cascade example of the specification: refunding A from rank 1 to
    0 in simulation mode forces B to rank 0 and returns both costs. *)
Example refund_point_cascade_example :
  refund_point "2024-01-02" (example_state "play" (cascade_tree 1)) "t" "A"
  = Some (mk_state "2024-01-02" (mk_settings true false)
            [mk_tree "t" (mk_point_pool 20 (Num 0))
                     [example_node "A" 0; example_node "B" 0]
                     [example_edge "A" "B"]] "play").
Proof. reflexivity. Qed.

(** ** Conservation of the ledger *)













Lemma list_find_insert_keep {A} (P : A → Prop) `{!∀ x, Decision (P x)}
    (l : list A) (k i : nat) (x y z : A) :
  list_find P l = Some (k, x) →
  i ≠ k →
  l !! i = Some z →
  (P y → P z) →
  list_find P (<[i := y]> l) = Some (k, x).
Proof.
  intros Hfind Hne Hz Hyz.
  pose proof Hfind as (Hk & HP & Hleast)%list_find_Some.
  apply list_find_insert_Some.
  destruct (decide (k < i)%nat) as [Hlt|Hge]; [by left|].
  right; right; left. split_and!; [lia| |done|].
  - intros Hy. apply (Hleast i z); [done|lia|by apply Hyz].
  - intros z' Hz'. apply (Hleast i z'); [done|lia].
Qed.


Section conservation.
Context (tree_index : nat) (tree_id : string).




End conservation.




(** Why the cost arrays must not be empty: the cost read is [undefined],
    the budget test lets it pass, and [spent] becomes [NaN], which
    [validate_tree] reports. *)
Example ledger_outside_data_model :
  let st' := allocate_point "2024-01-02" (example_state "play" costless_tree) "t" "A" in
  (spent ∘ point_pool <$> find_tree st' "t") = Some NaN
  ∧ has_pool_mismatch (validate_tree st' "t") = true.
Proof. split; reflexivity. Qed.

(** ** Adding connections *)

Lemma existsb_node_id (l : list node) (id : string) :
  existsb (λ n, bool_decide (n_id n = id)) l = true ↔ id ∈ (n_id <$> l).
Proof.
  rewrite existsb_exists, list_elem_of_fmap. split.
  - intros (n & Hin & Hid). apply bool_decide_eq_true in Hid.
    exists n. split; [done|]. by apply list_elem_of_In.
  - intros (n & -> & Hin). exists n. split; [by apply list_elem_of_In|].
    by apply bool_decide_eq_true.
Qed.

Lemma existsb_connection_pair (l : list connection) (from_id to_id : string) :
  existsb (λ c, bool_decide (from_node_id c = from_id)
                && bool_decide (to_node_id c = to_id)) l = true
  ↔ (from_id, to_id) ∈ (connection_pair <$> l).
Proof.
  rewrite existsb_exists, list_elem_of_fmap. split.
  - intros (c & Hin & Hc). apply andb_true_iff in Hc as [H1 H2].
    apply bool_decide_eq_true in H1, H2.
    exists c. split; [by rewrite <- H1, <- H2|by apply list_elem_of_In].
  - intros (c & [= -> ->] & Hin). exists c. split; [by apply list_elem_of_In|].
    by rewrite !bool_decide_eq_true_2.
Qed.

(** What [add_connection] returns: its input, or the input with one
    connection appended to the addressed tree, whose endpoints are the
    requested ones, name nodes of that tree, and were not yet connected in
    that order. *)
Lemma add_connection_shape (now new_id : string) (st : state) (tree_id : string)
    (options : connection_options) :
  add_connection now new_id st tree_id options = st
  ∨ ∃ tree_index t c,
      list_find (λ t, t_id t = tree_id) (trees st) = Some (tree_index, t)
      ∧ trees (add_connection now new_id st tree_id options)
        = <[tree_index := set_connections t (connections t ++ [c])]> (trees st)
      ∧ connection_pair c = (opt_from_node_id options, opt_to_node_id options)
      ∧ opt_from_node_id options ∈ (n_id <$> nodes t)
      ∧ opt_to_node_id options ∈ (n_id <$> nodes t)
      ∧ connection_pair c ∉ (connection_pair <$> connections t).
Proof.
  unfold add_connection, touch_modified, clone_state. cbn [trees].
  destruct (_ || _); [by left|].
  destruct (list_find _ (trees st)) as [[tree_index t]|]; [|by left].
  destruct (existsb _ (nodes t)) eqn:Hfrom; cbn [negb orb]; [|by left].
  destruct (existsb _ (nodes t)) eqn:Hto in |- *; cbn [negb]; [|by left].
  destruct (existsb _ (connections t)) eqn:Hdup; [by left|].
  right. eexists tree_index, t, _. split; [done|]. split; [reflexivity|].
  match goal with
  | |- connection_pair ?c = _ ∧ _ =>
      assert (connection_pair c
              = (opt_from_node_id options, opt_to_node_id options)) as Hpair
        by (destruct (opt_required_rank options),
                     (bool_decide (opt_logic options = Some "AND")
                      || bool_decide (opt_logic options = Some "OR"));
            reflexivity)
  end.
  split; [exact Hpair|]. rewrite Hpair.
  split; [by apply existsb_node_id|]. split; [by apply existsb_node_id|].
  intros Hin. apply existsb_connection_pair in Hin. congruence.
Qed.

(** C10.  [add_connection] returns its input state whenever the addressed
    tree already holds a connection between the same ordered pair of
    nodes, or one of the two endpoint ids names no node of the tree.
    Consequently it keeps the trees free of repeated ordered pairs and of
    dangling endpoints: any connection it adds joins two existing nodes
    that were not yet connected in that order. *)
Theorem add_connection_guarded (now new_id : string) (st : state) (tree_id : string)
    (options : connection_options) :
  let st' := add_connection now new_id st tree_id options in
  (∀ t, find_tree st tree_id = Some t →
        (opt_from_node_id options, opt_to_node_id options)
          ∈ (connection_pair <$> connections t)
        ∨ opt_from_node_id options ∉ (n_id <$> nodes t)
        ∨ opt_to_node_id options ∉ (n_id <$> nodes t) →
        st' = st)
  ∧ (Forall unique_pairs (trees st) → Forall unique_pairs (trees st'))
  ∧ (Forall no_dangling (trees st) → Forall no_dangling (trees st'))
  ∧ (st' = st
     ∨ ∃ tree_index t c,
         list_find (λ t, t_id t = tree_id) (trees st) = Some (tree_index, t)
         ∧ trees st' = <[tree_index := set_connections t (connections t ++ [c])]>
                         (trees st)
         ∧ connection_pair c = (opt_from_node_id options, opt_to_node_id options)
         ∧ opt_from_node_id options ∈ (n_id <$> nodes t)
         ∧ opt_to_node_id options ∈ (n_id <$> nodes t)
         ∧ connection_pair c ∉ (connection_pair <$> connections t)).
Proof.
  intros st'. subst st'.
  pose proof (add_connection_shape now new_id st tree_id options) as Hshape.
  split_and!; [| | |exact Hshape].
  - intros t Ht Hbad.
    destruct Hshape as [Hsame|(i & t' & c & Hfind & _ & Hpair & Hfrom & Hto & Hnew)];
      [done|].
    unfold find_tree in Ht. rewrite Hfind in Ht. injection Ht as ->.
    rewrite Hpair in Hnew. by destruct Hbad as [?|[?|?]].
  - intros Hall.
    destruct Hshape as [->|(i & t & c & Hfind & -> & Hpair & Hfrom & Hto & Hnew)];
      [done|].
    apply list_find_Some in Hfind as (Ht & _).
    apply Forall_insert; [done|].
    pose proof (Forall_lookup_1 _ _ _ _ Hall Ht) as Hnodup.
    unfold unique_pairs in *. cbn [set_connections connections].
    rewrite fmap_app. apply NoDup_app. split; [done|]. split.
    + intros p Hp Hin. apply list_elem_of_singleton in Hin. by subst p.
    + apply NoDup_singleton.
  - intros Hall.
    destruct Hshape as [->|(i & t & c & Hfind & -> & Hpair & Hfrom & Hto & Hnew)];
      [done|].
    apply list_find_Some in Hfind as (Ht & _).
    apply Forall_insert; [done|].
    pose proof (Forall_lookup_1 _ _ _ _ Hall Ht) as Hdang.
    intros c' Hc'. cbn [set_connections connections nodes] in *.
    apply elem_of_app in Hc' as [Hold|Hnew'%list_elem_of_singleton].
    + by apply Hdang.
    + subst c'. injection Hpair as -> ->. done.
Qed.

Lemma add_connection_guarded_witness :
  add_connection "2024-01-02" "conn_1" (example_state "edit" connected_tree) "t"
                 (mk_connection_options "A" "B" None None)
    = example_state "edit" connected_tree
  ∧ Forall unique_pairs
      (trees (add_connection "2024-01-02" "conn_2"
                (example_state "edit" connected_tree) "t"
                (mk_connection_options "B" "A" None None)))
  ∧ Forall no_dangling
      (trees (add_connection "2024-01-02" "conn_2"
                (example_state "edit" connected_tree) "t"
                (mk_connection_options "B" "A" None None))).
Proof.
  split; [|split].
  - pose proof (add_connection_guarded "2024-01-02" "conn_1"
                  (example_state "edit" connected_tree) "t"
                  (mk_connection_options "A" "B" None None)) as [H _].
    apply (H connected_tree); [reflexivity|].
    left. cbn. apply list_elem_of_here.
  - pose proof (add_connection_guarded "2024-01-02" "conn_2"
                  (example_state "edit" connected_tree) "t"
                  (mk_connection_options "B" "A" None None)) as (_ & H & _).
    apply H. apply Forall_cons. split; [|by apply Forall_nil].
    apply NoDup_singleton.
  - pose proof (add_connection_guarded "2024-01-02" "conn_2"
                  (example_state "edit" connected_tree) "t"
                  (mk_connection_options "B" "A" None None)) as (_ & _ & H & _).
    apply H. apply Forall_cons. split; [|by apply Forall_nil].
    intros c Hc. apply list_elem_of_singleton in Hc as ->.
    split; cbn; set_solver.
Defined.

(** A new ordered pair between existing nodes is appended. *)
Example add_connection_example :
  trees (add_connection "2024-01-02" "conn_2" (example_state "edit" connected_tree) "t"
           (mk_connection_options "B" "A" None (Some 2)))
  = [mk_tree "t" (mk_point_pool 20 (Num 0))
             [example_node "A" 0; example_node "B" 0]
             [example_edge "A" "B"; mk_connection "conn_2" "B" "A" 2 None]].
Proof. reflexivity. Qed.

(** ** Reachability analysis on a dangling target *)

(** C6 at a concrete tree: A is a root, and its only connection leads to
    "ghost", which names no node.  [find_node] answers [null] for it and
    reading [target_node.prerequisite_logic] raises a [TypeError]: no
    unreachable list is returned. *)
Lemma check_tree_reachability_dangling_target :
  let st := example_state "edit" dangling_tree in
  find_node st "t" "ghost" = None
  ∧ check_tree_reachability st "t" = ReachTypeError
  ∧ ∀ unreachable, check_tree_reachability st "t" ≠ ReachDone unreachable.
Proof. split; [reflexivity|]. split; [reflexivity|]. intros l. vm_compute. congruence. Qed.

(** ** Cycle detection *)

Section dfs_soundness.
Context (adjacency : gmap string (list string)).
Local Abbreviation E := (adj_edge adjacency).

(** The slice returned on meeting a neighbor that is on the recursion
    stack is a simple cycle. *)
Lemma slice_from_cycle (s : dfs_state) (node_id neighbor : string) :
  dfs_inv E s →
  last (path s) = Some node_id →
  E node_id neighbor →
  neighbor ∈ rec_stack s →
  is_cycle E (slice_from neighbor (path s)) ∧ NoDup (slice_from neighbor (path s)).
Proof.
  intros (Hstack & _ & Hnodup & Hchain) Hlast Hedge Hin.
  apply Hstack in Hin.
  destruct (list_find_elem_of (λ x, x = neighbor) _ _ Hin eq_refl) as [[i x] Hfind].
  unfold slice_from. rewrite Hfind.
  apply list_find_Some in Hfind as (Hi & -> & _).
  pose proof (lookup_lt_Some _ _ _ Hi) as Hlt.
  split; [split|].
  - intros j x y. rewrite !lookup_drop.
    replace (i + S j)%nat with (S (i + j)) by lia. apply Hchain.
  - exists node_id, neighbor. split_and!; [| |done].
    + rewrite last_lookup, lookup_drop, length_drop.
      rewrite last_lookup in Hlast. rewrite <- Hlast. f_equal. lia.
    + rewrite head_lookup, lookup_drop. by rewrite Nat.add_0_r.
  - eapply sublist_NoDup; [done|apply sublist_drop].
Qed.

Lemma dfs_inv_enter (s : dfs_state) (node_id : string) :
  dfs_inv E s →
  node_id ∉ visited s →
  (∀ x, last (path s) = Some x → E x node_id) →
  dfs_inv E (mk_dfs_state ({[node_id]} ∪ visited s) ({[node_id]} ∪ rec_stack s)
                          (path s ++ [node_id])).
Proof.
  intros (Hstack & Hsub & Hnodup & Hchain) Hnew Hlast.
  split_and!; cbn [visited rec_stack path].
  - intros x. rewrite elem_of_app, list_elem_of_singleton, <- Hstack. set_solver.
  - set_solver.
  - apply NoDup_app. split; [done|]. split; [|apply NoDup_singleton].
    intros x Hx ->%list_elem_of_singleton. apply Hnew, Hsub, Hstack, Hx.
  - intros i x y Hx Hy.
    destruct (decide (S i < length (path s))%nat) as [Hlt|Hge].
    + rewrite lookup_app_l in Hx, Hy by lia. by eapply Hchain.
    + pose proof (lookup_lt_Some _ _ _ Hy) as Hlen.
      rewrite length_app in Hlen. cbn in Hlen.
      assert (S i = length (path s)) as Hi by lia.
      rewrite lookup_app_r in Hy by lia.
      rewrite Hi, Nat.sub_diag in Hy. injection Hy as <-.
      rewrite lookup_app_l in Hx by lia.
      apply Hlast. rewrite last_lookup, <- Hi. done.
Qed.

(** The neighbor loop, for any [visit] that behaves as [dfs] does. *)
Lemma dfs_neighbors_sound (visit : string → dfs_state → dfs_result)
    (node_id : string) (neighbors : list string) (s : dfs_state) :
  (∀ nb s0, dfs_inv E s0 → nb ∉ visited s0 →
            (∀ x, last (path s0) = Some x → E x nb) →
            dfs_post E s0 (visit nb s0)) →
  dfs_inv E s →
  last (path s) = Some node_id →
  (∀ nb, nb ∈ neighbors → E node_id nb) →
  dfs_post E s (dfs_neighbors visit neighbors s).
Proof.
  intros Hvisit. revert s.
  induction neighbors as [|nb rest IH]; intros s Hinv Hlast Hedges.
  { cbn. done. }
  cbn [dfs_neighbors].
  assert (E node_id nb) as Hnb by (apply Hedges; left).
  assert (∀ nb', nb' ∈ rest → E node_id nb') as Hrest
    by (intros; apply Hedges; by right).
  destruct (decide (nb ∉ visited s)) as [Hnew|Hold].
  - assert (dfs_post E s (visit nb s)) as Hpost.
    { apply Hvisit; [done..|].
      intros x Hx. rewrite Hlast in Hx. by injection Hx as <-. }
    destruct (visit nb s) as [cycle|s'|]; [done| |done].
    destruct Hpost as (Hpath & Hstack & Hmono).
    destruct Hinv as (Hi1 & Hi2 & Hi3 & Hi4).
    assert (dfs_inv E s') as Hinv'.
    { split_and!.
      - intros x. rewrite Hstack, Hpath. apply Hi1.
      - rewrite Hstack. set_solver.
      - by rewrite Hpath.
      - rewrite Hpath. exact Hi4. }
    specialize (IH s' Hinv'). rewrite Hpath in IH. specialize (IH Hlast Hrest).
    destruct (dfs_neighbors visit rest s') as [cycle|s''|]; [done| |done].
    destruct IH as (Hpath' & Hstack' & Hmono').
    split_and!; [congruence|congruence|set_solver].
  - destruct (decide (nb ∈ rec_stack s)) as [Hon|Hoff].
    + by eapply slice_from_cycle.
    + by apply IH.
Qed.

Lemma dfs_sound (fuel : nat) (node_id : string) (s : dfs_state) :
  dfs_inv E s →
  node_id ∉ visited s →
  (∀ x, last (path s) = Some x → E x node_id) →
  dfs_post E s (dfs fuel adjacency node_id s).
Proof.
  revert node_id s. induction fuel as [|fuel IH]; intros node_id s Hinv Hnew Hlast;
    [done|].
  cbn [dfs].
  pose proof (dfs_inv_enter s node_id Hinv Hnew Hlast) as Hinv1.
  pose proof (dfs_neighbors_sound (dfs fuel adjacency) node_id
                (default [] (adjacency !! node_id)) _ IH Hinv1) as Hloop.
  cbn [path] in Hloop. specialize (Hloop (last_snoc _ _)).
  assert (∀ nb, nb ∈ default [] (adjacency !! node_id) → E node_id nb) as Hedges.
  { intros nb Hnb. unfold adj_edge.
    destruct (adjacency !! node_id) as [targets|]; [by eauto|].
    by apply elem_of_nil in Hnb. }
  specialize (Hloop Hedges).
  destruct (dfs_neighbors _ _ _) as [cycle|s2|]; [done| |done].
  destruct Hloop as (Hpath & Hstack & Hmono).
  cbn [visited rec_stack path] in *.
  destruct Hinv as (_ & Hsub & _).
  split_and!; cbn [visited rec_stack path].
  - rewrite Hpath. apply removelast_last.
  - rewrite Hstack. set_solver.
  - set_solver.
Qed.
End dfs_soundness.

Section dfs_totality.
Context (adjacency : gmap string (list string)) (U : gset string).
Context (HU : ∀ x targets y, adjacency !! x = Some targets → y ∈ targets → y ∈ U).

Lemma dfs_neighbors_returns (visit : string → dfs_state → dfs_result)
    (fuel : nat) (neighbors : list string) (s : dfs_state) :
  (∀ nb s0, nb ∈ U → nb ∉ visited s0 → size (U ∖ visited s0) ≤ fuel →
            dfs_returns s0 (visit nb s0))%nat →
  (∀ nb, nb ∈ neighbors → nb ∈ U) →
  (size (U ∖ visited s) ≤ fuel)%nat →
  dfs_returns s (dfs_neighbors visit neighbors s).
Proof.
  intros Hvisit. revert s.
  induction neighbors as [|nb rest IH]; intros s Hin Hsize; [cbn; done|].
  cbn [dfs_neighbors].
  assert (∀ nb', nb' ∈ rest → nb' ∈ U) as Hrest by (intros; apply Hin; by right).
  destruct (decide (nb ∉ visited s)) as [Hnew|Hold].
  - assert (dfs_returns s (visit nb s)) as Hret.
    { apply Hvisit; [apply Hin; left|done..]. }
    destruct (visit nb s) as [cycle|s'|]; [done| |done].
    cbn in Hret.
    assert (size (U ∖ visited s') ≤ fuel)%nat as Hsize'.
    { etrans; [|exact Hsize]. apply subseteq_size. set_solver. }
    specialize (IH s' Hrest Hsize').
    destruct (dfs_neighbors visit rest s'); [done| |done].
    cbn in *. set_solver.
  - destruct (decide (nb ∈ rec_stack s)); [done|]. by apply IH.
Qed.

Lemma dfs_returns_enough (fuel : nat) (node_id : string) (s : dfs_state) :
  node_id ∈ U →
  node_id ∉ visited s →
  (size (U ∖ visited s) ≤ fuel)%nat →
  dfs_returns s (dfs fuel adjacency node_id s).
Proof.
  revert node_id s. induction fuel as [|fuel IH]; intros node_id s HinU Hnew Hsize.
  { exfalso. assert (size (U ∖ visited s) ≠ 0)%nat; [|lia].
    apply size_non_empty_iff. set_solver. }
  cbn [dfs].
  set (s1 := mk_dfs_state _ _ _).
  assert (size (U ∖ visited s1) ≤ fuel)%nat as Hsize1.
  { assert (U ∖ visited s ≡ {[node_id]} ∪ U ∖ visited s1) as Hsplit.
    { unfold s1. cbn [visited]. intros x. set_unfold.
      destruct (decide (x = node_id)); naive_solver. }
    rewrite Hsplit, size_union, size_singleton in Hsize;
      [lia|unfold s1; cbn [visited]; set_solver]. }
  pose proof (dfs_neighbors_returns (dfs fuel adjacency) fuel
                (default [] (adjacency !! node_id)) s1 IH) as Hloop.
  assert (∀ nb, nb ∈ default [] (adjacency !! node_id) → nb ∈ U) as Hnbs.
  { intros nb Hnb. destruct (adjacency !! node_id) as [targets|] eqn:Hadj.
    - by eapply HU.
    - by apply elem_of_nil in Hnb. }
  specialize (Hloop Hnbs Hsize1).
  destruct (dfs_neighbors _ _ _) as [cycle|s2|]; [done| |done].
  cbn in *. set_solver.
Qed.

Lemma dfs_roots_returns (fuel : nat) (ns : list node) (s : dfs_state) :
  (∀ n, n ∈ ns → n_id n ∈ U) →
  (size (U ∖ visited s) ≤ fuel)%nat →
  dfs_returns s (dfs_roots (dfs fuel adjacency) ns s).
Proof.
  revert s. induction ns as [|n rest IH]; intros s Hin Hsize; [cbn; done|].
  cbn [dfs_roots].
  assert (∀ n', n' ∈ rest → n_id n' ∈ U) as Hrest by (intros; apply Hin; by right).
  destruct (decide (n_id n ∉ visited s)) as [Hnew|Hold]; [|by apply IH].
  assert (dfs_returns s (dfs fuel adjacency (n_id n) s)) as Hret.
  { apply dfs_returns_enough; [apply Hin; left|done..]. }
  destruct (dfs fuel adjacency (n_id n) s) as [cycle|s'|]; [done| |done].
  cbn in Hret.
  assert (size (U ∖ visited s') ≤ fuel)%nat as Hsize'.
  { etrans; [|exact Hsize]. apply subseteq_size. set_solver. }
  specialize (IH s' Hrest Hsize').
  destruct (dfs_roots _ rest s'); [done| |done].
  cbn in *. set_solver.
Qed.
End dfs_totality.

(** The adjacency object lists, for every node id, the targets of the
    connections that leave it, in connection order; other ids have no
    entry. *)
Lemma build_adjacency_lookup (t : tree) (x : string) :
  build_adjacency t !! x
    = if decide (x ∈ n_id <$> nodes t)
      then Some (to_node_id <$> filter (λ c, from_node_id c = x) (connections t))
      else None.
Proof.
  unfold build_adjacency.
  assert (∀ (m : gmap string (list string)) l,
            foldl (λ adj n, <[n_id n := []]> adj) m l !! x
            = if decide (x ∈ n_id <$> l) then Some [] else m !! x) as Hnodes.
  { intros m l. revert m. induction l as [|n l IH]; intros m.
    - cbn [foldl]. rewrite decide_False; [done|]. apply not_elem_of_nil.
    - cbn [foldl]. rewrite IH, fmap_cons.
      destruct (decide (x ∈ n_id <$> l)) as [Hin|Hnin].
      + rewrite decide_True; [done|by right].
      + destruct (decide (x = n_id n)) as [->|Hne].
        * rewrite lookup_insert_eq. rewrite decide_True; [done|by left].
        * rewrite lookup_insert_ne by done.
          rewrite decide_False; [done|].
          intros [?|?]%elem_of_cons; done. }
  assert (∀ (m : gmap string (list string)) l,
            foldl (λ (adj : gmap string (list string)) conn,
                     match adj !! from_node_id conn with
                     | Some targets =>
                         <[from_node_id conn := targets ++ [to_node_id conn]]> adj
                     | None => adj
                     end) m l !! x
            = (λ ts, ts ++ (to_node_id <$> filter (λ c, from_node_id c = x) l))
                <$> m !! x) as Hconns.
  { intros m l. revert m. induction l as [|c l IH]; intros m.
    - cbn [foldl]. rewrite filter_nil. cbn.
      destruct (m !! x); cbn; [by rewrite app_nil_r|done].
    - cbn [foldl]. rewrite IH, filter_cons.
      destruct (decide (from_node_id c = x)) as [<-|Hne].
      + destruct (m !! from_node_id c) as [ts|] eqn:Hm.
        * rewrite lookup_insert_eq. cbn. by rewrite <- app_assoc.
        * by rewrite Hm.
      + destruct (m !! from_node_id c) as [ts|] eqn:Hm; [|done].
        by rewrite lookup_insert_ne. }
  rewrite Hconns, Hnodes, lookup_empty.
  by destruct (decide (x ∈ n_id <$> nodes t)).
Qed.

Lemma adj_edge_edge (t : tree) (x y : string) :
  adj_edge (build_adjacency t) x y → edge t x y.
Proof.
  intros (targets & Hadj & Hy). rewrite build_adjacency_lookup in Hadj.
  destruct (decide _); [|done]. injection Hadj as <-.
  apply list_elem_of_fmap in Hy as (c & -> & Hc).
  apply list_elem_of_filter in Hc as [Hfrom Hc]. by exists c.
Qed.

Lemma adjacency_targets_in_universe (t : tree) (x : string) (targets : list string)
    (y : string) :
  build_adjacency t !! x = Some targets → y ∈ targets → y ∈ cycle_universe t.
Proof.
  intros Hadj Hy.
  destruct (adj_edge_edge t x y) as (c & Hc & _ & <-); [by exists targets|].
  unfold cycle_universe. apply elem_of_union_r, elem_of_list_to_set.
  apply list_elem_of_fmap. by exists c.
Qed.

Lemma is_cycle_mono (E1 E2 : string → string → Prop) (cycle : list string) :
  (∀ x y, E1 x y → E2 x y) → is_cycle E1 cycle → is_cycle E2 cycle.
Proof.
  intros Hmono [Hchain (x & y & Hlast & Hhead & Hxy)]. split; [by eauto|].
  exists x, y. by eauto.
Qed.

Lemma dfs_roots_sound (adjacency : gmap string (list string)) (fuel : nat)
    (ns : list node) (s : dfs_state) :
  dfs_inv (adj_edge adjacency) s →
  path s = [] →
  dfs_post (adj_edge adjacency) s (dfs_roots (dfs fuel adjacency) ns s).
Proof.
  revert s. induction ns as [|n rest IH]; intros s Hinv Hpath; [cbn; done|].
  cbn [dfs_roots].
  destruct (decide (n_id n ∉ visited s)) as [Hnew|Hold]; [|by apply IH].
  assert (dfs_post (adj_edge adjacency) s (dfs fuel adjacency (n_id n) s)) as Hpost.
  { apply dfs_sound; [done..|]. intros x. by rewrite Hpath. }
  destruct (dfs fuel adjacency (n_id n) s) as [cycle|s'|]; [done| |done].
  destruct Hpost as (Hpath' & Hstack' & Hmono).
  destruct Hinv as (Hi1 & Hi2 & Hi3 & Hi4).
  assert (dfs_inv (adj_edge adjacency) s') as Hinv'.
  { split_and!.
    - intros x. rewrite Hstack', Hpath'. apply Hi1.
    - rewrite Hstack'. set_solver.
    - by rewrite Hpath'.
    - rewrite Hpath'. exact Hi4. }
  specialize (IH s' Hinv'). rewrite Hpath' in IH. specialize (IH Hpath).
  destruct (dfs_roots _ rest s') as [cycle|s''|]; [done| |done].
  destruct IH as (? & ? & ?). split_and!; [congruence|congruence|set_solver].
Qed.

Lemma detect_cycle_fuel_returns (t : tree) (k : nat) :
  dfs_returns (mk_dfs_state ∅ ∅ []) (detect_cycle_fuel (detect_cycle_depth t + k) t).
Proof.
  unfold detect_cycle_fuel.
  apply (dfs_roots_returns (build_adjacency t) (cycle_universe t)).
  - apply adjacency_targets_in_universe.
  - intros n Hn. unfold cycle_universe.
    apply elem_of_union_l, elem_of_list_to_set, list_elem_of_fmap. by exists n.
  - unfold detect_cycle_depth. cbn [visited].
    assert (size (cycle_universe t ∖ ∅) ≤ size (cycle_universe t))%nat
      by (apply subseteq_size; set_solver).
    lia.
Qed.

Lemma detect_cycle_fuel_sound (t : tree) (fuel : nat) (cycle : list string) :
  detect_cycle_fuel fuel t = DfsCycle cycle →
  is_cycle (edge t) cycle ∧ NoDup cycle.
Proof.
  intros Hcycle.
  pose proof (dfs_roots_sound (build_adjacency t) fuel (nodes t)
                (mk_dfs_state ∅ ∅ [])) as Hpost.
  fold (detect_cycle_fuel fuel t) in Hpost. rewrite Hcycle in Hpost.
  destruct Hpost as [Hcyc Hnodup]; [|done|].
  - split_and!; cbn.
    + intros x. set_solver.
    + done.
    + apply NoDup_nil_2.
    + intros i x y Hx. by rewrite lookup_nil in Hx.
  - split; [|done]. eapply is_cycle_mono; [|done]. apply adj_edge_edge.
Qed.

Lemma dfs_S (fuel : nat) (adjacency : gmap string (list string))
    (node_id : string) (s : dfs_state) :
  dfs (S fuel) adjacency node_id s
    = match dfs_neighbors (dfs fuel adjacency)
                          (default [] (adjacency !! node_id))
                          (mk_dfs_state ({[node_id]} ∪ visited s)
                                        ({[node_id]} ∪ rec_stack s)
                                        (path s ++ [node_id])) with
      | DfsNull s2 =>
          DfsNull (mk_dfs_state (visited s2)
                                (rec_stack s2 ∖ {[node_id]})
                                (removelast (path s2)))
      | r => r
      end.
Proof. done. Qed.







(** The cycle example of the specification, evaluated. *)
Example validate_tree_triangle :
  validate_tree (example_state "edit" triangle_tree) "t"
  = mk_validation_result false [ERR_CYCLIC_DEPENDENCY ["A"; "B"; "C"]] [].
Proof. reflexivity. Qed.

(** A chain A -> B has no cycle to report. *)
Example detect_cycle_chain : detect_cycle connected_tree = None.
Proof. reflexivity. Qed.

(** ** Reachability analysis: when it does return *)

Lemma size_list_to_set_le (l : list string) :
  (size (list_to_set l : gset string) ≤ length l)%nat.
Proof.
  induction l as [|x l IH]; [by rewrite list_to_set_nil, size_empty|].
  rewrite list_to_set_cons, size_union_alt, size_singleton. cbn [length].
  assert (size (list_to_set l ∖ {[x]} : gset string)
          ≤ size (list_to_set l : gset string))%nat
    by (apply subseteq_size; set_solver).
  lia.
Qed.

Section reachability.
Context (st : state) (tree_id : string) (t : tree) (U : gset string).

(** One breadth-first step either raises because some target is missing,
    or only adds fresh ids of [U] to the set and the queue. *)
Lemma reach_outgoing_spec (outgoing : list connection) (reachable : gset string)
    (queue : list string) :
  (∀ c, c ∈ outgoing → to_node_id c ∈ U) →
  match reach_outgoing st tree_id t outgoing reachable queue with
  | None => ∃ c, c ∈ outgoing ∧ find_node st tree_id (to_node_id c) = None
  | Some (reachable', queue') =>
      (length queue ≤ length queue')%nat
      ∧ (length queue' + size (U ∖ reachable')
         ≤ length queue + size (U ∖ reachable))%nat
  end.
Proof.
  revert reachable queue.
  induction outgoing as [|c rest IH]; intros reachable queue HU; [cbn; lia|].
  cbn [reach_outgoing].
  assert (∀ c', c' ∈ rest → to_node_id c' ∈ U) as Hrest
    by (intros; apply HU; by right).
  assert (∀ r q,
            match reach_outgoing st tree_id t rest r q with
            | None => ∃ c0, c0 ∈ c :: rest
                            ∧ find_node st tree_id (to_node_id c0) = None
            | Some (reachable', queue') =>
                (length q ≤ length queue')%nat
                ∧ (length queue' + size (U ∖ reachable')
                   ≤ length q + size (U ∖ r))%nat
            end) as IH'.
  { intros r q. specialize (IH r q Hrest).
    destruct (reach_outgoing st tree_id t rest r q) as [[r' q']|]; [done|].
    destruct IH as (c0 & Hc0 & Hnone). exists c0. split; [by right|done]. }
  destruct (decide (to_node_id c ∈ reachable)) as [Hin|Hnew]; [apply IH'|].
  destruct (find_node st tree_id (to_node_id c)) as [target_node|] eqn:Hfind.
  2:{ exists c. split; [by left|done]. }
  match goal with |- context [if ?b then _ else _] => destruct b end;
    [|apply IH'].
  specialize (IH' ({[to_node_id c]} ∪ reachable) (queue ++ [to_node_id c])).
  destruct (reach_outgoing _ _ _ rest _ _) as [[r' q']|]; [|done].
  rewrite length_app in IH'. cbn [length] in IH'.
  assert (U ∖ reachable ≡ {[to_node_id c]} ∪ U ∖ ({[to_node_id c]} ∪ reachable))
    as Hsplit.
  { intros x. set_unfold. destruct (decide (x = to_node_id c)) as [->|].
    - split; [by left|]. intros _. split; [apply HU; by left|done].
    - naive_solver. }
  assert (size (U ∖ reachable)
          = S (size (U ∖ ({[to_node_id c]} ∪ reachable)))) as Hsize.
  { rewrite Hsplit, size_union by set_solver. by rewrite size_singleton. }
  lia.
Qed.

Lemma reach_bfs_returns (fuel head : nat) (reachable : gset string)
    (queue : list string) :
  (∀ c, c ∈ connections t → to_node_id c ∈ U) →
  (length queue - head + size (U ∖ reachable) ≤ fuel)%nat →
  reach_bfs fuel st tree_id t head reachable queue ≠ None
  ∧ ((∀ c, c ∈ connections t → is_Some (find_node st tree_id (to_node_id c))) →
     reach_bfs fuel st tree_id t head reachable queue ≠ Some None).
Proof.
  intros HU. revert head reachable queue.
  induction fuel as [|fuel IH]; intros head reachable queue Hfuel.
  - cbn [reach_bfs]. destruct (queue !! head) eqn:Hhead; [|done].
    apply lookup_lt_Some in Hhead. lia.
  - cbn [reach_bfs]. destruct (queue !! head) as [current_id|] eqn:Hhead; [|done].
    apply lookup_lt_Some in Hhead.
    set (outgoing := filter (λ c, from_node_id c = current_id) (connections t)).
    pose proof (reach_outgoing_spec outgoing reachable queue) as Hstep.
    assert (∀ c, c ∈ outgoing → c ∈ connections t) as Hsub.
    { intros c Hc. by apply list_elem_of_filter in Hc as [_ Hc]. }
    destruct (reach_outgoing st tree_id t outgoing reachable queue) as [[r' q']|].
    + destruct Hstep as [Hlen Hpot]; [by auto|].
      apply IH. lia.
    + split; [done|]. intros Hexist _.
      destruct Hstep as (c & Hc & Hnone); [by auto|].
      destruct (Hexist c (Hsub c Hc)) as [n Hn]. congruence.
Qed.
End reachability.

Lemma reach_roots_length (t : tree) (l : list node) (reachable : gset string)
    (queue : list string) :
  (length (foldl (λ '(reachable, queue) n,
                    if decide (length (filter (λ c, to_node_id c = n_id n)
                                              (connections t)) = 0%nat)
                    then ({[n_id n]} ∪ reachable, queue ++ [n_id n])
                    else (reachable, queue))
                 (reachable, queue) l).2
   ≤ length queue + length l)%nat.
Proof.
  revert reachable queue. induction l as [|n l IH]; intros reachable queue.
  - cbn. lia.
  - cbn [foldl]. case_decide.
    + etrans; [apply IH|]. rewrite length_app. cbn. lia.
    + etrans; [apply IH|]. cbn. lia.
Qed.

(** [check_tree_reachability] never runs out of the iterations the model
    allows, and it returns its list whenever every connection's target
    names a node of the tree. *)
Lemma check_tree_reachability_returns (st : state) (tree_id : string) :
  check_tree_reachability st tree_id ≠ ReachOutOfFuel
  ∧ ∀ t, find_tree st tree_id = Some t →
         (∀ c, c ∈ connections t → is_Some (find_node st tree_id (to_node_id c))) →
         ∃ unreachable, check_tree_reachability st tree_id = ReachDone unreachable.
Proof.
  unfold check_tree_reachability.
  destruct (find_tree st tree_id) as [t|] eqn:Hfind; [|split; [done|by intros]].
  pose proof (reach_roots_length t (nodes t) ∅ []) as Hroots.
  destruct (foldl _ _ (nodes t)) as [reachable queue]. cbn in Hroots.
  destruct (reach_bfs_returns st tree_id t
              (list_to_set (to_node_id <$> connections t))
              (length (nodes t) + length (connections t)) 0 reachable queue)
    as [Hfuel Herr].
  - intros c Hc. apply elem_of_list_to_set, list_elem_of_fmap. by exists c.
  - pose proof (size_list_to_set_le (to_node_id <$> connections t)) as Hsize.
    rewrite length_fmap in Hsize.
    assert (size (list_to_set (to_node_id <$> connections t) ∖ reachable)
            ≤ size (list_to_set (to_node_id <$> connections t) : gset string))%nat
      by (apply subseteq_size; set_solver).
    lia.
  - destruct (reach_bfs _ _ _ _ _ _ _) as [[r|]|]; [| |done].
    + split; [done|]. intros t' [= <-] _. by eexists.
    + split; [done|]. intros t' [= <-] Hexist. by destruct (Herr Hexist).
Qed.

(** * Further properties of the engine *)

(** ** AND and OR prerequisites *)

Lemma every_opt_forallb {A} (f : A → option bool) (g : A → bool) (l : list A) :
  (∀ x, x ∈ l → f x = Some (g x)) → every_opt f l = Some (forallb g l).
Proof.
  induction l as [|x l IH]; intros Hfg; [done|].
  cbn [every_opt forallb]. rewrite (Hfg x) by left.
  destruct (g x); [|done]. apply IH. intros y Hy. apply Hfg. by right.
Qed.

Lemma some_opt_existsb {A} (f : A → option bool) (g : A → bool) (l : list A) :
  (∀ x, x ∈ l → f x = Some (g x)) → some_opt f l = Some (existsb g l).
Proof.
  induction l as [|x l IH]; intros Hfg; [done|].
  cbn [some_opt existsb]. rewrite (Hfg x) by left.
  destruct (g x); [done|]. apply IH. intros y Hy. apply Hfg. by right.
Qed.

(** A connection into a node that is not a SUM node is judged on its own
    edge: the source must exist and hold the required rank. *)
Lemma is_connection_satisfied_fuel_edge (st : state) (tree_id : string)
    (conn : connection) (n : node) (k : nat) :
  find_node st tree_id (to_node_id conn) = Some n →
  prerequisite_logic n ≠ "SUM" →
  is_connection_satisfied_fuel (S k) st tree_id conn
    = Some (edge_satisfied st tree_id conn).
Proof.
  intros Hn Hsum. cbn [is_connection_satisfied_fuel]. rewrite Hn.
  unfold edge_satisfied.
  destruct (find_node st tree_id (from_node_id conn)); [|done].
  by rewrite decide_False.
Qed.

Lemma edge_satisfied_true (st : state) (tree_id : string) (conn : connection) :
  edge_satisfied st tree_id conn = true
  ↔ ∃ src, find_node st tree_id (from_node_id conn) = Some src
           ∧ required_rank conn ≤ current_rank src.
Proof.
  unfold edge_satisfied.
  destruct (find_node st tree_id (from_node_id conn)) as [src|].
  - rewrite Z.leb_le. split; [by eauto|]. by intros (? & [= <-] & ?).
  - split; [done|]. by intros (? & ? & ?).
Qed.

(** X1.  For a node whose logic is AND (or missing, which defaults to
    AND), [check_prerequisites] holds exactly when every connection into
    the node has a source node that exists and holds at least the
    connection's [required_rank]. *)
Theorem check_prerequisites_AND (st : state) (tree_id node_id : string)
    (t : tree) (n : node) :
  find_tree st tree_id = Some t →
  find_node st tree_id node_id = Some n →
  logic_or_default n = "AND" →
  check_prerequisites st tree_id node_id = true
  ↔ ∀ c, c ∈ connections t → to_node_id c = node_id →
         ∃ src, find_node st tree_id (from_node_id c) = Some src
                ∧ required_rank c ≤ current_rank src.
Proof.
  intros Ht Hn Hlogic.
  assert (prerequisite_logic n ≠ "SUM") as Hsum.
  { unfold logic_or_default in Hlogic. case_decide; congruence. }
  unfold check_prerequisites. cbn [check_prerequisites_fuel]. rewrite Ht.
  set (incoming := filter (λ c, to_node_id c = node_id) (connections t)).
  assert (∀ c, c ∈ incoming ↔ to_node_id c = node_id ∧ c ∈ connections t) as Hinc
    by (intros c; unfold incoming; by rewrite list_elem_of_filter).
  case_decide as Hlen.
  - split; [|done]. intros _ c Hc Hto.
    assert (c ∈ incoming) as Hin by by apply Hinc.
    destruct incoming; [by apply elem_of_nil in Hin|done].
  - rewrite Hn, Hlogic. rewrite decide_True by done.
    rewrite (every_opt_forallb _ (edge_satisfied st tree_id)).
    + cbn [default from_option id]. rewrite forallb_forall. split.
      * intros Hall c Hc Hto. apply edge_satisfied_true, Hall, list_elem_of_In.
        by apply Hinc.
      * intros Hall c Hc%list_elem_of_In. apply Hinc in Hc as [Hto Hc].
        apply edge_satisfied_true. by apply Hall.
    + intros c Hc%Hinc. destruct Hc as [Hto _].
      apply (is_connection_satisfied_fuel_edge _ _ _ n); [by rewrite Hto|done].
Qed.

Lemma check_prerequisites_AND_witness :
  check_prerequisites (example_state "play" locked_tree) "t" "B" = true
  ↔ ∀ c, c ∈ connections locked_tree → to_node_id c = "B" →
         ∃ src, find_node (example_state "play" locked_tree) "t" (from_node_id c)
                  = Some src
                ∧ required_rank c ≤ current_rank src.
Proof.
  apply (check_prerequisites_AND _ _ _ locked_tree (example_node "B" 0));
    reflexivity.
Defined.

(** X2.  For a node whose logic is OR and which has incoming connections,
    [check_prerequisites] holds exactly when at least one of them has a
    source node that exists and holds the connection's [required_rank]. *)
Theorem check_prerequisites_OR (st : state) (tree_id node_id : string)
    (t : tree) (n : node) :
  find_tree st tree_id = Some t →
  find_node st tree_id node_id = Some n →
  prerequisite_logic n = "OR" →
  (∃ c, c ∈ connections t ∧ to_node_id c = node_id) →
  check_prerequisites st tree_id node_id = true
  ↔ ∃ c src, c ∈ connections t ∧ to_node_id c = node_id
             ∧ find_node st tree_id (from_node_id c) = Some src
             ∧ required_rank c ≤ current_rank src.
Proof.
  intros Ht Hn Hlogic (c0 & Hc0 & Hto0).
  unfold check_prerequisites. cbn [check_prerequisites_fuel]. rewrite Ht.
  set (incoming := filter (λ c, to_node_id c = node_id) (connections t)).
  assert (∀ c, c ∈ incoming ↔ to_node_id c = node_id ∧ c ∈ connections t) as Hinc
    by (intros c; unfold incoming; by rewrite list_elem_of_filter).
  case_decide as Hlen.
  { assert (c0 ∈ incoming) as Hin by by apply Hinc.
    destruct incoming; [by apply elem_of_nil in Hin|done]. }
  assert (logic_or_default n = "OR") as Hor
    by (unfold logic_or_default; by rewrite Hlogic).
  rewrite Hn, Hor. rewrite decide_False by done. rewrite decide_True by done.
  rewrite (some_opt_existsb _ (edge_satisfied st tree_id)).
  - cbn [default from_option id]. rewrite existsb_exists. split.
    + intros (c & Hc%list_elem_of_In & Hsat).
      apply Hinc in Hc as [Hto Hc].
      apply edge_satisfied_true in Hsat as (src & Hsrc & Hrank).
      by exists c, src.
    + intros (c & src & Hc & Hto & Hsrc & Hrank). exists c. split.
      * apply list_elem_of_In. by apply Hinc.
      * apply edge_satisfied_true. by exists src.
  - intros c Hc%Hinc. destruct Hc as [Hto _].
    apply (is_connection_satisfied_fuel_edge _ _ _ n); [by rewrite Hto|].
    by rewrite Hlogic.
Qed.

Lemma check_prerequisites_OR_witness :
  check_prerequisites (example_state "play" (or_tree 1)) "t" "C" = true
  ↔ ∃ c src, c ∈ connections (or_tree 1) ∧ to_node_id c = "C"
             ∧ find_node (example_state "play" (or_tree 1)) "t" (from_node_id c)
               = Some src
             ∧ required_rank c ≤ current_rank src.
Proof.
  apply (check_prerequisites_OR _ _ _ (or_tree 1) (mk_node "C" 1 0 [1] "OR" 1));
    [reflexivity..|].
  exists (example_edge "A" "C"). split; [apply list_elem_of_here|reflexivity].
Defined.

(** ** Refunds: the query and the action agree *)

(** Resetting ranks moves no node: lookups by id find the node at the same
    position. *)
Lemma cascade_outcome_find_node (tree_index : nat) (st1 st' : state)
    (tree_id node_id : string) (t1 : tree) (node_index : nat) (m1 : node) :
  cascade_outcome tree_index st1 st' →
  list_find (λ t, t_id t = tree_id) (trees st1) = Some (tree_index, t1) →
  list_find (λ n, n_id n = node_id) (nodes t1) = Some (node_index, m1) →
  ∃ m', find_node st' tree_id node_id = Some m'
        ∧ (m' = m1 ∨ (0 < current_rank m1 ∧ m' = set_current_rank m1 0)).
Proof.
  intros (_ & _ & _ & t0 & t' & Ht0 & Htrees & Hid & _ & _ & Hlen & Hnodes & _)
         Hfind Hnode.
  pose proof Hfind as (Ht1 & Htid & _)%list_find_Some.
  rewrite Ht1 in Ht0. injection Ht0 as <-.
  assert (list_find (λ t, t_id t = tree_id) (trees st') = Some (tree_index, t'))
    as Hfind'.
  { rewrite Htrees. eapply list_find_insert_same; [done|]. congruence. }
  pose proof Hnode as (Hm1 & Hnid & Hleast)%list_find_Some.
  assert (∃ m', nodes t' !! node_index = Some m'
                ∧ (m' = m1 ∨ (0 < current_rank m1 ∧ m' = set_current_rank m1 0)))
    as (m' & Hm' & Hcases).
  { destruct (Hnodes _ _ Hm1) as [?|[? ?]]; eauto. }
  exists m'. split; [|done].
  unfold find_node, find_tree. rewrite Hfind'. cbn.
  assert (list_find (λ n, n_id n = node_id) (nodes t') = Some (node_index, m'))
    as ->; [|done].
  apply list_find_Some. split_and!; [done| |].
  - by destruct Hcases as [->|[_ ->]].
  - intros j y' Hy' Hlt.
    destruct (lookup_lt_is_Some_2 (nodes t1) j) as [y Hy].
    { apply lookup_lt_Some in Hm1. lia. }
    specialize (Hleast j y Hy Hlt).
    destruct (Hnodes _ _ Hy) as [Hsame|[_ Hzero]].
    + congruence.
    + rewrite Hzero in Hy'. by injection Hy' as <-.
Qed.

(** X3.  [can_refund_point] and [refund_point] agree in every mode: when
    the query answers [can_refund = false] the action returns its input
    state, and when it answers [true] the action returns a different
    state, in which the node holds a strictly lower rank. *)
Theorem refund_point_agrees (now : string) (st : state) (tree_id node_id : string) :
  (can_refund (can_refund_point st tree_id node_id) = false →
   refund_point now st tree_id node_id = Some st)
  ∧ (can_refund (can_refund_point st tree_id node_id) = true →
     ∃ st' n n',
       refund_point now st tree_id node_id = Some st'
       ∧ st' ≠ st
       ∧ find_node st tree_id node_id = Some n
       ∧ find_node st' tree_id node_id = Some n'
       ∧ current_rank n' < current_rank n).
Proof.
  unfold can_refund_point, refund_point, find_node, find_tree.
  unfold touch_modified, clone_state. cbn [settings trees mode set_trees].
  destruct (negb (allow_refunds (settings st))); [by split|].
  destruct (list_find (λ t, t_id t = tree_id) (trees st)) as [[tree_index t]|]
    eqn:Hfind; cbn [fmap option_fmap option_map snd]; [|by split].
  destruct (list_find (λ n, n_id n = node_id) (nodes t)) as [[node_index n]|]
    eqn:Hnode; cbn [fmap option_fmap option_map snd]; [|by split].
  destruct (current_rank n <=? 0) eqn:Hrank; [by split|].
  apply Z.leb_gt in Hrank.
  split.
  { intros Hcan. exfalso. case_decide; [done|].
    by destruct (bool_decide (0 < _)%nat). }
  intros _.
  fold (refund_one_rank t node_index n).
  set (st1 := mk_state now (settings st)
                       (<[tree_index := refund_one_rank t node_index n]> (trees st))
                       (mode st)).
  pose proof Hfind as (Ht & Htid & _)%list_find_Some.
  pose proof Hnode as (Hn & Hnid & _)%list_find_Some.
  assert (list_find (λ t, t_id t = tree_id) (trees st1)
          = Some (tree_index, refund_one_rank t node_index n)) as Hfind1.
  { unfold st1. cbn [trees]. by eapply list_find_insert_same. }
  assert (list_find (λ m, n_id m = node_id) (nodes (refund_one_rank t node_index n))
          = Some (node_index, set_current_rank n (current_rank n - 1))) as Hnode1.
  { unfold refund_one_rank. cbn [set_spent set_nodes nodes].
    by eapply list_find_insert_same. }
  assert (∃ st', (if negb (bool_decide (mode st = "edit"))
                     || cascade_refunds (settings st)
                  then apply_cascade_refunds st1 tree_id else Some st1) = Some st'
                 ∧ cascade_outcome tree_index st1 st') as (st' & Hst' & Hout).
  { pose proof Hfind1 as (Ht1 & _)%list_find_Some.
    destruct (_ || _).
    - destruct (apply_cascade_refunds_total st1 tree_id) as [st' Hst'].
      exists st'. split; [done|].
      unfold apply_cascade_refunds in Hst'. rewrite Hfind1 in Hst'.
      by eapply cascade_loop_outcome.
    - exists st1. split; [done|]. by eapply cascade_outcome_refl. }
  destruct (cascade_outcome_find_node _ _ _ _ _ _ _ _ Hout Hfind1 Hnode1)
    as (n' & Hn' & Hcases).
  assert (current_rank n' < current_rank n) as Hlower.
  { destruct Hcases as [->|[_ ->]]; cbn; lia. }
  exists st', n, n'. split; [exact Hst'|]. split_and!; [|done|exact Hn'|done].
  intros ->. unfold find_node, find_tree in Hn'. rewrite Hfind in Hn'. cbn in Hn'.
  rewrite Hnode in Hn'. cbn in Hn'. injection Hn' as <-. lia.
Qed.

Lemma refund_point_agrees_witness :
  ∃ st', refund_point "2024-01-02" (example_state "play" (cascade_tree 1)) "t" "A"
           = Some st'
         ∧ st' ≠ example_state "play" (cascade_tree 1).
Proof.
  destruct (refund_point_agrees "2024-01-02" (example_state "play" (cascade_tree 1))
              "t" "A") as [_ H].
  destruct (H eq_refl) as (st' & _ & _ & Hst' & Hne & _).
  by exists st'.
Defined.

(** ** Allocation: when the query says yes *)



(** In play mode a node with [max_rank] 0 shows why the bound is needed:
    its status is UNLOCKABLE, not MAXED, so the query says yes while the
    action returns its input. *)
Example allocate_point_max_rank_zero :
  let st := example_state "play"
              (mk_tree "t" (mk_point_pool 20 (Num 0)) [mk_node "A" 0 0 [1] "AND" 1] []) in
  can_allocate (can_allocate_point st "t" "A") = true
  ∧ allocate_point "2024-01-02" st "t" "A" = st.
Proof. split; reflexivity. Qed.



(** ** Invariants kept by every sequence of allocations and refunds *)

Section tree_invariant.
Context (Q : tree → Prop) (tree_index : nat) (tree_id : string).
Context (Hallocate : ∀ t i n,
  Q t → nodes t !! i = Some n →
  current_rank n < max_rank n →
  js_lt (js_sub (Num (total (point_pool t))) (spent (point_pool t)))
        (js_index (cost_per_rank n)
           (Z.min (current_rank n) (Z.of_nat (length (cost_per_rank n)) - 1)))
    = false →
  Q (set_spent (set_nodes t (<[i := set_current_rank n (current_rank n + 1)]> (nodes t)))
       (js_add (spent (point_pool t))
          (js_index (cost_per_rank n)
             (Z.min (current_rank n) (Z.of_nat (length (cost_per_rank n)) - 1)))))).
Context (Hrefund : ∀ t i n,
  Q t → nodes t !! i = Some n → 0 < current_rank n → Q (refund_one_rank t i n)).
Context (Hreset : ∀ t i n,
  Q t → nodes t !! i = Some n → 0 < current_rank n →
  Q (set_spent (set_nodes t (<[i := set_current_rank n 0]> (nodes t)))
               (refund_all_ranks n (spent (point_pool t))))).

Lemma tree_inv_insert (st st' : state) (i : nat) (z y : tree) :
  tree_inv Q tree_index tree_id st →
  trees st !! i = Some z →
  trees st' = <[i := y]> (trees st) →
  t_id y = t_id z →
  (Q z → Q y) →
  tree_inv Q tree_index tree_id st'.
Proof.
  intros (t & Hfind & HQ) Hz Htrees Hid Hstep.
  unfold tree_inv. rewrite Htrees.
  pose proof Hfind as (Ht & Htid & _)%list_find_Some.
  destruct (decide (i = tree_index)) as [->|Hne].
  - rewrite Hz in Ht. injection Ht as ->.
    exists y. split; [|by auto].
    eapply list_find_insert_same; [done|]. congruence.
  - exists t. split; [|done].
    eapply list_find_insert_keep; [done..|]. congruence.
Qed.

Lemma allocate_point_inv (now : string) (st : state) (tid nid : string) :
  tree_inv Q tree_index tree_id st →
  tree_inv Q tree_index tree_id (allocate_point now st tid nid).
Proof.
  intros Hinv. unfold allocate_point, touch_modified, clone_state.
  cbn [trees set_trees].
  destruct (list_find (λ t, t_id t = tid) (trees st)) as [[i z]|] eqn:Hfind; [|done].
  destruct (list_find (λ n, n_id n = nid) (nodes z)) as [[j n]|] eqn:Hnode; [|done].
  destruct (max_rank n <=? current_rank n) eqn:Hmax; [done|].
  destruct (js_lt _ _) eqn:Hbudget; [done|].
  apply list_find_Some in Hfind as (Hz & _).
  apply list_find_Some in Hnode as (Hn & _).
  eapply tree_inv_insert; [done|done|done|done|].
  intros HQ. apply Hallocate; [done|done| |done]. by apply Z.leb_gt.
Qed.

Lemma cascade_loop_inv (tid : string) (i fuel : nat) (st st' : state) :
  cascade_loop fuel tid i st = Some st' →
  tree_inv Q tree_index tree_id st →
  tree_inv Q tree_index tree_id st'.
Proof.
  apply (cascade_loop_ind tid i (tree_inv Q tree_index tree_id)).
  intros s t j n Hinv Ht Hn Hpos _.
  eapply tree_inv_insert; [done|done|done|done|].
  intros HQ. by apply Hreset.
Qed.

Lemma refund_point_inv (now : string) (st : state) (tid nid : string) :
  tree_inv Q tree_index tree_id st →
  ∃ st', refund_point now st tid nid = Some st'
         ∧ tree_inv Q tree_index tree_id st'.
Proof.
  intros Hinv. unfold refund_point, touch_modified, clone_state.
  cbn [trees set_trees settings mode].
  destruct (negb (allow_refunds (settings st))); [by eauto|].
  destruct (list_find (λ t, t_id t = tid) (trees st)) as [[i z]|] eqn:Hfind;
    [|by eauto].
  destruct (list_find (λ n, n_id n = nid) (nodes z)) as [[j n]|] eqn:Hnode;
    [|by eauto].
  destruct (current_rank n <=? 0) eqn:Hrank; [by eauto|].
  apply Z.leb_gt in Hrank.
  apply list_find_Some in Hfind as (Hz & _).
  apply list_find_Some in Hnode as (Hn & _).
  fold (refund_one_rank z j n).
  set (st1 := mk_state now (settings st) (<[i := refund_one_rank z j n]> (trees st))
                       (mode st)).
  assert (tree_inv Q tree_index tree_id st1) as Hinv1.
  { eapply tree_inv_insert; [done|done|done|done|].
    intros HQ. by apply Hrefund. }
  destruct (negb (bool_decide (mode st = "edit")) || cascade_refunds (settings st));
    [|by eauto].
  destruct (apply_cascade_refunds_total st1 tid) as [st' Hst'].
  exists st'. split; [done|].
  unfold apply_cascade_refunds in Hst'.
  destruct (list_find _ (trees st1)) as [[i' z']|].
  - by eapply cascade_loop_inv.
  - by injection Hst' as <-.
Qed.

Lemma run_ops_inv (ops : list engine_op) (st : state) :
  tree_inv Q tree_index tree_id st →
  ∃ st', run_ops ops st = Some st' ∧ tree_inv Q tree_index tree_id st'.
Proof.
  revert st. induction ops as [|op ops IH]; intros st Hinv; [by eauto|].
  cbn [run_ops]. destruct op as [now tid nid|now tid nid]; cbn [apply_op].
  - apply IH. by apply allocate_point_inv.
  - destruct (refund_point_inv now st tid nid Hinv) as (st1 & -> & Hinv1).
    by apply IH.
Qed.
End tree_invariant.

(** X6.  Rank bounds are kept: if every node of the addressed tree has
    [0 <= current_rank <= max_rank], the same holds after any sequence of
    [allocate_point] and [refund_point] calls, cascades included. *)
Theorem run_ops_rank_bounds (ops : list engine_op) (st : state)
    (tree_id : string) (tree_index : nat) (t : tree) :
  list_find (λ t, t_id t = tree_id) (trees st) = Some (tree_index, t) →
  rank_bounds t →
  ∃ st' t',
    run_ops ops st = Some st'
    ∧ find_tree st' tree_id = Some t'
    ∧ rank_bounds t'.
Proof.
  intros Hfind Hbounds.
  destruct (run_ops_inv rank_bounds tree_index tree_id) with (ops := ops) (st := st)
    as (st' & Hrun & t' & Hfind' & Hbounds').
  - intros t0 i n Hb Hn Hlt _. apply Forall_insert; [done|].
    pose proof (Forall_lookup_1 _ _ _ _ Hb Hn) as Hr. cbn in Hr |- *. lia.
  - intros t0 i n Hb Hn Hpos. apply Forall_insert; [done|].
    pose proof (Forall_lookup_1 _ _ _ _ Hb Hn) as Hr. cbn in Hr |- *. lia.
  - intros t0 i n Hb Hn Hpos. apply Forall_insert; [done|].
    pose proof (Forall_lookup_1 _ _ _ _ Hb Hn) as Hr. cbn in Hr |- *. lia.
  - by exists t.
  - exists st', t'. split; [done|]. split; [|done].
    unfold find_tree. by rewrite Hfind'.
Qed.

Lemma run_ops_rank_bounds_witness :
  ∃ st' t',
    run_ops [OpAllocate "d1" "t" "A"; OpAllocate "d2" "t" "A"; OpRefund "d3" "t" "B"]
            (example_state "play" locked_tree) = Some st'
    ∧ find_tree st' "t" = Some t'
    ∧ rank_bounds t'.
Proof.
  apply (run_ops_rank_bounds _ _ "t" 0 locked_tree); [reflexivity|].
  repeat constructor; cbn; lia.
Defined.






(** ** Completeness of the cycle search *)

Lemma is_cycle_successor (E : string → string → Prop) (cycle : list string)
    (x : string) :
  is_cycle E cycle → x ∈ cycle → ∃ y, y ∈ cycle ∧ E x y.
Proof.
  intros [Hstep (a & b & Hlast & Hhead & Hab)] Hx.
  apply list_elem_of_lookup in Hx as [i Hi].
  destruct (cycle !! S i) as [y|] eqn:Hy.
  - exists y. split; [by eapply list_elem_of_lookup_2|by eapply Hstep].
  - exists b. split.
    + destruct cycle; [done|]. injection Hhead as ->. left.
    + apply lookup_ge_None in Hy. apply lookup_lt_Some in Hi as Hlt.
      rewrite last_lookup in Hlast.
      replace (pred (length cycle)) with i in Hlast by lia.
      rewrite Hi in Hlast. by injection Hlast as ->.
Qed.

Section dfs_completeness.
Context (adjacency : gmap string (list string)).
Local Abbreviation E := (adj_edge adjacency).

Lemma dfs_neighbors_complete (visit : string → dfs_state → dfs_result)
    (neighbors : list string) (s : dfs_state) :
  (∀ nb s0, dfs_settled E s0 → nb ∉ visited s0 → dfs_finished E s0 nb (visit nb s0)) →
  dfs_settled E s →
  match dfs_neighbors visit neighbors s with
  | DfsNull s' =>
      rec_stack s' = rec_stack s
      ∧ visited s ⊆ visited s'
      ∧ dfs_settled E s'
      ∧ ∀ nb, nb ∈ neighbors → nb ∈ visited s' ∧ nb ∉ rec_stack s'
  | _ => True
  end.
Proof.
  intros Hvisit. revert s.
  induction neighbors as [|nb rest IH]; intros s Hset.
  { cbn. split_and!; [done..|]. intros nb Hnb. by apply elem_of_nil in Hnb. }
  cbn [dfs_neighbors].
  destruct (decide (nb ∉ visited s)) as [Hnew|Hold].
  - pose proof (Hvisit nb s Hset Hnew) as Hfin.
    destruct (visit nb s) as [cycle|s1|]; [done| |done].
    destruct Hfin as (Hstack1 & Hmono1 & Hnb1 & Hset1).
    specialize (IH s1 Hset1).
    destruct (dfs_neighbors visit rest s1) as [cycle|s'|]; [done| |done].
    destruct IH as (Hstack' & Hmono' & Hset' & Hrest).
    split_and!; [congruence|set_solver|done|].
    intros nb' [->|Hin]%elem_of_cons; [|by apply Hrest].
    split; [set_solver|]. rewrite Hstack', Hstack1.
    destruct Hset as [Hsub _]. set_solver.
  - destruct (decide (nb ∈ rec_stack s)) as [Hon|Hoff]; [done|].
    specialize (IH s Hset).
    destruct (dfs_neighbors visit rest s) as [cycle|s'|]; [done| |done].
    destruct IH as (Hstack' & Hmono' & Hset' & Hrest).
    split_and!; [done..|].
    intros nb' [->|Hin]%elem_of_cons; [|by apply Hrest].
    split; [|by rewrite Hstack'].
    apply Hmono'. by apply dec_stable.
Qed.

Lemma dfs_complete (fuel : nat) (node_id : string) (s : dfs_state) :
  dfs_settled E s →
  node_id ∉ visited s →
  dfs_finished E s node_id (dfs fuel adjacency node_id s).
Proof.
  revert node_id s. induction fuel as [|fuel IH]; intros node_id s Hset Hnew; [done|].
  rewrite dfs_S.
  destruct Hset as [Hsub Hcyc].
  assert (dfs_settled E (mk_dfs_state ({[node_id]} ∪ visited s)
                                      ({[node_id]} ∪ rec_stack s)
                                      (path s ++ [node_id]))) as Hset1.
  { split; cbn [visited rec_stack]; [set_solver|].
    intros cycle x Hcycle Hx [->%elem_of_singleton|Hvis]%elem_of_union; [set_solver|].
    apply elem_of_union_r. by eapply Hcyc. }
  pose proof (dfs_neighbors_complete (dfs fuel adjacency)
                (default [] (adjacency !! node_id)) _ IH Hset1) as Hloop.
  destruct (dfs_neighbors _ _ _) as [cycle|s2|]; [done| |done].
  cbn [visited rec_stack] in Hloop.
  destruct Hloop as (Hstack2 & Hmono2 & [Hsub2 Hcyc2] & Hnbs).
  unfold dfs_finished. cbn [visited rec_stack].
  split_and!.
  - rewrite Hstack2. set_solver.
  - set_solver.
  - set_solver.
  - split; cbn [visited rec_stack]; [set_solver|].
    intros cycle x Hcycle Hx Hvis.
    destruct (decide (x = node_id)) as [->|Hne].
    + destruct (is_cycle_successor E cycle node_id Hcycle Hx)
        as (y & Hy & targets & Htargets & Hin).
      rewrite Htargets in Hnbs. cbn in Hnbs.
      destruct (Hnbs y Hin) as [Hyvis Hyoff].
      destruct Hyoff. by eapply Hcyc2.
    + apply elem_of_difference. split; [by eapply Hcyc2|set_solver].
Qed.

Lemma dfs_roots_complete (fuel : nat) (ns : list node) (s : dfs_state) :
  dfs_settled E s →
  match dfs_roots (dfs fuel adjacency) ns s with
  | DfsNull s' =>
      rec_stack s' = rec_stack s
      ∧ visited s ⊆ visited s'
      ∧ dfs_settled E s'
      ∧ ∀ n, n ∈ ns → n_id n ∈ visited s'
  | _ => True
  end.
Proof.
  revert s. induction ns as [|n rest IH]; intros s Hset.
  { cbn. split_and!; [done..|]. intros n Hn. by apply elem_of_nil in Hn. }
  cbn [dfs_roots].
  destruct (decide (n_id n ∉ visited s)) as [Hnew|Hold].
  - pose proof (dfs_complete fuel (n_id n) s Hset Hnew) as Hfin.
    destruct (dfs fuel adjacency (n_id n) s) as [cycle|s1|]; [done| |done].
    destruct Hfin as (Hstack1 & Hmono1 & Hn1 & Hset1).
    specialize (IH s1 Hset1).
    destruct (dfs_roots _ rest s1) as [cycle|s'|]; [done| |done].
    destruct IH as (Hstack' & Hmono' & Hset' & Hrest).
    split_and!; [congruence|set_solver|done|].
    intros n' [->|Hin]%elem_of_cons; [set_solver|by apply Hrest].
  - specialize (IH s Hset).
    destruct (dfs_roots _ rest s) as [cycle|s'|]; [done| |done].
    destruct IH as (Hstack' & Hmono' & Hset' & Hrest).
    split_and!; [done..|].
    intros n' [->|Hin]%elem_of_cons; [|by apply Hrest].
    apply Hmono'. by apply dec_stable.
Qed.
End dfs_completeness.

Lemma detect_cycle_fuel_complete (t : tree) (fuel : nat) (s : dfs_state)
    (cycle : list string) :
  detect_cycle_fuel fuel t = DfsNull s →
  ¬ is_cycle (adj_edge (build_adjacency t)) cycle.
Proof.
  intros Hnull Hcycle. unfold detect_cycle_fuel in Hnull.
  pose proof (dfs_roots_complete (build_adjacency t) fuel (nodes t)
                (mk_dfs_state ∅ ∅ [])) as Hroots.
  rewrite Hnull in Hroots. cbn [visited rec_stack] in Hroots.
  destruct Hroots as (Hstack & _ & [_ Hcyc] & Hall).
  { split; cbn; [done|]. intros ? x _ _ Hx. by apply elem_of_empty in Hx. }
  pose proof Hcycle as (_ & x & y & Hlast & _ & targets & Htargets & _).
  assert (x ∈ cycle) as Hx.
  { rewrite last_lookup in Hlast. by eapply list_elem_of_lookup_2. }
  assert (x ∈ visited s) as Hvis.
  { rewrite build_adjacency_lookup in Htargets.
    destruct (decide (x ∈ n_id <$> nodes t)) as [Hin|]; [|done].
    apply list_elem_of_fmap in Hin as (n & -> & Hn). by apply Hall. }
  specialize (Hcyc cycle x Hcycle Hx Hvis). rewrite Hstack in Hcyc.
  by apply elem_of_empty in Hcyc.
Qed.

Lemma is_cycle_adjacency (t : tree) (cycle : list string) :
  is_cycle (adj_edge (build_adjacency t)) cycle
  ↔ is_cycle (edge t) cycle ∧ Forall (λ x, x ∈ n_id <$> nodes t) cycle.
Proof.
  assert (∀ x y, adj_edge (build_adjacency t) x y
                 ↔ edge t x y ∧ x ∈ n_id <$> nodes t) as Hedge.
  { intros x y. unfold adj_edge, edge. rewrite build_adjacency_lookup. split.
    - intros (targets & Hlook & Hy).
      destruct (decide (x ∈ n_id <$> nodes t)) as [Hin|]; [|done].
      injection Hlook as <-.
      apply list_elem_of_fmap in Hy as (c & -> & Hc).
      apply list_elem_of_filter in Hc as [Hfrom Hc]. by eauto.
    - intros [(c & Hc & Hfrom & Hto) Hin].
      rewrite decide_True by done. eexists. split; [done|].
      apply list_elem_of_fmap. exists c. split; [done|].
      by apply list_elem_of_filter. }
  split.
  - intros Hcycle. split.
    + eapply is_cycle_mono; [|exact Hcycle]. intros x y Hxy. by apply Hedge.
    + apply Forall_forall. intros x Hx.
      destruct (is_cycle_successor _ cycle x Hcycle Hx) as (y & _ & Hxy).
      by apply Hedge in Hxy as [_ ?].
  - intros [[Hstep (a & b & Hlast & Hhead & Hab)] Hall].
    rewrite Forall_forall in Hall. split.
    + intros i x y Hx Hy. apply Hedge. split; [by eapply Hstep|].
      apply Hall. by eapply list_elem_of_lookup_2.
    + exists a, b. split_and!; [done..|]. apply Hedge. split; [done|].
      apply Hall. rewrite last_lookup in Hlast. by eapply list_elem_of_lookup_2.
Qed.

Lemma detect_cycle_None_adjacency (t : tree) :
  detect_cycle t = None ↔ ∀ cycle, ¬ is_cycle (adj_edge (build_adjacency t)) cycle.
Proof.
  unfold detect_cycle. split.
  - intros Hnone cycle.
    pose proof (detect_cycle_fuel_returns t 0) as Hret.
    rewrite Nat.add_0_r in Hret.
    destruct (detect_cycle_fuel (detect_cycle_depth t) t) as [c|s|] eqn:Hfuel;
      [done| |done].
    by eapply detect_cycle_fuel_complete.
  - intros Hacyclic.
    destruct (detect_cycle_fuel (detect_cycle_depth t) t) as [c|s|] eqn:Hfuel;
      [|done..].
    destruct (Hacyclic c). unfold detect_cycle_fuel in Hfuel.
    pose proof (dfs_roots_sound (build_adjacency t) (detect_cycle_depth t) (nodes t)
                  (mk_dfs_state ∅ ∅ [])) as Hsound.
    rewrite Hfuel in Hsound. destruct Hsound as [Hc _]; [|done|exact Hc].
    split_and!; cbn.
    + intros x. set_solver.
    + done.
    + apply NoDup_nil_2.
    + intros i x y Hx. by rewrite lookup_nil in Hx.
Qed.


(** ** What [is_valid] means *)

Lemma omap_eq_nil {A B} (f : A → option B) (l : list A) :
  omap f l = [] ↔ Forall (λ x, f x = None) l.
Proof.
  induction l as [|x l IH]; [by split; [constructor|]|].
  cbn [omap list_omap]. rewrite Forall_cons. destruct (f x) as [y|] eqn:Hfx.
  - split; [done|]. by intros [? _].
  - rewrite IH. naive_solver.
Qed.

Lemma mjoin_fmap_eq_nil {A B} (f : A → list B) (l : list A) :
  mjoin (f <$> l) = [] ↔ Forall (λ x, f x = []) l.
Proof.
  induction l as [|x l IH]; [by split; [constructor|]|].
  cbn. rewrite Forall_cons, <- IH. split.
  - by intros [? ?]%app_eq_nil.
  - intros [H1 H2]. rewrite H1. exact H2.
Qed.

Lemma duplicate_ids_nil (ids : list string) : duplicate_ids ids = [] ↔ NoDup ids.
Proof.
  unfold duplicate_ids. rewrite omap_eq_nil, Forall_lookup, NoDup_alt. split.
  - intros Hall i j x Hi Hj.
    pose proof (Hall i (i, x)) as Hfi. pose proof (Hall j (j, x)) as Hfj.
    rewrite list_lookup_imap, Hi in Hfi. rewrite list_lookup_imap, Hj in Hfj.
    specialize (Hfi eq_refl). specialize (Hfj eq_refl). cbn in Hfi, Hfj.
    destruct (decide (_ = Some i)) as [Hi'|]; [|done].
    destruct (decide (_ = Some j)) as [Hj'|]; [|done].
    congruence.
  - intros Hnodup i [i' x] Hlook.
    rewrite list_lookup_imap in Hlook.
    destruct (ids !! i) as [x'|] eqn:Hi; [|done]. cbn in Hlook.
    injection Hlook as <- <-. cbn.
    rewrite decide_True; [done|].
    assert (list_find (λ y, y = x') ids = Some (i, x')) as ->; [|done].
    apply list_find_Some. split_and!; [done..|].
    intros j y Hj Hlt ->. specialize (Hnodup i j x' Hi Hj). lia.
Qed.

Lemma connection_errors_nil (t : tree) :
  mjoin ((λ conn,
           (if decide (from_node_id conn ∈ n_id <$> nodes t) then []
            else [ERR_INVALID_CONNECTION_SOURCE (c_id conn) (from_node_id conn)])
           ++
           (if decide (to_node_id conn ∈ n_id <$> nodes t) then []
            else [ERR_INVALID_CONNECTION_TARGET (c_id conn) (to_node_id conn)]))
         <$> connections t) = []
  ↔ no_dangling t.
Proof.
  rewrite mjoin_fmap_eq_nil, Forall_forall. unfold no_dangling.
  apply forall_proper. intros c. apply forall_proper. intros Hc.
  do 2 case_decide; naive_solver.
Qed.

Lemma no_dangling_cycle (t : tree) (cycle : list string) :
  no_dangling t → is_cycle (edge t) cycle →
  Forall (λ x, x ∈ n_id <$> nodes t) cycle.
Proof.
  intros Hnd Hcycle. apply Forall_forall. intros x Hx.
  destruct (is_cycle_successor _ cycle x Hcycle Hx) as (y & _ & c & Hc & <- & _).
  by apply Hnd.
Qed.

Lemma validate_tree_sound (st : state) (tree_id : string) :
  is_valid (validate_tree st tree_id) = true
  ↔ ∃ t, find_tree st tree_id = Some t ∧ tree_sound t.
Proof.
  unfold validate_tree.
  destruct (find_tree st tree_id) as [t|]; [|cbn; naive_solver].
  cbn [is_valid]. rewrite bool_decide_eq_true.
  assert ((match detect_cycle t with
           | Some cycle => [ERR_CYCLIC_DEPENDENCY cycle]
           | None => []
           end = []) ↔ detect_cycle t = None) as Hcyc
    by (destruct (detect_cycle t); naive_solver).
  split.
  - intros (Hdup & (Hconn & Hcycle)%app_eq_nil)%app_eq_nil.
    apply fmap_nil_inv, duplicate_ids_nil in Hdup.
    apply connection_errors_nil in Hconn.
    pose proof (proj1 (detect_cycle_None_adjacency t) (proj1 Hcyc Hcycle)) as Hacyclic.
    exists t. split; [done|]. split_and!; [done..|].
    intros cycle Hc. apply (Hacyclic cycle), is_cycle_adjacency.
    split; [done|]. by apply no_dangling_cycle.
  - intros (? & [= <-] & Hnodup & Hnd & Hacyclic).
    apply duplicate_ids_nil in Hnodup. rewrite Hnodup. cbn [fmap list_fmap app].
    apply connection_errors_nil in Hnd. rewrite Hnd. cbn [app].
    apply Hcyc, detect_cycle_None_adjacency.
    intros cycle [Hc _]%is_cycle_adjacency. by apply (Hacyclic cycle).
Qed.

(** X9.  [validate_tree] answers [is_valid: true] exactly for a tree
    that exists, has no repeated node id, has no connection to or from a
    missing node, and whose connections form no cycle.  Warnings (pool
    mismatch, orphaned nodes) never affect [is_valid]. *)
Theorem validate_tree_valid (st : state) (tree_id : string) :
  is_valid (validate_tree st tree_id) = true
  ↔ ∃ t, find_tree st tree_id = Some t
         ∧ NoDup (n_id <$> nodes t)
         ∧ (∀ c, c ∈ connections t →
                 from_node_id c ∈ (n_id <$> nodes t)
                 ∧ to_node_id c ∈ (n_id <$> nodes t))
         ∧ ∀ cycle, ¬ is_cycle (edge t) cycle.
Proof. apply validate_tree_sound. Qed.

Lemma validate_tree_errors_nil (st : state) (tree_id : string) :
  errors (validate_tree st tree_id) = [] ↔ is_valid (validate_tree st tree_id) = true.
Proof.
  unfold validate_tree. destruct (find_tree st tree_id); [|done].
  cbn [errors is_valid]. by rewrite bool_decide_eq_true.
Qed.

Lemma find_tree_NoDup (st : state) (t : tree) :
  NoDup (t_id <$> trees st) → t ∈ trees st → find_tree st (t_id t) = Some t.
Proof.
  intros Hnodup [i Hi]%list_elem_of_lookup. unfold find_tree.
  assert (list_find (λ t0, t_id t0 = t_id t) (trees st) = Some (i, t)) as ->; [|done].
  apply list_find_Some. split_and!; [done..|].
  intros j y Hj Hlt Hid.
  rewrite NoDup_alt in Hnodup.
  assert (i = j); [|lia].
  apply (Hnodup i j (t_id t)); rewrite list_lookup_fmap.
  - by rewrite Hi.
  - rewrite Hj. cbn. by rewrite Hid.
Qed.

Lemma project_sound_valid (st : state) :
  state_is_valid (validate_state st) = true ↔ project_sound st.
Proof.
  unfold validate_state, project_sound. cbn [state_is_valid].
  rewrite bool_decide_eq_true. split.
  - intros (Htrees%fmap_nil_inv & Hdup%fmap_nil_inv)%app_eq_nil.
    apply duplicate_ids_nil in Hdup. split; [done|].
    intros t Ht. rewrite <- list_fmap_compose in Htrees.
    rewrite mjoin_fmap_eq_nil, Forall_forall in Htrees.
    specialize (Htrees t Ht). cbn in Htrees.
    apply validate_tree_errors_nil in Htrees as Hvalid.
    apply validate_tree_sound in Hvalid as (t' & Hfind & Hsound).
    rewrite find_tree_NoDup in Hfind by done. by injection Hfind as <-.
  - intros [Hnodup Hall].
    pose proof Hnodup as ->%duplicate_ids_nil. cbn [fmap list_fmap].
    rewrite app_nil_r, <- list_fmap_compose.
    assert (mjoin ((errors ∘ (λ t, validate_tree st (t_id t))) <$> trees st) = [])
      as ->; [|done].
    apply mjoin_fmap_eq_nil, Forall_forall. intros t Ht. cbn.
    apply validate_tree_errors_nil, validate_tree_sound.
    exists t. split; [|by apply Hall]. by apply find_tree_NoDup.
Qed.

(** X10.  [validate_state] answers [is_valid: true] exactly when no tree id
    repeats and every tree of the project is structurally sound.  (With a
    repeated id only the first tree of that id is ever examined, but the
    repetition itself is an error.) *)
Theorem validate_state_valid (st : state) :
  state_is_valid (validate_state st) = true
  ↔ NoDup (t_id <$> trees st) ∧ ∀ t, t ∈ trees st → tree_sound t.
Proof. apply project_sound_valid. Qed.

(** ** Resetting a tree *)

Lemma has_pool_mismatch_balanced (st : state) (tree_id : string) (t : tree) :
  find_tree st tree_id = Some t →
  js_strict_ne (calculate_spent_points t) (spent (point_pool t)) = false →
  has_pool_mismatch (validate_tree st tree_id) = false.
Proof.
  intros Hfind Hne. unfold validate_tree, has_pool_mismatch.
  rewrite Hfind. cbn [warnings]. rewrite Hne. cbn [app].
  destruct (_ && _); [|done].
  induction (nodes t) as [|n l IH]; [done|].
  cbn [omap list_omap]. destruct (negb _ && negb _); [|done]. done.
Qed.

Lemma calculate_spent_points_zero_ranks (ns : list node) (s : jsnum) :
  Forall (λ n, current_rank n = 0) ns →
  foldl (λ tot n, add_node_costs n tot) s ns = s.
Proof.
  induction 1 as [|n l Hn _ IH]; [done|].
  cbn [foldl]. unfold add_node_costs at 2. rewrite Hn. cbn [Z.to_nat seq foldl].
  exact IH.
Qed.

(** X11.  [reset_tree] leaves the addressed tree with every rank at 0 and
    [spent] at 0, whatever ranks, cost arrays and [spent] value it had
    before (even a NaN): the recomputed cost is 0 as well, so
    [validate_tree] reports no pool mismatch afterwards.  Node ids,
    connections and the pool total are untouched. *)
Theorem reset_tree_clears (now : string) (st : state) (tree_id : string) (t : tree) :
  find_tree st tree_id = Some t →
  ∃ t',
    find_tree (reset_tree now st tree_id) tree_id = Some t'
    ∧ Forall (λ n, current_rank n = 0) (nodes t')
    ∧ spent (point_pool t') = Num 0
    ∧ calculate_spent_points t' = Num 0
    ∧ has_pool_mismatch (validate_tree (reset_tree now st tree_id) tree_id) = false
    ∧ total (point_pool t') = total (point_pool t)
    ∧ n_id <$> nodes t' = n_id <$> nodes t
    ∧ connections t' = connections t.
Proof.
  intros Hfind. unfold find_tree in Hfind.
  destruct (list_find (λ t, t_id t = tree_id) (trees st)) as [[i t0]|] eqn:Hlist;
    [|done].
  injection Hfind as ->.
  set (t' := set_spent (set_nodes t ((λ n, set_current_rank n 0) <$> nodes t)) (Num 0)).
  assert (find_tree (reset_tree now st tree_id) tree_id = Some t') as Hfind'.
  { unfold reset_tree, find_tree, touch_modified, clone_state. cbn [trees].
    rewrite Hlist. cbn [set_trees trees]. fold t'.
    erewrite list_find_insert_same; [done|done|].
    apply list_find_Some in Hlist as (_ & Hid & _). exact Hid. }
  assert (Forall (λ n, current_rank n = 0) (nodes t')) as Hzero.
  { subst t'. cbn. apply Forall_fmap, Forall_true. done. }
  assert (calculate_spent_points t' = Num 0) as Hcalc
    by (by apply calculate_spent_points_zero_ranks).
  exists t'. split_and!; [done..| | | |].
  - eapply has_pool_mismatch_balanced; [done|]. by rewrite Hcalc.
  - done.
  - subst t'. cbn. rewrite <- list_fmap_compose. by apply list_fmap_ext.
  - done.
Qed.

Lemma reset_tree_clears_witness :
  ∃ t',
    find_tree (reset_tree "d" (example_state "play" (cascade_tree 1)) "t") "t" = Some t'
    ∧ Forall (λ n, current_rank n = 0) (nodes t')
    ∧ spent (point_pool t') = Num 0
    ∧ calculate_spent_points t' = Num 0
    ∧ has_pool_mismatch
        (validate_tree (reset_tree "d" (example_state "play" (cascade_tree 1)) "t") "t")
      = false
    ∧ total (point_pool t') = total (point_pool (cascade_tree 1))
    ∧ n_id <$> nodes t' = n_id <$> nodes (cascade_tree 1)
    ∧ connections t' = connections (cascade_tree 1).
Proof. apply (reset_tree_clears "d" _ "t" (cascade_tree 1)). reflexivity. Defined.

(** ** Removing a node *)

Lemma list_find_delete_other {A} (P : A → Prop) `{!∀ x, Decision (P x)}
    (l : list A) (i : nat) (x : A) :
  l !! i = Some x → ¬ P x →
  snd <$> list_find P (delete i l) = snd <$> list_find P l.
Proof.
  revert i. induction l as [|y l IH]; intros i Hi Hx; [done|].
  destruct i as [|i]; cbn in Hi |- *.
  - injection Hi as ->. rewrite decide_False by done.
    by destruct (list_find P l) as [[? ?]|].
  - destruct (decide (P y)); [done|].
    specialize (IH i Hi Hx).
    destruct (list_find P (delete i l)) as [[? ?]|],
             (list_find P l) as [[? ?]|]; cbn in *; congruence.
Qed.

Lemma remove_node_shape (now : string) (s : session) (tree_id node_id : string)
    (tree_index node_index : nat) (t : tree) (n : node) :
  list_find (λ t, t_id t = tree_id) (trees (engine_state s)) = Some (tree_index, t) →
  list_find (λ n, n_id n = node_id) (nodes t) = Some (node_index, n) →
  remove_node now s tree_id node_id
  = mk_session
      (mk_state now (settings (engine_state s))
         (<[tree_index :=
              set_connections (set_nodes t (delete node_index (nodes t)))
                (filter (λ conn, from_node_id conn ≠ node_id ∧ to_node_id conn ≠ node_id)
                        (connections t))]> (trees (engine_state s)))
         (mode (engine_state s)))
      (active_tree_id s)
      (if decide (selected_node_id s = Some node_id) then None else selected_node_id s).
Proof.
  intros Htree Hnode. unfold remove_node, touch_modified, clone_state.
  cbn [trees]. by rewrite Htree, Hnode.
Qed.

(** X12.  [remove_node] takes the first node of that id out of the tree
    together with every connection that starts or ends at it, and nothing
    else: the other nodes are found as before, a structurally sound tree
    stays sound (no connection is left dangling), the selection no longer
    names the node, and with unique ids the id is gone. *)
Theorem remove_node_removes (now : string) (s : session) (tree_id node_id : string)
    (t : tree) (n : node) :
  find_tree (engine_state s) tree_id = Some t →
  find_node (engine_state s) tree_id node_id = Some n →
  ∃ t',
    find_tree (engine_state (remove_node now s tree_id node_id)) tree_id = Some t'
    ∧ (∀ c, c ∈ connections t'
            ↔ c ∈ connections t ∧ from_node_id c ≠ node_id ∧ to_node_id c ≠ node_id)
    ∧ (∀ m, m ≠ node_id →
            find_node (engine_state (remove_node now s tree_id node_id)) tree_id m
            = find_node (engine_state s) tree_id m)
    ∧ (NoDup (n_id <$> nodes t) → node_id ∉ n_id <$> nodes t')
    ∧ (tree_sound t → tree_sound t')
    ∧ selected_node_id (remove_node now s tree_id node_id) ≠ Some node_id
    ∧ active_tree_id (remove_node now s tree_id node_id) = active_tree_id s.
Proof.
  intros Hfind Hnode. unfold find_node in Hnode. rewrite Hfind in Hnode.
  unfold find_tree in Hfind.
  destruct (list_find (λ t, t_id t = tree_id) (trees (engine_state s)))
    as [[tree_index t0]|] eqn:Htree; [|done].
  injection Hfind as ->.
  destruct (list_find (λ n, n_id n = node_id) (nodes t)) as [[node_index n0]|]
    eqn:Hlist; [|done].
  injection Hnode as ->.
  rewrite (remove_node_shape now s tree_id node_id tree_index node_index t n)
    by done.
  cbn [engine_state selected_node_id active_tree_id].
  pose proof Htree as (_ & Htid & _)%list_find_Some.
  pose proof Hlist as (Hn & Hnid & _)%list_find_Some.
  set (t' := set_connections (set_nodes t (delete node_index (nodes t)))
               (filter (λ conn, from_node_id conn ≠ node_id ∧ to_node_id conn ≠ node_id)
                       (connections t))).
  assert (find_tree (mk_state now (settings (engine_state s))
                       (<[tree_index := t']> (trees (engine_state s)))
                       (mode (engine_state s))) tree_id = Some t') as Hfind'.
  { unfold find_tree. cbn [trees].
    by erewrite list_find_insert_same. }
  assert (∀ x, x ∈ n_id <$> nodes t → x ≠ node_id → x ∈ n_id <$> nodes t') as Hkeep.
  { intros x Hx Hne. subst t'. cbn [nodes set_connections set_nodes].
    rewrite <- (take_drop_middle _ _ _ Hn) in Hx.
    rewrite delete_take_drop. rewrite fmap_app in Hx |- *. rewrite fmap_cons in Hx.
    set_solver. }
  exists t'. split_and!.
  - exact Hfind'.
  - intros c. subst t'. cbn [connections set_connections].
    rewrite list_elem_of_filter. naive_solver.
  - intros m Hm. unfold find_node. rewrite Hfind'.
    unfold find_tree. rewrite Htree. cbn [fmap option_fmap option_map snd].
    subst t'. cbn [nodes set_connections set_nodes].
    apply (list_find_delete_other _ _ _ n); [done|]. congruence.
  - intros Hnodup. subst t'. cbn [nodes set_connections set_nodes].
    rewrite <- (take_drop_middle _ _ _ Hn) in Hnodup.
    rewrite fmap_app, fmap_cons, Hnid in Hnodup.
    apply NoDup_app in Hnodup as (_ & Hleft & [Hright _]%NoDup_cons).
    rewrite delete_take_drop, fmap_app. intros [Hin|Hin]%elem_of_app.
    + apply (Hleft node_id Hin). left.
    + done.
  - intros (Hnodup & Hnd & Hacyclic). split_and!.
    + subst t'. cbn [nodes set_connections set_nodes].
      rewrite list_fmap_delete. eapply sublist_NoDup; [done|apply sublist_delete].
    + intros c Hc. subst t'. cbn [connections set_connections] in Hc.
      apply list_elem_of_filter in Hc as [[Hfrom Hto] Hc].
      destruct (Hnd c Hc). split; by apply Hkeep.
    + intros cycle Hcycle. apply (Hacyclic cycle).
      eapply is_cycle_mono; [|exact Hcycle].
      intros x y (c & Hc & Hx & Hy). exists c. split; [|done].
      subst t'. cbn [connections set_connections] in Hc.
      by apply list_elem_of_filter in Hc as [_ Hc].
  - case_decide; [done|]. done.
  - done.
Qed.

Lemma remove_node_removes_witness :
  ∃ t',
    find_tree (engine_state (remove_node "d" selected_session "t" "A")) "t" = Some t'
    ∧ (∀ c, c ∈ connections t'
            ↔ c ∈ connections connected_tree
              ∧ from_node_id c ≠ "A" ∧ to_node_id c ≠ "A")
    ∧ (∀ m, m ≠ "A" →
            find_node (engine_state (remove_node "d" selected_session "t" "A")) "t" m
            = find_node (engine_state selected_session) "t" m)
    ∧ (NoDup (n_id <$> nodes connected_tree) → "A" ∉ n_id <$> nodes t')
    ∧ (tree_sound connected_tree → tree_sound t')
    ∧ selected_node_id (remove_node "d" selected_session "t" "A") ≠ Some "A"
    ∧ active_tree_id (remove_node "d" selected_session "t" "A")
      = active_tree_id selected_session.
Proof.
  apply (remove_node_removes "d" selected_session "t" "A" connected_tree
           (example_node "A" 0)); reflexivity.
Defined.



(** ** Connections: adding and removing *)

Lemma add_connection_performed (now new_id : string) (st : state) (tree_id : string)
    (options : connection_options) (tree_index : nat) (t : tree) :
  list_find (λ t, t_id t = tree_id) (trees st) = Some (tree_index, t) →
  opt_from_node_id options ≠ "" →
  opt_to_node_id options ≠ "" →
  opt_from_node_id options ∈ (n_id <$> nodes t) →
  opt_to_node_id options ∈ (n_id <$> nodes t) →
  (opt_from_node_id options, opt_to_node_id options)
    ∉ (connection_pair <$> connections t) →
  ∃ c,
    add_connection now new_id st tree_id options
    = mk_state now (settings st)
        (<[tree_index := set_connections t (connections t ++ [c])]> (trees st))
        (mode st)
    ∧ c_id c = new_id
    ∧ from_node_id c = opt_from_node_id options
    ∧ to_node_id c = opt_to_node_id options.
Proof.
  intros Hfind Hfrom0 Hto0 Hfrom Hto Hnew.
  unfold add_connection, touch_modified, clone_state. cbn [trees].
  rewrite !bool_decide_eq_false_2 by done. cbn [orb].
  rewrite Hfind.
  rewrite (proj2 (existsb_node_id _ _) Hfrom), (proj2 (existsb_node_id _ _) Hto).
  cbn [negb orb].
  destruct (existsb _ (connections t)) eqn:Hdup.
  { by apply existsb_connection_pair in Hdup. }
  eexists. split; [reflexivity|].
  destruct (opt_required_rank options),
           (bool_decide (opt_logic options = Some "AND")
            || bool_decide (opt_logic options = Some "OR")); done.
Qed.

Lemma add_connection_cases (now new_id : string) (st : state) (tree_id : string)
    (options : connection_options) :
  add_connection now new_id st tree_id options = st
  ∨ ∃ tree_index t c,
      list_find (λ t, t_id t = tree_id) (trees st) = Some (tree_index, t)
      ∧ add_connection now new_id st tree_id options
        = mk_state now (settings st)
            (<[tree_index := set_connections t (connections t ++ [c])]> (trees st))
            (mode st)
      ∧ c_id c = new_id.
Proof.
  unfold add_connection, touch_modified, clone_state. cbn [trees].
  destruct (_ || _); [by left|].
  destruct (list_find _ (trees st)) as [[tree_index t]|]; [|by left].
  destruct (negb _ || negb _); [by left|].
  destruct (existsb _ (connections t)); [by left|].
  right. eexists tree_index, t, _. split; [done|]. split; [reflexivity|].
  destruct (opt_required_rank options),
           (bool_decide (opt_logic options = Some "AND")
            || bool_decide (opt_logic options = Some "OR")); done.
Qed.

(** X14.  [add_connection] does not look for cycles.  When the tree holds
    a chain of connections leading from the new connection's target back
    to its source (a single node when source and target coincide), the
    state it returns fails [validate_tree]: either the connection is added
    and closes the ring, or it was there already and so was the ring. *)
Theorem add_connection_closes_cycle (now new_id : string) (st : state)
    (tree_id : string) (options : connection_options) (t : tree)
    (chain : list string) :
  find_tree st tree_id = Some t →
  opt_from_node_id options ≠ "" →
  opt_to_node_id options ≠ "" →
  Forall (λ x, x ∈ n_id <$> nodes t) chain →
  (∀ i x y, chain !! i = Some x → chain !! S i = Some y → edge t x y) →
  head chain = Some (opt_to_node_id options) →
  last chain = Some (opt_from_node_id options) →
  is_valid (validate_tree (add_connection now new_id st tree_id options) tree_id)
  = false.
Proof.
  intros Hfind Hfrom0 Hto0 Hall Hchain Hhead Hlast.
  unfold find_tree in Hfind.
  destruct (list_find (λ t, t_id t = tree_id) (trees st)) as [[tree_index t0]|]
    eqn:Htree; [|done].
  injection Hfind as ->.
  rewrite Forall_forall in Hall.
  assert (opt_to_node_id options ∈ n_id <$> nodes t) as Hto.
  { apply Hall. destruct chain; [done|]. injection Hhead as ->. left. }
  assert (opt_from_node_id options ∈ n_id <$> nodes t) as Hfrom.
  { apply Hall. rewrite last_lookup in Hlast. by eapply list_elem_of_lookup_2. }
  apply not_true_is_false. intros Hvalid.
  apply validate_tree_sound in Hvalid as (t' & Hfind' & _ & _ & Hacyclic).
  apply (Hacyclic chain).
  destruct (decide ((opt_from_node_id options, opt_to_node_id options)
                    ∈ connection_pair <$> connections t)) as [Hdup|Hnew].
  - destruct (add_connection_shape now new_id st tree_id options)
      as [Hsame|(i & t1 & c & Hfind1 & _ & Hpair & _ & _ & Hnot)].
    + rewrite Hsame in Hfind'. unfold find_tree in Hfind'. rewrite Htree in Hfind'.
      injection Hfind' as <-. split; [done|].
      eexists _, _. split_and!; [done..|].
      apply list_elem_of_fmap in Hdup as (c & Hpair & Hc).
      injection Hpair as Hf Ht. by exists c.
    + rewrite Htree in Hfind1. injection Hfind1 as <- <-.
      by rewrite Hpair in Hnot.
  - destruct (add_connection_performed now new_id st tree_id options tree_index t)
      as (c & Heq & _ & Hcf & Hct); [done..|].
    rewrite Heq in Hfind'. unfold find_tree in Hfind'. cbn [trees] in Hfind'.
    erewrite list_find_insert_same in Hfind'; [|done|].
    2: { apply list_find_Some in Htree as (_ & Hid & _). exact Hid. }
    injection Hfind' as <-. split.
    + intros i x y Hx Hy. destruct (Hchain i x y Hx Hy) as (c' & Hc' & ? & ?).
      exists c'. split; [|done]. cbn [connections set_connections]. set_solver.
    + eexists _, _. split_and!; [done..|].
      exists c. split; [|done]. cbn [connections set_connections]. set_solver.
Qed.

Lemma add_connection_closes_cycle_witness :
  is_valid
    (validate_tree
       (add_connection "d" "c9" (example_state "edit" connected_tree) "t"
          (mk_connection_options "B" "A" None None)) "t")
  = false.
Proof.
  apply (add_connection_closes_cycle _ _ _ _ _ connected_tree ["A"; "B"]).
  - reflexivity.
  - done.
  - done.
  - repeat constructor; cbn; set_solver.
  - intros [|[|i]] x y Hx Hy; [|done..].
    injection Hx as <-. injection Hy as <-.
    exists (example_edge "A" "B"). split; [left|done].
  - reflexivity.
  - reflexivity.
Defined.

Lemma list_find_snoc_fresh {A} (P : A → Prop) `{!∀ x, Decision (P x)}
    (l : list A) (x : A) :
  Forall (λ y, ¬ P y) l → P x → list_find P (l ++ [x]) = Some (length l, x).
Proof.
  intros Hall Hx. apply list_find_Some. split_and!.
  - by rewrite lookup_app_r, Nat.sub_diag by lia.
  - done.
  - intros j y Hj Hlt. rewrite lookup_app_l in Hj by done.
    by eapply (Forall_lookup_1 _ _ _ _ Hall).
Qed.

(** X15.  Removing a connection right after adding it restores the trees,
    provided the id handed out for it is not already the id of a
    connection of that tree.  (With a colliding id [remove_connection]
    would take out the older connection instead.)  This holds whether or
    not [add_connection] accepted the connection. *)
Theorem remove_added_connection (now1 now2 new_id : string) (st : state)
    (tree_id : string) (options : connection_options) (t : tree) :
  find_tree st tree_id = Some t →
  new_id ∉ (c_id <$> connections t) →
  trees (remove_connection now2 (add_connection now1 new_id st tree_id options)
                           tree_id new_id)
  = trees st.
Proof.
  intros Hfind Hfresh. unfold find_tree in Hfind.
  destruct (list_find (λ t, t_id t = tree_id) (trees st)) as [[tree_index t0]|]
    eqn:Htree; [|done].
  injection Hfind as ->.
  pose proof Htree as (Ht & Htid & _)%list_find_Some.
  assert (Forall (λ c, ¬ c_id c = new_id) (connections t)) as Hall.
  { apply Forall_forall. intros c Hc Hid. apply Hfresh.
    apply list_elem_of_fmap. by exists c. }
  destruct (add_connection_cases now1 new_id st tree_id options)
    as [->|(i & t1 & c & Hfind1 & -> & Hcid)].
  - unfold remove_connection, touch_modified, clone_state. cbn [trees].
    rewrite Htree.
    destruct (list_find (λ c, c_id c = new_id) (connections t)) as [[j c]|] eqn:Hc;
      [|done].
    apply list_find_Some in Hc as (Hj & Hid & _).
    by destruct (Forall_lookup_1 _ _ _ _ Hall Hj).
  - rewrite Htree in Hfind1. injection Hfind1 as <- <-.
    unfold remove_connection, touch_modified, clone_state. cbn [trees].
    erewrite list_find_insert_same; [|done|done].
    cbn [connections set_connections].
    rewrite (list_find_snoc_fresh _ _ c Hall Hcid).
    cbn [set_trees trees set_connections].
    rewrite list_insert_insert_eq.
    replace (delete (length (connections t)) (connections t ++ [c]))
      with (connections t).
    2: { by rewrite (delete_middle (connections t) [] c), app_nil_r. }
    apply list_insert_id. rewrite Ht. by destruct t.
Qed.

Lemma remove_added_connection_witness :
  trees (remove_connection "d2"
           (add_connection "d1" "c9" (example_state "edit" connected_tree) "t"
              (mk_connection_options "B" "A" None None))
           "t" "c9")
  = trees (example_state "edit" connected_tree).
Proof.
  apply (remove_added_connection _ _ _ _ _ _ connected_tree); [reflexivity|].
  cbn. set_solver.
Defined.

(** ** What the reachability analysis computes *)

Lemma reach_outgoing_cons (st : state) (tree_id : string) (t : tree)
    (conn : connection) (rest : list connection) (reachable : gset string)
    (queue : list string) :
  reach_outgoing st tree_id t (conn :: rest) reachable queue
  = if decide (to_node_id conn ∈ reachable) then
      reach_outgoing st tree_id t rest reachable queue
    else
      match find_node st tree_id (to_node_id conn) with
      | None => None
      | Some target_node =>
          if can_reach t target_node (to_node_id conn) reachable then
            reach_outgoing st tree_id t rest ({[to_node_id conn]} ∪ reachable)
                           (queue ++ [to_node_id conn])
          else reach_outgoing st tree_id t rest reachable queue
      end.
Proof. done. Qed.

Lemma take_elem_of {A} (x : A) (n : nat) (l : list A) : x ∈ take n l → x ∈ l.
Proof. intros (i & Hi & _)%elem_of_take. by eapply list_elem_of_lookup_2. Qed.

Lemma blocked_mono (t : tree) (P Q : string → Prop) (x : string) (target : node) :
  (∀ y, Q y → P y) → blocked t P x target → blocked t Q x target.
Proof.
  intros HQP [Hand Hany]. split.
  - intros Hl. destruct (Hand Hl) as (c & Hc & Hto & Hnot).
    exists c. split_and!; [done..|]. intros HQ. by apply Hnot, HQP.
  - intros Hl c Hc Hto HQ. by apply (Hany Hl c Hc Hto), HQP.
Qed.

Section reachability_meaning.
Context (st : state) (tree_id : string) (t : tree).
Local Abbreviation unlockable := (unlockable st tree_id t).

Lemma can_reach_true (target : node) (x : string) (reachable : gset string) :
  find_node st tree_id x = Some target →
  (∀ y, y ∈ reachable → unlockable y) →
  can_reach t target x reachable = true →
  unlockable x.
Proof.
  intros Hfind Hsound. unfold can_reach.
  destruct (decide (logic_or_default target = "AND")) as [Hand|_].
  { intros Hall. rewrite forallb_forall in Hall.
    eapply unlockable_all; [done..|]. intros c Hc Hto.
    apply Hsound. eapply bool_decide_eq_true, Hall.
    apply list_elem_of_In, list_elem_of_filter. done. }
  assert (existsb (λ c, bool_decide (from_node_id c ∈ reachable))
                  (filter (λ c, to_node_id c = x) (connections t)) = true →
          logic_or_default target = "OR" ∨ logic_or_default target = "SUM" →
          unlockable x) as Hany.
  { intros (c & Hc & Hin)%existsb_exists Hl.
    apply list_elem_of_In, list_elem_of_filter in Hc as [Hto Hc].
    apply bool_decide_eq_true in Hin.
    eapply unlockable_any; [done..|]. by apply Hsound. }
  destruct (decide (logic_or_default target = "OR")); [by auto|].
  destruct (decide (logic_or_default target = "SUM")); [by auto|done].
Qed.

Lemma can_reach_false (target : node) (x : string) (reachable : gset string) :
  can_reach t target x reachable = false →
  blocked t (λ y, y ∈ reachable) x target.
Proof.
  unfold can_reach. intros Hcan. split.
  - intros Hand. rewrite decide_True in Hcan by done.
    apply not_true_iff_false in Hcan.
    rewrite forallb_forall in Hcan.
    destruct (decide (Exists (λ c, from_node_id c ∉ reachable)
                             (filter (λ c, to_node_id c = x) (connections t))))
      as [Hex|Hnex].
    + apply Exists_exists in Hex as (c & [Hto Hc]%list_elem_of_filter & Hout).
      by exists c.
    + destruct Hcan. intros c Hc%list_elem_of_In. apply bool_decide_eq_true.
      destruct (decide (from_node_id c ∈ reachable)) as [|Hout]; [done|].
      destruct Hnex. apply Exists_exists. by exists c.
  - intros Hl c Hc Hto Hin.
    assert (existsb (λ c, bool_decide (from_node_id c ∈ reachable))
                    (filter (λ c, to_node_id c = x) (connections t)) = true) as Hex.
    { apply existsb_exists. exists c. split.
      - by apply list_elem_of_In, list_elem_of_filter.
      - by apply bool_decide_eq_true. }
    rewrite Hex in Hcan.
    destruct (decide (logic_or_default target = "AND")) as [Hand|_].
    { destruct Hl as [Hl|Hl]; rewrite Hand in Hl; discriminate. }
    destruct (decide (logic_or_default target = "OR")); [done|].
    destruct (decide (logic_or_default target = "SUM")); [done|].
    by destruct Hl.
Qed.

Lemma reach_outgoing_inv (outgoing : list connection) (reachable : gset string)
    (queue : list string) (reachable' : gset string) (queue' : list string) :
  reach_outgoing st tree_id t outgoing reachable queue = Some (reachable', queue') →
  (∀ y, y ∈ reachable → unlockable y) →
  reachable ⊆ reachable'
  ∧ (∃ added, queue' = queue ++ added
              ∧ ∀ x, x ∈ reachable' ↔ x ∈ reachable ∨ x ∈ added)
  ∧ (∀ y, y ∈ reachable' → unlockable y)
  ∧ ∀ c, c ∈ outgoing →
         to_node_id c ∈ reachable'
         ∨ ∃ target, find_node st tree_id (to_node_id c) = Some target
                     ∧ blocked t (λ y, y ∈ reachable) (to_node_id c) target.
Proof.
  revert reachable queue.
  induction outgoing as [|conn rest IH]; intros reachable queue Hrun Hsound.
  { cbn in Hrun. injection Hrun as <- <-. split_and!; [done| |done|].
    - exists []. rewrite app_nil_r. split; [done|]. set_solver.
    - intros c Hc. by apply elem_of_nil in Hc. }
  rewrite reach_outgoing_cons in Hrun.
  destruct (decide (to_node_id conn ∈ reachable)) as [Hin|Hnew].
  { destruct (IH _ _ Hrun Hsound) as (Hsub & Hadded & Hsound' & Hdone).
    split_and!; [done..|].
    intros c [->|Hc]%elem_of_cons; [left; by apply Hsub|by apply Hdone]. }
  destruct (find_node st tree_id (to_node_id conn)) as [target|] eqn:Hfind; [|done].
  destruct (can_reach t target (to_node_id conn) reachable) eqn:Hcan.
  - assert (∀ y, y ∈ {[to_node_id conn]} ∪ reachable → unlockable y) as Hsound1.
    { intros y [->%elem_of_singleton|Hy]%elem_of_union; [|by apply Hsound].
      by eapply can_reach_true. }
    destruct (IH _ _ Hrun Hsound1) as (Hsub & (added & -> & Hadded) & Hsound' & Hdone).
    split_and!; [set_solver| |done|].
    + exists (to_node_id conn :: added). split; [by rewrite <- app_assoc|].
      intros x. rewrite Hadded. set_solver.
    + intros c [->|Hc]%elem_of_cons; [left; set_solver|].
      destruct (Hdone c Hc) as [?|(target' & ? & Hblocked)]; [by left|].
      right. exists target'. split; [done|].
      eapply blocked_mono; [|exact Hblocked]. set_solver.
  - destruct (IH _ _ Hrun Hsound) as (Hsub & Hadded & Hsound' & Hdone).
    split_and!; [done..|].
    intros c [->|Hc]%elem_of_cons; [|by apply Hdone].
    right. exists target. split; [done|]. by apply can_reach_false.
Qed.

Lemma reach_bfs_inv (fuel head : nat) (reachable : gset string)
    (queue : list string) (reachable' : gset string) :
  reach_bfs fuel st tree_id t head reachable queue = Some (Some reachable') →
  bfs_inv st tree_id t head reachable queue →
  reachable ⊆ reachable'
  ∧ (∀ y, y ∈ reachable' → unlockable y)
  ∧ ∀ x target, find_node st tree_id x = Some target → x ∉ reachable' →
                blocked t (λ y, y ∈ reachable') x target.
Proof.
  revert head reachable queue.
  induction fuel as [|fuel IH]; intros head reachable queue Hrun (Hqueue & Hsound & Hblocked).
  - cbn [reach_bfs] in Hrun. destruct (queue !! head) eqn:Hhead; [done|].
    injection Hrun as <-. split_and!; [done..|].
    intros x target Hfind Hout. eapply blocked_mono; [|by apply Hblocked].
    intros y Hy. cbn. apply lookup_ge_None in Hhead.
    rewrite take_ge by done. by apply Hqueue.
  - cbn [reach_bfs] in Hrun.
    destruct (queue !! head) as [current_id|] eqn:Hhead.
    2: { injection Hrun as <-. split_and!; [done..|].
         intros x target Hfind Hout. eapply blocked_mono; [|by apply Hblocked].
         intros y Hy. cbn. apply lookup_ge_None in Hhead.
         rewrite take_ge by done. by apply Hqueue. }
    destruct (reach_outgoing st tree_id t _ reachable queue) as [[r1 q1]|] eqn:Hstep;
      [|done].
    destruct (reach_outgoing_inv _ _ _ _ _ Hstep Hsound)
      as (Hsub & (added & -> & Hadded) & Hsound1 & Hdone).
    assert (current_id ∈ reachable) as Hcurrent
      by (apply Hqueue; by eapply list_elem_of_lookup_2).
    assert (take (S head) (queue ++ added) = take head queue ++ [current_id]) as Htake.
    { apply lookup_lt_Some in Hhead as Hlt.
      rewrite take_app_le by lia. by apply take_S_r. }
    destruct (IH (S head) r1 (queue ++ added) Hrun) as (Hsub' & Hfinal).
    2: { split; [set_solver|exact Hfinal]. }
    split_and!.
    + intros x. rewrite Hadded, elem_of_app, Hqueue. done.
    + done.
    + intros x target Hfind Hout. rewrite Htake.
      assert (x ∉ reachable) as Hout0 by set_solver.
      destruct (Hblocked x target Hfind Hout0) as [Hand Hany].
      assert (∀ c, c ∈ connections t → to_node_id c = x →
                   from_node_id c = current_id →
                   blocked t (λ y, y ∈ reachable) x target) as Hexamined.
      { intros c Hc Hto Hfrom.
        destruct (Hdone c) as [Hin|(target' & Hfind' & Hb)].
        - by apply list_elem_of_filter.
        - rewrite Hto in Hin. done.
        - rewrite Hto in Hfind', Hb. congruence. }
      split.
      * intros Hl. destruct (Hand Hl) as (c & Hc & Hto & Hnot).
        destruct (decide (from_node_id c = current_id)) as [Hfrom|Hne].
        -- destruct (Hexamined c Hc Hto Hfrom) as [Hand' _].
           destruct (Hand' Hl) as (c' & Hc' & Hto' & Hnot').
           exists c'. split_and!; [done..|].
           intros [Hin%take_elem_of|Hcur%list_elem_of_singleton]%elem_of_app.
           ++ by apply Hnot', Hqueue.
           ++ apply Hnot'. by rewrite Hcur.
        -- exists c. split_and!; [done..|].
           intros [Hin|Hin%list_elem_of_singleton]%elem_of_app; done.
      * intros Hl c Hc Hto.
        intros [Hin|Hfrom%list_elem_of_singleton]%elem_of_app.
        -- by apply (Hany Hl c Hc Hto).
        -- destruct (Hexamined c Hc Hto Hfrom) as [_ Hany'].
           apply (Hany' Hl c Hc Hto). by rewrite Hfrom.
Qed.

Lemma reach_roots_inv (ns : list node) (reachable : gset string)
    (queue : list string) :
  (∀ x, x ∈ reachable ↔ x ∈ queue) →
  let '(reachable', queue') :=
    foldl (λ '(reachable, queue) n,
             let incoming :=
               filter (λ c, to_node_id c = n_id n) (connections t) in
             if decide (length incoming = 0%nat)
             then ({[n_id n]} ∪ reachable, queue ++ [n_id n])
             else (reachable, queue))
          (reachable, queue) ns in
  (∀ x, x ∈ reachable' ↔ x ∈ queue')
  ∧ ∀ x, x ∈ reachable'
         ↔ x ∈ reachable
           ∨ ∃ n, n ∈ ns ∧ n_id n = x
                  ∧ filter (λ c, to_node_id c = x) (connections t) = [].
Proof.
  revert reachable queue.
  induction ns as [|n rest IH]; intros reachable queue Hqueue.
  { cbn. split; [done|]. intros x. split; [by left|].
    intros [?|(n & Hn & _)]; [done|]. by apply elem_of_nil in Hn. }
  cbn [foldl].
  destruct (decide (length (filter (λ c, to_node_id c = n_id n) (connections t))
                    = 0%nat)) as [Hroot|Hinner].
  - specialize (IH ({[n_id n]} ∪ reachable) (queue ++ [n_id n])).
    destruct (foldl _ _ rest) as [r' q'].
    destruct IH as [Hq Hr].
    { intros x. rewrite elem_of_union, elem_of_app, Hqueue.
      rewrite elem_of_singleton, list_elem_of_singleton. tauto. }
    split; [done|]. intros x. rewrite Hr. split.
    + intros [[->%elem_of_singleton|?]%elem_of_union|(m & Hm & Hid & Hno)].
      * right. exists n. split_and!; [left|done|]. by apply length_zero_iff_nil.
      * by left.
      * right. exists m. split_and!; [by right|done..].
    + intros [?|(m & [->|Hm]%elem_of_cons & Hid & Hno)].
      * left. set_solver.
      * left. set_solver.
      * right. by exists m.
  - specialize (IH reachable queue Hqueue).
    destruct (foldl _ _ rest) as [r' q'].
    destruct IH as [Hq Hr]. split; [done|]. intros x. rewrite Hr. split.
    + intros [?|(m & Hm & Hid & Hno)]; [by left|].
      right. exists m. split_and!; [by right|done..].
    + intros [?|(m & [->|Hm]%elem_of_cons & Hid & Hno)]; [by left| |].
      * subst x. rewrite Hno in Hinner. done.
      * right. by exists m.
Qed.
End reachability_meaning.

Lemma find_node_Some (st : state) (tree_id : string) (t : tree) (x : string) :
  find_tree st tree_id = Some t →
  (x ∈ n_id <$> nodes t ↔ ∃ n, find_node st tree_id x = Some n).
Proof.
  intros Hfind. unfold find_node. rewrite Hfind. split.
  - intros (n & -> & Hn)%list_elem_of_fmap.
    destruct (list_find_elem_of (λ m, n_id m = n_id n) (nodes t) n Hn eq_refl)
      as [[i m] Hm].
    exists m. by rewrite Hm.
  - intros [n Hn].
    destruct (list_find _ (nodes t)) as [[i m]|] eqn:Hm; [|done].
    injection Hn as ->. apply list_find_Some in Hm as (Hi & Hid & _).
    apply list_elem_of_fmap. exists n. split; [done|].
    by eapply list_elem_of_lookup_2.
Qed.

(** X16.  When every connection ends at an existing node,
    [check_tree_reachability] returns, and its [unreachable] list holds
    exactly the node ids outside the least set closed under: a node
    without incoming connections is in; an AND node is in once the sources
    of all its incoming connections are; an OR or SUM node once one of
    them is.  Ranks, required ranks and SUM thresholds play no part. *)
Theorem check_tree_reachability_meaning (st : state) (tree_id : string) (t : tree) :
  find_tree st tree_id = Some t →
  (∀ c, c ∈ connections t → to_node_id c ∈ (n_id <$> nodes t)) →
  ∃ unreachable,
    check_tree_reachability st tree_id = ReachDone unreachable
    ∧ ∀ x, x ∈ unreachable
           ↔ x ∈ (n_id <$> nodes t) ∧ ¬ unlockable st tree_id t x.
Proof.
  intros Hfind Htargets.
  destruct (check_tree_reachability_returns st tree_id) as [_ Hret].
  destruct (Hret t Hfind) as [unreachable Hdone].
  { intros c Hc. destruct (proj1 (find_node_Some st tree_id t _ Hfind) (Htargets c Hc))
      as [n Hn]. by exists n. }
  exists unreachable. split; [done|].
  unfold check_tree_reachability in Hdone. rewrite Hfind in Hdone.
  pose proof (reach_roots_inv t (nodes t) ∅ []) as Hroots.
  destruct (foldl _ _ (nodes t)) as [r0 q0].
  destruct Hroots as [Hq0 Hr0]; [set_solver|].
  destruct (reach_bfs _ st tree_id t 0 r0 q0) as [[r'|]|] eqn:Hbfs; [|done..].
  injection Hdone as <-.
  destruct (reach_bfs_inv st tree_id t _ 0 r0 q0 r' Hbfs) as (Hsub & Hsound & Hblocked).
  { split_and!; [done| |].
    - intros y [Hy|(n & Hn & <- & Hno)]%Hr0; [set_solver|].
      apply unlockable_root; [done|].
      intros c Hc Hto.
      assert (c ∈ filter (λ c, to_node_id c = n_id n) (connections t)) as Hin
        by (by apply list_elem_of_filter).
      rewrite Hno in Hin. by apply elem_of_nil in Hin.
    - intros x target Hx Hout. cbn [take]. split.
      + intros _.
        destruct (filter (λ c, to_node_id c = x) (connections t)) as [|c l] eqn:Hinc.
        * destruct Hout. apply Hr0. right.
          unfold find_node in Hx. rewrite Hfind in Hx.
          destruct (list_find _ (nodes t)) as [[i m]|] eqn:Hm; [|done].
          injection Hx as ->. apply list_find_Some in Hm as (Hi & Hid & _).
          exists target. split_and!; [by eapply list_elem_of_lookup_2|done..].
        * assert (c ∈ filter (λ c, to_node_id c = x) (connections t)) as Hc
            by (rewrite Hinc; left).
          apply list_elem_of_filter in Hc as [Hto Hc].
          exists c. split_and!; [done..|]. by intros ?%elem_of_nil.
      + intros _ c _ _. by intros ?%elem_of_nil. }
  assert (∀ x, unlockable st tree_id t x → x ∈ r') as Hcomplete.
  { intros x Hx. induction Hx as [n Hn Hno|x target Hx Hl Hall IH|x target c Hx Hl Hc Hto Hfrom IH].
    - apply Hsub, Hr0. right. exists n. split_and!; [done..|].
      destruct (filter _ (connections t)) as [|c l] eqn:Hinc; [done|].
      assert (c ∈ filter (λ c, to_node_id c = n_id n) (connections t)) as Hc
        by (rewrite Hinc; left).
      apply list_elem_of_filter in Hc as [Hto Hc]. by destruct (Hno c Hc).
    - destruct (decide (x ∈ r')) as [|Hout]; [done|].
      destruct (Hblocked x target Hx Hout) as [Hand _].
      destruct (Hand Hl) as (c & Hc & Hto & Hnot). destruct Hnot. by apply IH.
    - destruct (decide (x ∈ r')) as [|Hout]; [done|].
      destruct (Hblocked x target Hx Hout) as [_ Hany].
      by destruct (Hany Hl c Hc Hto). }
  intros x. rewrite list_elem_of_fmap. split.
  - intros (n & -> & [Hout Hn]%list_elem_of_filter). split.
    + apply list_elem_of_fmap. by exists n.
    + intros Hx. by apply Hout, Hcomplete.
  - intros [(n & -> & Hn)%list_elem_of_fmap Hnot].
    exists n. split; [done|]. apply list_elem_of_filter. split; [|done].
    intros Hin. by apply Hnot, Hsound.
Qed.

Lemma check_tree_reachability_meaning_witness :
  ∃ unreachable,
    check_tree_reachability (example_state "play" triangle_tree) "t"
      = ReachDone unreachable
    ∧ ∀ x, x ∈ unreachable
           ↔ x ∈ (n_id <$> nodes triangle_tree)
             ∧ ¬ unlockable (example_state "play" triangle_tree) "t" triangle_tree x.
Proof.
  apply (check_tree_reachability_meaning _ "t" triangle_tree); [reflexivity|].
  intros c Hc. cbn in Hc |- *. set_solver.
Defined.

(** ** Prerequisites only get easier as ranks rise *)

Lemma check_prerequisites_unfold (st : state) (tree_id node_id : string) :
  check_prerequisites st tree_id node_id
  = match find_tree st tree_id with
    | None => false
    | Some t =>
        let incoming := filter (λ c, to_node_id c = node_id) (connections t) in
        if decide (length incoming = 0%nat) then true
        else
          match find_node st tree_id node_id with
          | None => false
          | Some n =>
              if decide (logic_or_default n = "AND") then
                forallb (is_connection_satisfied st tree_id) incoming
              else if decide (logic_or_default n = "OR") then
                existsb (is_connection_satisfied st tree_id) incoming
              else if decide (logic_or_default n = "SUM") then
                threshold_or_default n <=? sum_source_ranks st tree_id incoming
              else true
          end
    end.
Proof.
  unfold check_prerequisites. cbn [check_prerequisites_fuel].
  destruct (find_tree st tree_id) as [t|]; [|done]. cbn zeta.
  case_decide; [done|].
  destruct (find_node st tree_id node_id) as [n|]; [|done].
  repeat case_decide; try done.
  - rewrite (every_opt_forallb _ (is_connection_satisfied st tree_id)); [done|].
    intros c _. apply (is_connection_satisfied_fuel_total st tree_id 0).
  - rewrite (some_opt_existsb _ (is_connection_satisfied st tree_id)); [done|].
    intros c _. apply (is_connection_satisfied_fuel_total st tree_id 0).
Qed.

Lemma is_connection_satisfied_unfold (st : state) (tree_id : string)
    (conn : connection) :
  is_connection_satisfied st tree_id conn
  = match find_node st tree_id (to_node_id conn),
          find_node st tree_id (from_node_id conn) with
    | Some to_node, Some from_node =>
        if decide (prerequisite_logic to_node = "SUM")
        then check_prerequisites st tree_id (to_node_id conn)
        else required_rank conn <=? current_rank from_node
    | _, _ => false
    end.
Proof.
  unfold is_connection_satisfied. cbn [is_connection_satisfied_fuel].
  destruct (find_node st tree_id (to_node_id conn)) as [to_node|] eqn:Hto; [|done].
  destruct (find_node st tree_id (from_node_id conn)) as [from_node|]; [|done].
  case_decide as Hsum; [|done].
  unfold check_prerequisites. cbn [check_prerequisites_fuel].
  destruct (find_tree st tree_id); [|done].
  case_decide; [done|]. rewrite Hto.
  assert (logic_or_default to_node = "SUM") as ->
    by (unfold logic_or_default; by rewrite Hsum).
  done.
Qed.

Section rank_monotonicity.
Context (st st' : state) (tree_id : string).
Context (Hgrow : ranks_grow st st' tree_id).

Lemma sum_source_ranks_mono (incoming : list connection) :
  sum_source_ranks st tree_id incoming ≤ sum_source_ranks st' tree_id incoming.
Proof.
  unfold sum_source_ranks.
  assert (∀ a a', a ≤ a' →
            foldl (λ total_rank conn,
                     match find_node st tree_id (from_node_id conn) with
                     | Some from_node => total_rank + current_rank from_node
                     | None => total_rank
                     end) a incoming
            ≤ foldl (λ total_rank conn,
                       match find_node st' tree_id (from_node_id conn) with
                       | Some from_node => total_rank + current_rank from_node
                       | None => total_rank
                       end) a' incoming) as Hgen; [|by apply Hgen].
  induction incoming as [|c l IH]; intros a a' Hle; [done|].
  cbn [foldl]. apply IH.
  destruct Hgrow as [_ Hnodes]. specialize (Hnodes (from_node_id c)).
  destruct (find_node st tree_id (from_node_id c)),
           (find_node st' tree_id (from_node_id c)); try done; lia.
Qed.

Lemma check_prerequisites_mono (node_id : string) :
  check_prerequisites st tree_id node_id = true →
  check_prerequisites st' tree_id node_id = true.
Proof.
  assert (∀ x n n',
            find_node st tree_id x = Some n → find_node st' tree_id x = Some n' →
            prerequisite_logic n = "SUM" →
            check_prerequisites st tree_id x = true →
            check_prerequisites st' tree_id x = true) as Hsum.
  { intros x n n' Hn Hn' Hl. rewrite !check_prerequisites_unfold.
    destruct Hgrow as [(t & t' & -> & -> & ->) Hnodes]. cbn zeta.
    case_decide; [done|]. rewrite Hn, Hn'.
    specialize (Hnodes x). rewrite Hn, Hn' in Hnodes.
    destruct Hnodes as (Hl' & Hth & _).
    assert (logic_or_default n = "SUM") as ->
      by (unfold logic_or_default; by rewrite Hl).
    assert (logic_or_default n' = "SUM") as ->
      by (unfold logic_or_default; by rewrite Hl', Hl).
    assert (threshold_or_default n' = threshold_or_default n) as ->
      by (unfold threshold_or_default; by rewrite Hth).
    repeat case_decide; try done. rewrite !Z.leb_le.
    pose proof (sum_source_ranks_mono
                  (filter (λ c, to_node_id c = x) (connections t))). lia. }
  assert (∀ c, is_connection_satisfied st tree_id c = true →
               is_connection_satisfied st' tree_id c = true) as Hconn.
  { intros c. rewrite !is_connection_satisfied_unfold.
    destruct Hgrow as [_ Hnodes].
    pose proof (Hnodes (to_node_id c)) as Hto.
    pose proof (Hnodes (from_node_id c)) as Hfrom.
    destruct (find_node st tree_id (to_node_id c)) as [to_node|] eqn:Hn,
             (find_node st' tree_id (to_node_id c)) as [to_node'|] eqn:Hn';
      try done.
    destruct (find_node st tree_id (from_node_id c)) as [from_node|],
             (find_node st' tree_id (from_node_id c)) as [from_node'|];
      try done.
    destruct Hto as (Hl & _ & _). destruct Hfrom as (_ & _ & Hrank).
    rewrite Hl. case_decide as Hs.
    - by apply (Hsum _ to_node to_node').
    - rewrite !Z.leb_le. lia. }
  rewrite !check_prerequisites_unfold.
  destruct Hgrow as [(t & t' & Ht & Ht' & Hconns) Hnodes].
  rewrite Ht, Ht', Hconns. cbn zeta.
  case_decide; [done|].
  specialize (Hnodes node_id).
  destruct (find_node st tree_id node_id) as [n|] eqn:Hn,
           (find_node st' tree_id node_id) as [n'|] eqn:Hn'; try done.
  destruct Hnodes as (Hl & Hth & _).
  assert (logic_or_default n' = logic_or_default n) as ->
    by (unfold logic_or_default; by rewrite Hl).
  assert (threshold_or_default n' = threshold_or_default n) as ->
    by (unfold threshold_or_default; by rewrite Hth).
  repeat case_decide; try done.
  - rewrite !forallb_forall. intros Hall c Hc. by apply Hconn, Hall.
  - rewrite !existsb_exists. intros (c & Hc & Hsat). exists c. by auto.
  - rewrite !Z.leb_le.
    pose proof (sum_source_ranks_mono
                  (filter (λ c, to_node_id c = node_id) (connections t))). lia.
Qed.
End rank_monotonicity.

Lemma list_find_cons_eq {A} (P : A → Prop) `{!∀ x, Decision (P x)}
    (y : A) (l : list A) :
  list_find P (y :: l)
  = if decide (P y) then Some (0%nat, y) else prod_map S id <$> list_find P l.
Proof. done. Qed.

Lemma list_find_insert_same_key {A} (P : A → Prop) `{!∀ x, Decision (P x)}
    (l : list A) (j : nat) (n n' : A) :
  l !! j = Some n → (P n' ↔ P n) →
  list_find P (<[j := n']> l)
  = (λ '(k, m), (k, if decide (k = j) then n' else m)) <$> list_find P l.
Proof.
  revert j. induction l as [|y l IH]; intros j Hj Hiff; [done|].
  destruct j as [|j].
  - injection Hj as ->.
    change (<[0%nat := n']> (n :: l)) with (n' :: l).
    rewrite !list_find_cons_eq.
    destruct (decide (P n)) as [Hn|Hn].
    + rewrite decide_True by by apply Hiff. done.
    + rewrite decide_False by (by rewrite Hiff).
      destruct (list_find P l) as [[k m]|]; [|done]. done.
  - change (<[S j := n']> (y :: l)) with (y :: <[j := n']> l).
    rewrite !list_find_cons_eq.
    destruct (decide (P y)); [done|].
    rewrite (IH j Hj Hiff).
    destruct (list_find P l) as [[k m]|]; [|done]. cbn.
    f_equal. f_equal. destruct (decide (k = j)), (decide (S k = S j)); (done || lia).
Qed.

Lemma allocate_point_cases (now : string) (st : state) (tree_id node_id : string) :
  allocate_point now st tree_id node_id = st
  ∨ ∃ tree_index t node_index n,
      list_find (λ t, t_id t = tree_id) (trees st) = Some (tree_index, t)
      ∧ list_find (λ n, n_id n = node_id) (nodes t) = Some (node_index, n)
      ∧ current_rank n < max_rank n
      ∧ allocate_point now st tree_id node_id
        = mk_state now (settings st)
            (<[tree_index :=
                 set_spent
                   (set_nodes t (<[node_index := set_current_rank n (current_rank n + 1)]>
                                   (nodes t)))
                   (js_add (spent (point_pool t)) (get_allocation_cost n))]> (trees st))
            (mode st).
Proof.
  unfold allocate_point, touch_modified, clone_state. cbn [trees].
  destruct (list_find _ (trees st)) as [[tree_index t]|] eqn:Ht; [|by left].
  destruct (list_find _ (nodes t)) as [[node_index n]|] eqn:Hn; [|by left].
  destruct (max_rank n <=? current_rank n) eqn:Hmax; [by left|].
  destruct (js_lt _ _); [by left|].
  right. exists tree_index, t, node_index, n.
  split_and!; [done|done|by apply Z.leb_gt|done].
Qed.

Lemma allocate_point_ranks_grow (now : string) (st : state)
    (tree_id node_id : string) (t : tree) :
  find_tree st tree_id = Some t →
  ranks_grow st (allocate_point now st tree_id node_id) tree_id.
Proof.
  intros Hfind.
  destruct (allocate_point_cases now st tree_id node_id)
    as [->|(i & t0 & j & n & Ht & Hn & Hlt & ->)].
  { split; [by exists t, t|]. intros x. by destruct (find_node st tree_id x). }
  unfold find_tree in Hfind. rewrite Ht in Hfind. injection Hfind as ->.
  pose proof Ht as (_ & Htid & _)%list_find_Some.
  pose proof Hn as (Hj & Hnid & _)%list_find_Some.
  set (t' := set_spent _ _).
  assert (find_tree (mk_state now (settings st) (<[i := t']> (trees st)) (mode st))
                    tree_id = Some t') as Hfind'.
  { unfold find_tree. cbn [trees]. by erewrite list_find_insert_same. }
  split.
  - exists t, t'. split_and!; [|done..]. unfold find_tree. by rewrite Ht.
  - intros x. unfold find_node. rewrite Hfind'. unfold find_tree. rewrite Ht.
    cbn [fmap option_fmap option_map snd].
    subst t'. cbn [nodes set_spent set_nodes].
    rewrite (list_find_insert_same_key _ _ _ n) by done.
    destruct (list_find (λ m, n_id m = x) (nodes t)) as [[k m]|] eqn:Hm; [|done].
    cbn. case_decide as Hk; [|by split_and!; [done..|lia]].
    subst k. apply list_find_Some in Hm as (Hm & _).
    rewrite Hj in Hm. injection Hm as <-. cbn. split_and!; [done..|lia].
Qed.

(** X17.  Allocation behind the play-mode check keeps the tree
    consistent.  [allocate_point] itself never looks at prerequisites, but
    when [can_allocate_point] has answered yes outside edit mode (as the
    click handler requires), and every node holding a rank had its
    prerequisites satisfied before, the same is true after the
    allocation.  Underneath: raising a rank never turns a satisfied
    prerequisite into an unsatisfied one, for AND, OR and SUM alike. *)
Theorem gated_allocate_consistent (now : string) (st : state)
    (tree_id node_id : string) :
  mode st ≠ "edit" →
  can_allocate (can_allocate_point st tree_id node_id) = true →
  play_consistent st tree_id →
  play_consistent (allocate_point now st tree_id node_id) tree_id.
Proof.
  intros Hmode Hcan Hcons.
  unfold can_allocate_point, get_node_status in Hcan.
  destruct (find_tree st tree_id) as [t|] eqn:Hfind; [|done].
  destruct (find_node st tree_id node_id) as [n|] eqn:Hnode; [|done].
  rewrite decide_False in Hcan by done.
  assert (check_prerequisites st tree_id node_id = true) as Hsat.
  { by destruct (check_prerequisites st tree_id node_id). }
  pose proof (allocate_point_ranks_grow now st tree_id node_id t Hfind) as Hgrow.
  intros t' m Hfind' Hm Hpos.
  apply (check_prerequisites_mono st _ tree_id Hgrow).
  destruct (allocate_point_cases now st tree_id node_id)
    as [Hsame|(i & t0 & j & n0 & Ht & Hn & Hlt & Heq)].
  { rewrite Hsame in Hfind'. by eapply Hcons. }
  rewrite Heq in Hfind'. unfold find_tree in Hfind, Hfind'.
  rewrite Ht in Hfind. injection Hfind as ->.
  cbn [trees] in Hfind'.
  pose proof Ht as (_ & Htid & _)%list_find_Some.
  erewrite list_find_insert_same in Hfind'; [|done|done].
  injection Hfind' as <-. cbn [nodes set_spent set_nodes] in Hm.
  pose proof Hn as (Hj & Hnid & _)%list_find_Some.
  apply list_elem_of_lookup in Hm as [k Hk].
  destruct (decide (k = j)) as [->|Hne].
  - rewrite list_lookup_insert_eq in Hk by by eapply lookup_lt_Some.
    injection Hk as <-. cbn. by rewrite Hnid.
  - rewrite list_lookup_insert_ne in Hk by done.
    apply (Hcons t m); [unfold find_tree; by rewrite Ht| |done].
    by eapply list_elem_of_lookup_2.
Qed.

Lemma gated_allocate_consistent_witness :
  play_consistent
    (allocate_point "d" (example_state "play" (or_tree 1)) "t" "C") "t".
Proof.
  apply gated_allocate_consistent.
  - done.
  - reflexivity.
  - intros t n [= <-] Hn Hpos. cbn in Hn.
    apply elem_of_cons in Hn as [->|Hn]; [reflexivity|].
    apply elem_of_cons in Hn as [->|Hn]; [done|].
    apply list_elem_of_singleton in Hn as ->. done.
Defined.

(** ** The refund forecast and the cascade *)

Lemma find_blocking_dependents_elem (st : state) (tree_id node_id : string)
    (new_rank : Z) (d : string) :
  d ∈ find_blocking_dependents st tree_id node_id new_rank
  ↔ ∃ t conn dep,
      find_tree st tree_id = Some t
      ∧ conn ∈ connections t
      ∧ from_node_id conn = node_id
      ∧ to_node_id conn = d
      ∧ new_rank < required_rank conn
      ∧ find_node st tree_id d = Some dep
      ∧ 0 < current_rank dep
      ∧ has_alternative_path st tree_id d node_id = false.
Proof.
  unfold find_blocking_dependents.
  destruct (find_tree st tree_id) as [t|] eqn:Hfind.
  2: { split; [by intros ?%elem_of_nil|]. by intros (? & ? & ? & ? & _). }
  rewrite list_elem_of_omap. split.
  - intros (conn & [Hfrom Hconn]%list_elem_of_filter & Hsome).
    destruct (new_rank <? required_rank conn) eqn:Hlt; [|done].
    destruct (find_node st tree_id (to_node_id conn)) as [dep|] eqn:Hdep; [|done].
    destruct (0 <? current_rank dep) eqn:Hpos; [|done].
    destruct (has_alternative_path st tree_id (to_node_id conn) node_id) eqn:Halt;
      [done|].
    cbn in Hsome. injection Hsome as <-.
    exists t, conn, dep. split_and!; try done; lia.
  - intros (t' & conn & dep & [= <-] & Hconn & Hfrom & Hto & Hlt & Hdep & Hpos & Halt).
    exists conn. split; [by apply list_elem_of_filter|].
    rewrite (proj2 (Z.ltb_lt _ _) Hlt), Hto, Hdep, (proj2 (Z.ltb_lt _ _) Hpos), Halt.
    done.
Qed.

Lemma cascade_outcome_tree (tree_index : nat) (st1 st' : state) (tree_id : string)
    (t1 : tree) :
  cascade_outcome tree_index st1 st' →
  list_find (λ t, t_id t = tree_id) (trees st1) = Some (tree_index, t1) →
  ∃ t', trees st' !! tree_index = Some t'
        ∧ find_tree st' tree_id = Some t'
        ∧ connections t' = connections t1.
Proof.
  intros (_ & _ & _ & t0 & t' & Ht0 & Htrees & Hid & Hconns & _) Hfind.
  pose proof Hfind as (Ht1 & Htid & _)%list_find_Some.
  rewrite Ht1 in Ht0. injection Ht0 as <-.
  exists t'. split_and!.
  - rewrite Htrees. apply list_lookup_insert_eq. by eapply lookup_lt_Some.
  - unfold find_tree. rewrite Htrees.
    erewrite list_find_insert_same; [done|done|congruence].
  - done.
Qed.

(** X18.  The cascade forecast of [can_refund_point] comes true for AND
    nodes: outside edit mode, every id listed in [affected_nodes] whose
    node has AND logic holds no rank any more once [refund_point] has
    returned.  (For OR and SUM nodes the forecast looks at single
    connections only and may list nodes the cascade leaves alone.) *)
Theorem affected_nodes_are_reset (now : string) (st : state)
    (tree_id node_id d : string) (dn : node) :
  mode st ≠ "edit" →
  d ∈ affected_nodes (can_refund_point st tree_id node_id) →
  find_node st tree_id d = Some dn →
  logic_or_default dn = "AND" →
  ∃ st' dn',
    refund_point now st tree_id node_id = Some st'
    ∧ find_node st' tree_id d = Some dn'
    ∧ current_rank dn' = 0.
Proof.
  intros Hmode Hin Hdn Hand.
  unfold can_refund_point in Hin.
  destruct (negb (allow_refunds (settings st))) eqn:Hallow;
    [by apply elem_of_nil in Hin|].
  destruct (find_tree st tree_id) as [t|] eqn:Hfind; [|by apply elem_of_nil in Hin].
  destruct (find_node st tree_id node_id) as [n|] eqn:Hnode;
    [|by apply elem_of_nil in Hin].
  destruct (current_rank n <=? 0) eqn:Hrank; [by apply elem_of_nil in Hin|].
  apply Z.leb_gt in Hrank.
  rewrite decide_False in Hin by done.
  destruct (bool_decide (0 < length _)%nat); [|by apply elem_of_nil in Hin].
  cbn [affected_nodes] in Hin.
  apply find_blocking_dependents_elem in Hin
    as (t0 & conn & dep & Ht0 & Hconn & Hfrom & Hto & Hlt & Hdep & Hpos & _).
  rewrite Hfind in Ht0. injection Ht0 as <-.
  rewrite Hdn in Hdep. injection Hdep as <-.
  unfold find_node in Hnode, Hdn. rewrite Hfind in Hnode, Hdn.
  unfold find_tree in Hfind.
  destruct (list_find (λ t, t_id t = tree_id) (trees st)) as [[tree_index t1]|]
    eqn:Htree; [|done].
  injection Hfind as ->.
  destruct (list_find (λ m, n_id m = node_id) (nodes t)) as [[node_index n0]|]
    eqn:Hln; [|done].
  injection Hnode as ->.
  destruct (list_find (λ m, n_id m = d) (nodes t)) as [[k dn0]|] eqn:Hld; [|done].
  injection Hdn as ->.
  pose proof Htree as (Ht & Htid & _)%list_find_Some.
  pose proof Hln as (Hn & Hnid & _)%list_find_Some.
  pose proof Hld as (Hk & Hdid & _)%list_find_Some.
  set (t1 := refund_one_rank t node_index n).
  set (st1 := mk_state now (settings st) (<[tree_index := t1]> (trees st)) (mode st)).
  assert (list_find (λ t, t_id t = tree_id) (trees st1) = Some (tree_index, t1))
    as Hfind1.
  { unfold st1. cbn [trees]. by eapply list_find_insert_same. }
  pose proof Hfind1 as (Ht1 & _)%list_find_Some.
  assert (list_find (λ m, n_id m = node_id) (nodes t1)
          = Some (node_index, set_current_rank n (current_rank n - 1))) as Hnode1.
  { unfold t1, refund_one_rank. cbn [set_spent set_nodes nodes].
    by eapply list_find_insert_same. }
  set (dn1 := if decide (k = node_index)
              then set_current_rank n (current_rank n - 1) else dn).
  assert (list_find (λ m, n_id m = d) (nodes t1) = Some (k, dn1)) as Hd1.
  { unfold t1, refund_one_rank. cbn [set_spent set_nodes nodes].
    rewrite (list_find_insert_same_key _ _ _ n) by done. by rewrite Hld. }
  assert (logic_or_default dn1 = "AND" ∧ 0 ≤ current_rank dn1) as [Hand1 Hnonneg].
  { unfold dn1. case_decide as Hkj; [|split; [done|lia]].
    subst k. rewrite Hn in Hk. injection Hk as <-. split; [done|cbn; lia]. }
  assert (refund_point now st tree_id node_id = apply_cascade_refunds st1 tree_id)
    as Hrefund.
  { unfold refund_point, touch_modified, clone_state.
    cbn [settings trees mode set_trees]. rewrite Hallow, Htree, Hln.
    rewrite (proj2 (Z.leb_gt _ _) Hrank).
    rewrite (bool_decide_eq_false_2 (mode st = "edit")) by done. done. }
  destruct (apply_cascade_refunds_total st1 tree_id) as [st' Hst'].
  pose proof Hst' as Hloop. unfold apply_cascade_refunds in Hloop.
  rewrite Hfind1 in Hloop.
  pose proof (cascade_loop_outcome _ _ _ _ _ _ Ht1 Hloop) as Hout.
  destruct (cascade_outcome_tree _ _ _ _ _ Hout Hfind1) as (t' & Ht' & Hfind' & Hconns).
  destruct (cascade_outcome_find_node _ _ _ _ _ _ _ _ Hout Hfind1 Hd1)
    as (dn' & Hdn' & Hdcases).
  destruct (cascade_outcome_find_node _ _ _ _ _ _ _ _ Hout Hfind1 Hnode1)
    as (n' & Hn' & Hncases).
  exists st', dn'. split; [by rewrite Hrefund|]. split; [done|].
  destruct Hdcases as [->|[_ ->]]; [|done].
  destruct (decide (current_rank dn1 = 0)) as [|Hnz]; [done|]. exfalso.
  assert (dn1 ∈ nodes t' ∧ n_id dn1 = d) as [Hmem Hid1].
  { unfold find_node in Hdn'. rewrite Hfind' in Hdn'.
    destruct (list_find (λ m, n_id m = d) (nodes t')) as [[k' m]|] eqn:Hm; [|done].
    injection Hdn' as ->. apply list_find_Some in Hm as (Hm & Hid & _).
    split; [by eapply list_elem_of_lookup_2|done]. }
  pose proof (cascade_loop_fixpoint tree_id tree_index _ _ _ t' dn1 Hloop Ht' Hmem)
    as Hfix.
  rewrite Hid1 in Hfix. specialize (Hfix ltac:(lia)).
  rewrite check_prerequisites_unfold, Hfind' in Hfix. cbn zeta in Hfix.
  assert (conn ∈ filter (λ c, to_node_id c = d) (connections t')) as Hinc.
  { apply list_elem_of_filter. split; [done|].
    rewrite Hconns. unfold t1, refund_one_rank. done. }
  case_decide as Hlen.
  { destruct (filter _ (connections t')); [by apply elem_of_nil in Hinc|done]. }
  rewrite Hdn', Hand1 in Hfix. rewrite decide_True in Hfix by done.
  rewrite forallb_forall in Hfix.
  specialize (Hfix conn (proj1 (list_elem_of_In _ _) Hinc)).
  rewrite is_connection_satisfied_unfold, Hto, Hfrom, Hdn', Hn' in Hfix.
  assert (prerequisite_logic dn1 ≠ "SUM") as Hnsum.
  { intros Hs. unfold logic_or_default in Hand1. rewrite Hs in Hand1.
    by rewrite decide_False in Hand1. }
  rewrite decide_False in Hfix by done. apply Z.leb_le in Hfix.
  destruct Hncases as [->|[_ ->]]; cbn in Hfix; lia.
Qed.

Lemma affected_nodes_are_reset_witness :
  ∃ st' dn',
    refund_point "d" (example_state "play" (cascade_tree 1)) "t" "A" = Some st'
    ∧ find_node st' "t" "B" = Some dn'
    ∧ current_rank dn' = 0.
Proof.
  apply (affected_nodes_are_reset "d" (example_state "play" (cascade_tree 1))
           "t" "A" "B" (example_node "B" 1)).
  - done.
  - vm_compute. left.
  - reflexivity.
  - reflexivity.
Defined.

(** ** Structural soundness under editing *)

Lemma tree_sound_sub (t t' : tree) :
  NoDup (n_id <$> nodes t') →
  no_dangling t' →
  (∀ x y, edge t' x y → edge t x y) →
  tree_sound t → tree_sound t'.
Proof.
  intros Hnodup Hnd Hsub (_ & _ & Hacyclic). split_and!; [done..|].
  intros cycle Hcycle. apply (Hacyclic cycle). by eapply is_cycle_mono.
Qed.

Lemma edge_pairs (t : tree) (x y : string) :
  edge t x y ↔ (x, y) ∈ connection_pair <$> connections t.
Proof.
  unfold edge. rewrite list_elem_of_fmap. split.
  - intros (c & Hc & <- & <-). by exists c.
  - intros (c & [= -> ->] & Hc). by exists c.
Qed.

Lemma no_dangling_pairs (t : tree) :
  no_dangling t
  ↔ ∀ x y, (x, y) ∈ connection_pair <$> connections t →
           x ∈ (n_id <$> nodes t) ∧ y ∈ (n_id <$> nodes t).
Proof.
  unfold no_dangling. split.
  - intros Hnd x y (c & [= -> ->] & Hc)%list_elem_of_fmap. by apply Hnd.
  - intros Hp c Hc. apply Hp, list_elem_of_fmap. by exists c.
Qed.

(** Soundness only looks at the node ids and at the ordered pairs the
    connections join. *)
Lemma tree_sound_same_structure (t t' : tree) :
  n_id <$> nodes t' = n_id <$> nodes t →
  connection_pair <$> connections t' = connection_pair <$> connections t →
  tree_sound t → tree_sound t'.
Proof.
  intros Hids Hpairs Hsound. pose proof Hsound as (Hnodup & Hnd & _).
  apply (tree_sound_sub t); [by rewrite Hids| |by intros x y; rewrite !edge_pairs, Hpairs|done].
  apply no_dangling_pairs. intros x y. rewrite Hpairs, Hids.
  by apply no_dangling_pairs.
Qed.

Lemma project_sound_insert (st st' : state) (i : nat) (t t' : tree) :
  project_sound st →
  trees st !! i = Some t →
  trees st' = <[i := t']> (trees st) →
  t_id t' = t_id t →
  (tree_sound t → tree_sound t') →
  project_sound st'.
Proof.
  intros [Hnodup Hall] Ht Htrees Hid Hsound. split.
  - rewrite Htrees, list_fmap_insert, Hid.
    rewrite list_insert_id; [done|]. by rewrite list_lookup_fmap, Ht.
  - intros x Hx. rewrite Htrees in Hx.
    apply list_elem_of_lookup in Hx as [k Hk].
    destruct (decide (k = i)) as [->|Hne].
    + rewrite list_lookup_insert_eq in Hk by by eapply lookup_lt_Some.
      injection Hk as <-. apply Hsound, Hall. by eapply list_elem_of_lookup_2.
    + rewrite list_lookup_insert_ne in Hk by done.
      apply Hall. by eapply list_elem_of_lookup_2.
Qed.

(** *** Cycles can be read from any of their nodes *)

Lemma is_cycle_rotate_one (E : string → string → Prop) (x : string)
    (l : list string) :
  is_cycle E (x :: l) → is_cycle E (l ++ [x]).
Proof.
  intros [Hstep (a & b & Hlast & Hhead & Hab)].
  cbn in Hhead. injection Hhead as <-.
  destruct l as [|y l]; [by split; [|exists a, x]|]. split.
  - intros i u v Hu Hv.
    assert (i < length (y :: l))%nat as Hi.
    { apply lookup_lt_Some in Hv. rewrite length_app in Hv. cbn in Hv |- *. lia. }
    rewrite lookup_app_l in Hu by done.
    destruct (decide (S i < length (y :: l))%nat) as [Hlt|Hge].
    + rewrite lookup_app_l in Hv by done.
      by apply (Hstep (S i) u v).
    + rewrite lookup_app_r in Hv by lia.
      replace (S i - length (y :: l))%nat with 0%nat in Hv by lia.
      injection Hv as <-.
      rewrite last_lookup in Hlast.
      assert (Init.Nat.pred (length (x :: y :: l)) = S i) as Hpred
        by (cbn in *; lia).
      rewrite Hpred in Hlast.
      change ((x :: y :: l) !! S i) with ((y :: l) !! i) in Hlast.
      rewrite Hu in Hlast. by injection Hlast as ->.
  - exists x, y. split_and!.
    + by rewrite last_snoc.
    + done.
    + by apply (Hstep 0%nat x y).
Qed.

Lemma is_cycle_rotate_to (E : string → string → Prop) (cycle : list string)
    (x : string) :
  is_cycle E cycle → x ∈ cycle →
  ∃ cycle', is_cycle E cycle' ∧ last cycle' = Some x ∧ cycle' ≡ₚ cycle.
Proof.
  intros Hcycle [i Hi]%list_elem_of_lookup. revert cycle Hcycle Hi.
  induction i as [|i IH]; intros cycle Hcycle Hi; destruct cycle as [|y l]; try done.
  - cbn in Hi. injection Hi as ->. exists (l ++ [x]). split_and!.
    + by apply is_cycle_rotate_one.
    + by rewrite last_snoc.
    + by rewrite Permutation_app_comm.
  - cbn in Hi.
    destruct (IH (l ++ [y])) as (cycle' & Hc' & Hlast' & Hperm).
    + by apply is_cycle_rotate_one.
    + by apply lookup_app_l_Some.
    + exists cycle'. split_and!; [done..|].
      rewrite Hperm. by rewrite Permutation_app_comm.
Qed.

(** Adding one connection to an acyclic graph: a cycle of the new graph
    would give a chain of old connections from the target back to the
    source. *)
Lemma add_edge_acyclic (t t' : tree) (from_id to_id : string) :
  (∀ x y, edge t' x y ↔ edge t x y ∨ (x = from_id ∧ y = to_id)) →
  (∀ cycle, ¬ is_cycle (edge t) cycle) →
  ¬ connected t to_id from_id →
  ∀ cycle, NoDup cycle → ¬ is_cycle (edge t') cycle.
Proof.
  intros Hedge Hacyclic Hchain cycle Hnodup Hcycle.
  destruct (decide (from_id ∈ cycle)) as [Hin|Hout].
  - destruct (is_cycle_rotate_to _ cycle from_id Hcycle Hin)
      as (cycle' & [Hstep (a & b & Hlast & Hhead & Hab)] & Hlast' & Hperm).
    rewrite Hlast' in Hlast. injection Hlast as <-.
    assert (NoDup cycle') as Hnodup' by by rewrite Hperm.
    assert (∀ i u v, cycle' !! i = Some u → cycle' !! S i = Some v → edge t u v)
      as Hold.
    { intros i u v Hu Hv. destruct (proj1 (Hedge u v) (Hstep i u v Hu Hv))
        as [?|[-> _]]; [done|]. exfalso.
      rewrite last_lookup in Hlast'.
      pose proof (NoDup_lookup _ _ _ _ Hnodup' Hu Hlast') as Heq.
      apply lookup_lt_Some in Hv. lia. }
    destruct (proj1 (Hedge _ _) Hab) as [Hab'|[_ ->]].
    + apply (Hacyclic cycle'). split; [done|]. by exists from_id, b.
    + apply Hchain. by exists cycle'.
  - apply (Hacyclic cycle). destruct Hcycle as [Hstep (a & b & Hlast & Hhead & Hab)].
    split.
    + intros i u v Hu Hv. destruct (proj1 (Hedge u v) (Hstep i u v Hu Hv))
        as [?|[-> _]]; [done|].
      destruct Hout. by eapply list_elem_of_lookup_2.
    + exists a, b. split_and!; [done..|].
      destruct (proj1 (Hedge _ _) Hab) as [?|[-> _]]; [done|].
      destruct Hout. rewrite last_lookup in Hlast. by eapply list_elem_of_lookup_2.
Qed.

Lemma tree_sound_simple_cycles (t : tree) :
  NoDup (n_id <$> nodes t) →
  no_dangling t →
  (∀ cycle, NoDup cycle → ¬ is_cycle (edge t) cycle) →
  tree_sound t.
Proof.
  intros Hnodup Hnd Hsimple. split_and!; [done..|].
  assert (detect_cycle t = None) as Hnone.
  { unfold detect_cycle.
    destruct (detect_cycle_fuel (detect_cycle_depth t) t) as [c|s|] eqn:Hfuel;
      [|done..].
    apply detect_cycle_fuel_sound in Hfuel as [Hc Hn]. by destruct (Hsimple c). }
  intros cycle Hcycle.
  apply (proj1 (detect_cycle_None_adjacency t) Hnone cycle), is_cycle_adjacency.
  split; [done|]. by apply no_dangling_cycle.
Qed.

Lemma add_connection_tree_sound (t : tree) (c : connection) :
  tree_sound t →
  from_node_id c ∈ (n_id <$> nodes t) →
  to_node_id c ∈ (n_id <$> nodes t) →
  ¬ connected t (to_node_id c) (from_node_id c) →
  tree_sound (set_connections t (connections t ++ [c])).
Proof.
  intros (Hnodup & Hnd & Hacyclic) Hfrom Hto Hsafe.
  apply tree_sound_simple_cycles.
  - done.
  - intros c' [Hc'|Hc']%elem_of_app; cbn [nodes set_connections].
    + by apply Hnd.
    + by apply list_elem_of_singleton in Hc' as ->.
  - apply (add_edge_acyclic t _ (from_node_id c) (to_node_id c)); [|done..].
    intros x y. unfold edge. cbn [connections set_connections]. split.
    + intros (c' & [Hc'|Hc']%elem_of_app & Hx & Hy); [left; by exists c'|].
      apply list_elem_of_singleton in Hc' as ->. by right.
    + intros [(c' & Hc' & Hx & Hy)|[-> ->]].
      * exists c'. split; [set_solver|done].
      * exists c. split; [set_solver|done].
Qed.

Lemma add_connection_sound (now new_id : string) (st : state) (tree_id : string)
    (options : connection_options) :
  project_sound st →
  (∀ t, find_tree st tree_id = Some t →
        ¬ connected t (opt_to_node_id options) (opt_from_node_id options)) →
  project_sound (add_connection now new_id st tree_id options).
Proof.
  intros Hsound Hsafe.
  destruct (add_connection_shape now new_id st tree_id options)
    as [->|(i & t & c & Hfind & Htrees & Hpair & Hfrom & Hto & Hnew)]; [done|].
  pose proof Hfind as (Ht & _)%list_find_Some.
  eapply project_sound_insert; [done|done|done|done|].
  intros Hts. injection Hpair as Hcf Hct.
  apply add_connection_tree_sound; rewrite ?Hcf, ?Hct; [done..|].
  apply Hsafe. unfold find_tree. by rewrite Hfind.
Qed.

Lemma tree_sound_remove_node (t : tree) (node_index : nat) (n : node) :
  nodes t !! node_index = Some n →
  tree_sound t →
  tree_sound
    (set_connections (set_nodes t (delete node_index (nodes t)))
       (filter (λ conn, from_node_id conn ≠ n_id n ∧ to_node_id conn ≠ n_id n)
               (connections t))).
Proof.
  intros Hn Hsound. pose proof Hsound as (Hnodup & Hnd & _).
  apply (tree_sound_sub t); cbn [nodes connections set_connections set_nodes].
  - rewrite list_fmap_delete. eapply sublist_NoDup; [done|apply sublist_delete].
  - intros c [[Hfrom Hto] Hc]%list_elem_of_filter.
    cbn [nodes connections set_connections set_nodes].
    assert (∀ x, x ∈ n_id <$> nodes t → x ≠ n_id n →
                 x ∈ n_id <$> delete node_index (nodes t)) as Hkeep.
    { intros x Hx Hne. rewrite <- (take_drop_middle _ _ _ Hn) in Hx.
      rewrite delete_take_drop. rewrite fmap_app in Hx |- *. rewrite fmap_cons in Hx.
      set_solver. }
    destruct (Hnd c Hc). split; by apply Hkeep.
  - intros x y (c & Hc & Hx & Hy). exists c. split; [|done].
    cbn [connections set_connections] in Hc.
    by apply list_elem_of_filter in Hc as [_ Hc].
  - done.
Qed.

Lemma cascade_outcome_ids (tree_index : nat) (st st' : state) (t t' : tree) :
  cascade_outcome tree_index st st' →
  trees st !! tree_index = Some t →
  trees st' !! tree_index = Some t' →
  t_id t' = t_id t
  ∧ connections t' = connections t
  ∧ n_id <$> nodes t' = n_id <$> nodes t.
Proof.
  intros (_ & _ & _ & t0 & t1 & Ht0 & Htrees & Hid & Hconns & _ & Hlen & Hnodes & _)
         Ht Ht'.
  rewrite Ht in Ht0. injection Ht0 as <-.
  rewrite Htrees, list_lookup_insert_eq in Ht' by by eapply lookup_lt_Some.
  injection Ht' as <-. split_and!; [done..|].
  apply list_eq. intros j. rewrite !list_lookup_fmap.
  destruct (nodes t !! j) as [m|] eqn:Hm.
  - by destruct (Hnodes j m Hm) as [->|[_ ->]].
  - apply lookup_ge_None in Hm. rewrite <- Hlen in Hm.
    apply lookup_ge_None in Hm. by rewrite Hm.
Qed.

Lemma refund_point_shape (now : string) (st : state) (tree_id node_id : string) :
  ∃ st',
    refund_point now st tree_id node_id = Some st'
    ∧ (st' = st
       ∨ ∃ i t t',
           trees st !! i = Some t
           ∧ trees st' = <[i := t']> (trees st)
           ∧ t_id t' = t_id t
           ∧ connections t' = connections t
           ∧ n_id <$> nodes t' = n_id <$> nodes t).
Proof.
  unfold refund_point, touch_modified, clone_state.
  cbn [trees set_trees settings mode].
  destruct (negb (allow_refunds (settings st))); [by eauto|].
  destruct (list_find (λ t, t_id t = tree_id) (trees st)) as [[i t]|] eqn:Hfind;
    [|by eauto].
  destruct (list_find (λ n, n_id n = node_id) (nodes t)) as [[j n]|] eqn:Hnode;
    [|by eauto].
  destruct (current_rank n <=? 0) eqn:Hrank; [by eauto|].
  pose proof Hfind as (Ht & Htid & _)%list_find_Some.
  pose proof Hnode as (Hn & _)%list_find_Some.
  fold (refund_one_rank t j n).
  set (t1 := refund_one_rank t j n).
  set (st1 := mk_state now (settings st) (<[i := t1]> (trees st)) (mode st)).
  assert (n_id <$> nodes t1 = n_id <$> nodes t) as Hids1.
  { unfold t1, refund_one_rank. cbn [nodes set_spent set_nodes].
    rewrite list_fmap_insert. apply list_insert_id.
    by rewrite list_lookup_fmap, Hn. }
  destruct (negb (bool_decide (mode st = "edit")) || cascade_refunds (settings st)).
  2: { exists st1. split; [done|]. right. by exists i, t, t1. }
  destruct (apply_cascade_refunds_total st1 tree_id) as [st' Hst'].
  exists st'. split; [done|]. right.
  unfold apply_cascade_refunds in Hst'.
  assert (list_find (λ t, t_id t = tree_id) (trees st1) = Some (i, t1)) as Hfind1.
  { unfold st1. cbn [trees]. by eapply list_find_insert_same. }
  rewrite Hfind1 in Hst'.
  pose proof Hfind1 as (Ht1 & _)%list_find_Some.
  pose proof (cascade_loop_outcome _ _ _ _ _ _ Ht1 Hst') as Hout.
  pose proof Hout as (_ & _ & _ & t0 & t' & Ht0 & Htrees & _).
  assert (trees st' !! i = Some t') as Ht'.
  { rewrite Htrees. apply list_lookup_insert_eq. by eapply lookup_lt_Some. }
  destruct (cascade_outcome_ids _ _ _ _ _ Hout Ht1 Ht') as (Hid & Hconns & Hids).
  exists i, t, t'. split_and!; [done| |done|done|congruence].
  rewrite Htrees. unfold st1. cbn [trees]. by rewrite list_insert_insert_eq.
Qed.

Lemma refund_point_sound (now : string) (st : state) (tree_id node_id : string) :
  project_sound st →
  ∃ st', refund_point now st tree_id node_id = Some st' ∧ project_sound st'.
Proof.
  intros Hsound.
  destruct (refund_point_shape now st tree_id node_id)
    as (st' & Hst' & [->|(i & t & t' & Ht & Htrees & Hid & Hconns & Hids)]);
    [by eauto|].
  exists st'. split; [done|].
  eapply project_sound_insert; [done|done|done|done|].
  apply tree_sound_same_structure; [done|by rewrite Hconns].
Qed.

Lemma create_tree_sound (t : tree) : nodes t = [] → connections t = [] → tree_sound t.
Proof.
  intros Hn Hc. split_and!.
  - rewrite Hn. constructor.
  - intros c Hin. rewrite Hc in Hin. by apply elem_of_nil in Hin.
  - intros cycle (_ & a & b & _ & _ & c & Hin & _).
    rewrite Hc in Hin. by apply elem_of_nil in Hin.
Qed.

Lemma perform_sound (a : action) (s : session) :
  project_sound (engine_state s) →
  action_safe a s →
  ∃ s', perform a s = Some s' ∧ project_sound (engine_state s').
Proof.
  intros Hsound Hsafe. pose proof Hsound as [Hnodup Hall].
  destruct a; cbn [perform action_safe] in *.
  - (* add_tree *)
    eexists. split; [reflexivity|].
    unfold add_tree, touch_modified, clone_state.
    cbn [engine_state]. split; cbn [trees set_trees].
    + rewrite fmap_app. apply NoDup_app. split_and!; [done| |].
      * intros x Hx Hin. apply list_elem_of_singleton in Hin. subst x.
        by destruct (opt_total_points options).
      * apply NoDup_singleton.
    + intros t [Ht|Ht]%elem_of_app; [by apply Hall|].
      apply list_elem_of_singleton in Ht as ->.
      apply create_tree_sound; by destruct (opt_total_points options).
  - (* remove_tree *)
    eexists. split; [reflexivity|].
    unfold remove_tree, touch_modified, clone_state. cbn [trees].
    destruct (list_find _ (trees (engine_state s))) as [[index t]|]; [|done].
    assert (project_sound
              (set_trees (mk_state now (settings (engine_state s))
                                   (trees (engine_state s)) (mode (engine_state s)))
                         (delete index (trees (engine_state s))))) as Hdel.
    { split; cbn [trees set_trees].
      - rewrite list_fmap_delete. eapply sublist_NoDup; [done|apply sublist_delete].
      - intros x Hx%list_elem_of_delete_inv. by apply Hall. }
    by case_decide.
  - (* update_tree *)
    eexists. split; [reflexivity|]. cbn [on_engine engine_state].
    unfold update_tree, touch_modified, clone_state. cbn [trees].
    destruct (list_find _ (trees (engine_state s))) as [[index t]|] eqn:Hfind;
      [|done].
    apply list_find_Some in Hfind as (Ht & _).
    eapply project_sound_insert; [done|done|done| |].
    + by destruct (chg_total_points changes).
    + apply tree_sound_same_structure; by destruct (chg_total_points changes).
  - (* add_node *)
    eexists. split; [reflexivity|]. cbn [on_engine engine_state].
    unfold add_node, touch_modified, clone_state. cbn [trees].
    destruct (list_find _ (trees (engine_state s))) as [[index t]|] eqn:Hfind;
      [|done].
    assert (new_id ∉ n_id <$> nodes t) as Hfresh
      by (apply Hsafe; unfold find_tree; by rewrite Hfind).
    apply list_find_Some in Hfind as (Ht & _).
    eapply project_sound_insert; [done|done|done|done|].
    intros Hts. pose proof Hts as (Hnd1 & Hnd2 & _).
    apply (tree_sound_sub t); cbn [nodes connections set_nodes]; [| |done|done].
    + rewrite fmap_app. apply NoDup_app. split_and!; [done| |apply NoDup_singleton].
      intros x Hx Hin. apply list_elem_of_singleton in Hin. subst x.
      by destruct (opt_max_rank options), (opt_cost_per_rank options).
    + intros c Hc. cbn [nodes connections set_nodes]. rewrite fmap_app.
      destruct (Hnd2 c Hc). set_solver.
  - (* remove_node *)
    eexists. split; [reflexivity|].
    unfold remove_node, touch_modified, clone_state. cbn [trees].
    destruct (list_find _ (trees (engine_state s))) as [[index t]|] eqn:Hfind;
      [|done].
    destruct (list_find _ (nodes t)) as [[node_index n]|] eqn:Hnode; [|done].
    cbn [engine_state].
    apply list_find_Some in Hfind as (Ht & _).
    apply list_find_Some in Hnode as (Hn & Hnid & _).
    eapply project_sound_insert; [done|done|done|done|].
    rewrite <- Hnid. by apply tree_sound_remove_node.
  - (* update_node *)
    eexists. split; [reflexivity|]. cbn [on_engine engine_state].
    unfold update_node, touch_modified, clone_state. cbn [trees].
    destruct (list_find _ (trees (engine_state s))) as [[index t]|] eqn:Hfind;
      [|done].
    destruct (list_find _ (nodes t)) as [[node_index n]|] eqn:Hnode; [|done].
    apply list_find_Some in Hfind as (Ht & _).
    apply list_find_Some in Hnode as (Hn & _).
    eapply project_sound_insert; [done|done|done|done|].
    apply tree_sound_same_structure; [|done].
    cbn [nodes set_nodes]. rewrite list_fmap_insert. apply list_insert_id.
    by rewrite list_lookup_fmap, Hn.
  - (* allocate_point *)
    eexists. split; [reflexivity|]. cbn [on_engine engine_state].
    destruct (allocate_point_cases now (engine_state s) tree_id node_id)
      as [->|(i & t & j & n & Hfind & Hnode & _ & ->)]; [done|].
    apply list_find_Some in Hfind as (Ht & _).
    apply list_find_Some in Hnode as (Hn & _).
    eapply project_sound_insert; [done|done|done|done|].
    apply tree_sound_same_structure; [|done].
    cbn [nodes set_spent set_nodes]. rewrite list_fmap_insert. apply list_insert_id.
    by rewrite list_lookup_fmap, Hn.
  - (* refund_point *)
    destruct (refund_point_sound now (engine_state s) tree_id node_id Hsound)
      as (st' & -> & Hsound').
    eexists. split; [reflexivity|done].
  - (* reset_tree *)
    eexists. split; [reflexivity|]. cbn [on_engine engine_state].
    unfold reset_tree, touch_modified, clone_state. cbn [trees].
    destruct (list_find _ (trees (engine_state s))) as [[index t]|] eqn:Hfind;
      [|done].
    apply list_find_Some in Hfind as (Ht & _).
    eapply project_sound_insert; [done|done|done|done|].
    apply tree_sound_same_structure; [|done].
    cbn [nodes set_spent set_nodes]. rewrite <- list_fmap_compose.
    by apply list_fmap_ext.
  - (* add_connection *)
    eexists. split; [reflexivity|]. cbn [on_engine engine_state].
    by apply add_connection_sound.
  - (* remove_connection *)
    eexists. split; [reflexivity|]. cbn [on_engine engine_state].
    unfold remove_connection, touch_modified, clone_state. cbn [trees].
    destruct (list_find _ (trees (engine_state s))) as [[index t]|] eqn:Hfind;
      [|done].
    destruct (list_find _ (connections t)) as [[conn_index c]|]; [|done].
    apply list_find_Some in Hfind as (Ht & _).
    eapply project_sound_insert; [done|done|done|done|].
    intros Hts. pose proof Hts as (Hnd1 & Hnd2 & _).
    apply (tree_sound_sub t); cbn [nodes connections set_connections]; [done| | |done].
    + intros c' Hc'%list_elem_of_delete_inv. by apply Hnd2.
    + intros x y (c' & Hc'%list_elem_of_delete_inv & Hxy). by exists c'.
  - (* update_connection *)
    eexists. split; [reflexivity|]. cbn [on_engine engine_state].
    unfold update_connection, touch_modified, clone_state. cbn [trees].
    destruct (list_find _ (trees (engine_state s))) as [[index t]|] eqn:Hfind;
      [|done].
    destruct (list_find _ (connections t)) as [[conn_index c]|] eqn:Hconn; [|done].
    apply list_find_Some in Hfind as (Ht & _).
    apply list_find_Some in Hconn as (Hc & _).
    eapply project_sound_insert; [done|done|done|done|].
    apply tree_sound_same_structure; [done|].
    cbn [connections set_connections]. rewrite list_fmap_insert.
    apply list_insert_id. rewrite list_lookup_fmap, Hc.
    by destruct (chg_required_rank changes), (_ || _).
Qed.

(** X19.  A new connection that closes no ring keeps the tree valid: if
    [validate_tree] accepts the tree and no chain of connections leads
    from the new connection's target back to its source, [validate_tree]
    accepts the tree [add_connection] returns as well.  (The check for
    such a chain is left to the caller.) *)
Theorem add_connection_keeps_valid (now new_id : string) (st : state)
    (tree_id : string) (options : connection_options) (t : tree) :
  find_tree st tree_id = Some t →
  is_valid (validate_tree st tree_id) = true →
  ¬ connected t (opt_to_node_id options) (opt_from_node_id options) →
  is_valid (validate_tree (add_connection now new_id st tree_id options) tree_id)
  = true.
Proof.
  intros Hfind Hvalid Hsafe.
  apply validate_tree_sound in Hvalid as (t0 & Hfind0 & Hsound).
  rewrite Hfind in Hfind0. injection Hfind0 as <-.
  apply validate_tree_sound.
  destruct (add_connection_shape now new_id st tree_id options)
    as [->|(i & t1 & c & Hfind1 & Htrees & Hpair & Hfrom & Hto & Hnew)];
    [by exists t|].
  unfold find_tree in Hfind. rewrite Hfind1 in Hfind. injection Hfind as ->.
  pose proof Hfind1 as (Ht & Htid & _)%list_find_Some.
  exists (set_connections t (connections t ++ [c])). split.
  - unfold find_tree. rewrite Htrees. by erewrite list_find_insert_same.
  - injection Hpair as Hcf Hct.
    apply add_connection_tree_sound; rewrite ?Hcf, ?Hct; done.
Qed.

Lemma add_connection_keeps_valid_witness :
  is_valid
    (validate_tree
       (add_connection "d" "c9" (example_state "edit" locked_tree) "t"
          (mk_connection_options "A" "B" None None)) "t")
  = true.
Proof.
  apply (add_connection_keeps_valid _ _ _ _ _ locked_tree).
  - reflexivity.
  - apply validate_tree_sound. exists locked_tree. split; [reflexivity|].
    split_and!.
    + cbn. apply NoDup_cons. split; [set_solver|]. apply NoDup_singleton.
    + intros c Hc. cbn in Hc. apply list_elem_of_singleton in Hc as ->.
      cbn. set_solver.
    + intros cycle Hcycle.
      assert (detect_cycle locked_tree = None) as Hnone by by vm_compute.
      apply (proj1 (detect_cycle_None_adjacency _) Hnone cycle), is_cycle_adjacency.
      split; [done|]. apply no_dangling_cycle; [|done].
      intros c Hc. cbn in Hc. apply list_elem_of_singleton in Hc as ->.
      cbn. set_solver.
  - intros (chain & Hhead & Hlast & Hstep). cbn in Hhead, Hlast.
    destruct chain as [|x [|y chain]]; [done| |].
    + cbn in Hhead, Hlast. congruence.
    + cbn in Hhead. injection Hhead as ->.
      destruct (Hstep 0%nat "B" y eq_refl eq_refl) as (c & Hc & Hfrom & _).
      cbn in Hc. apply list_elem_of_singleton in Hc as ->. done.
Defined.

(** X20.  A valid project stays valid.  Starting from a state that
    [validate_state] accepts, every sequence of project actions (adding,
    removing and updating trees, nodes and connections, allocating,
    refunding, resetting) runs to a state that [validate_state] accepts,
    provided each id handed out for a new tree or node is not in use and
    no added connection closes a ring. *)
Theorem dispatch_keeps_valid (acts : list action) (s : session) :
  state_is_valid (validate_state (engine_state s)) = true →
  actions_safe acts s →
  ∃ s',
    dispatch_all acts s = Some s'
    ∧ state_is_valid (validate_state (engine_state s')) = true.
Proof.
  rewrite project_sound_valid. revert s.
  induction acts as [|a rest IH]; intros s Hsound Hsafe.
  { exists s. split; [done|]. by apply project_sound_valid. }
  destruct Hsafe as [Hsafe Hrest].
  destruct (perform_sound a s Hsound Hsafe) as (s1 & Hperform & Hsound1).
  cbn [dispatch_all]. rewrite Hperform. apply IH; [done|]. by apply Hrest.
Qed.

Lemma dispatch_keeps_valid_witness :
  ∃ s',
    dispatch_all example_actions selected_session = Some s'
    ∧ state_is_valid (validate_state (engine_state s')) = true.
Proof.
  apply dispatch_keeps_valid.
  - by vm_compute.
  - split; [|intros s1 [= <-]; split; [|intros s2 [= <-]; split;
             [|intros s3 [= <-]; split; [|intros s4 [= <-]]]]]; try done.
    + intros t [= <-]. cbn. set_solver.
    + intros t [= <-] (chain & Hhead & Hlast & Hstep).
      destruct chain as [|x [|y chain]]; [done| |].
      * cbn in Hhead, Hlast. congruence.
      * cbn in Hhead. injection Hhead as ->.
        destruct (Hstep 0%nat "N" y eq_refl eq_refl) as (c & Hc & Hfrom & _).
        cbn in Hc. apply list_elem_of_singleton in Hc as ->. done.
Defined.

(** ** The active tree *)








(** ** The states the cascade leaves alone *)

Lemma cascade_pass_consistent (todo k : nat) (tree_id : string) (tree_index : nat)
    (st : state) :
  (∀ t j n, trees st !! tree_index = Some t → nodes t !! j = Some n →
            0 < current_rank n → check_prerequisites st tree_id (n_id n) = true) →
  cascade_pass todo k tree_id tree_index st false = (st, false).
Proof.
  intros Hcons. revert k. induction todo as [|todo IH]; intros k; [done|].
  cbn [cascade_pass].
  destruct (trees st !! tree_index) as [t|] eqn:Ht; [|done].
  destruct (nodes t !! k) as [n|] eqn:Hn; [|done].
  destruct (0 <? current_rank n) eqn:Hpos; cbn [andb]; [|by apply IH].
  apply Z.ltb_lt in Hpos. rewrite (Hcons t k n eq_refl Hn Hpos). cbn [negb].
  by apply IH.
Qed.

(** X22.  The cascade leaves a state untouched exactly when the tree is
    consistent: [apply_cascade_refunds] returns its input if and only if
    every node of the tree that holds a rank has its prerequisites
    satisfied. *)
Theorem apply_cascade_refunds_fixed (st : state) (tree_id : string) :
  apply_cascade_refunds st tree_id = Some st ↔ play_consistent st tree_id.
Proof.
  unfold apply_cascade_refunds, play_consistent, find_tree.
  destruct (list_find (λ t, t_id t = tree_id) (trees st)) as [[i t]|] eqn:Hfind.
  2: { split; [by intros _ ? ? ?|done]. }
  pose proof Hfind as (Ht & _)%list_find_Some. split.
  - intros Hloop t0 n [= <-] Hn Hpos.
    by apply (cascade_loop_fixpoint tree_id i _ st st t n Hloop Ht).
  - intros Hcons. cbn [cascade_loop]. rewrite Ht.
    rewrite cascade_pass_consistent; [done|].
    intros t0 j n Ht0 Hn Hpos. rewrite Ht in Ht0. injection Ht0 as <-.
    apply (Hcons t n); [done| |done]. by eapply list_elem_of_lookup_2.
Qed.
